(** * i18n bulk translation runner: format transformer, batch gateway and
      pipeline orchestrator, embedded from the runner script
      (flattenJson, unflattenJson, extractPlaceholders,
      validateKeyAndPlaceholderParity, AwsTranslateAndS3, TranslationRunner). *)

From Stdlib Require Import List String Ascii ZArith Bool Arith Lia.
From Stdlib Require Import DecimalString DecimalNat.
Import ListNotations.
Open Scope string_scope.
Open Scope list_scope.

Set Warnings "-register-all".

(* ================================================================= *)
(** ** JavaScript values *)

(** The values the runner manipulates: what [JSON.parse] returns, plus
    [undefined].  A number leaf is never computed with by the code under
    study; numbers are the integer-valued ones.  An object is the list of
    its own enumerable properties in the order [Object.entries] lists
    them, which is the order of their creation (keys that are array
    indices, which the language lists first, are not moved: for an object
    with such keys the list stands for the object with these properties).
    Values are trees, as [JSON.parse] builds them: no object is shared
    between two places. *)
Inductive value : Type :=
| VUndefined
| VNull
| VBool (b : bool)
| VNum (n : Z)
| VStr (s : string)
| VArr (items : list value)
| VObj (props : list (string * value)).

Definition object := list (string * value).

(** [v != null && typeof v === "object" && !Array.isArray(v)] *)
Definition is_plain_object (v : value) : bool :=
  match v with VObj _ => true | _ => false end.

(** [Object.keys(o)] *)
Definition keys (o : object) : list string := map fst o.

(** [Object.prototype.hasOwnProperty.call(o, k)] on a plain object. *)
Fixpoint hasOwn (k : string) (o : object) : bool :=
  match o with
  | [] => false
  | (k', _) :: rest => if String.eqb k k' then true else hasOwn k rest
  end.

(** [o[k]] on a plain object whose inherited members are not string-valued:
    the own property, else nothing. *)
Fixpoint obj_get (k : string) (o : object) : option value :=
  match o with
  | [] => None
  | (k', v) :: rest => if String.eqb k k' then Some v else obj_get k rest
  end.

(** [o[k] = v] on a plain object: an existing own property keeps its place
    and takes the new value, a new property goes last.  This is the write
    of an ordinary data property; the one key it does not describe is
    [__proto__], whose write goes through the inherited accessor. *)
Fixpoint obj_set (k : string) (v : value) (o : object) : object :=
  match o with
  | [] => [(k, v)]
  | (k', v') :: rest =>
      if String.eqb k k' then (k', v) :: rest else (k', v') :: obj_set k v rest
  end.

Definition ordinary_key (k : string) : bool := negb (String.eqb k "__proto__").

(** The key under which [Object.entries] lists element [i] of an array. *)
Definition index_key (i : nat) : string :=
  NilEmpty.string_of_uint (Nat.to_uint i).

(* ================================================================= *)
(** ** flattenJson *)

(** [prefix ? `${prefix}.${k}` : k] : the empty prefix is falsy. *)
Definition join_key (prefix k : string) : string :=
  match prefix with
  | EmptyString => k
  | _ => (prefix ++ "." ++ k)%string
  end.

(** [flattenJson(obj, prefix, out)].  The two inner loops are the
    [for (const [k, v] of Object.entries(obj))] of the source, over an
    object's properties and over an array's elements; a nested array is a
    leaf, only an array passed as [obj] itself is walked. *)
Fixpoint flattenJson (obj : value) (prefix : string) (out : object) {struct obj}
  : object :=
  match obj with
  | VObj props =>
      (fix entries (ps : list (string * value)) (out : object) : object :=
         match ps with
         | [] => out
         | (k, v) :: rest =>
             let key := join_key prefix k in
             entries rest
               (match v with
                | VObj _ => flattenJson v key out
                | _ => obj_set key v out
                end)
         end) props out
  | VArr items =>
      (fix entries (i : nat) (vs : list value) (out : object) : object :=
         match vs with
         | [] => out
         | v :: rest =>
             let key := join_key prefix (index_key i) in
             entries (S i) rest
               (match v with
                | VObj _ => flattenJson v key out
                | _ => obj_set key v out
                end)
         end) 0%nat items out
  | _ => out
  end.

(** The call of the pipeline: [flattenJson(json)], both defaults taken. *)
Definition flatten (json : value) : object := flattenJson json "" [].

(* ================================================================= *)
(** ** unflattenJson *)

(** [k.split(".")] : never empty, the empty string gives one empty part. *)
Fixpoint split_dot (s : string) : list string :=
  match s with
  | EmptyString => [EmptyString]
  | String c rest =>
      if Ascii.eqb c "." then EmptyString :: split_dot rest
      else match split_dot rest with
           | [] => [String c EmptyString]
           | p :: ps => String c p :: ps
           end
  end.

(** A dotted key none of whose parts is [__proto__]. *)
Definition ordinary_path (key : string) : bool :=
  forallb ordinary_key (split_dot key).

(** A thrown JavaScript error: its [name] and its [message]. *)
Record error : Type := mkError { err_name : string; err_message : string }.

(** Outcome of code that can throw.  [Unsupported] marks the runs that
    leave this model: a property written on an array, a property read off
    a primitive or an array in order to walk further down (what is found
    there depends on the built-in prototypes), and the printing of a
    number in exponent notation. *)
Inductive result (A : Type) : Type :=
| Ok (a : A)
| Throw (e : error)
| Unsupported.
Arguments Ok {A} a.
Arguments Throw {A} e.
Arguments Unsupported {A}.

Definition bind {A B} (r : result A) (f : A -> result B) : result B :=
  match r with
  | Ok a => f a
  | Throw e => Throw e
  | Unsupported => Unsupported
  end.

(** What [hasOwnProperty.call(null, part)] throws. *)
Definition TypeError {A} : result A :=
  Throw (mkError "TypeError" "Cannot convert undefined or null to object").

(** The inner [for (let i = 0; i < parts.length; i++)] loop, started at
    node [cur] with the parts still to walk; it returns [cur] as the loop
    leaves it.  [cur = cur[part]] aliases the child, so what the rest of
    the loop writes into an object child is written back in place.  The
    script is not in strict mode: a write on a string, number or boolean
    is dropped silently, while [hasOwnProperty.call] throws on [null] and
    [undefined]. *)
Fixpoint set_path (cur : value) (parts : list string) (v : value) {struct parts}
  : result value :=
  match parts with
  | [] => Ok cur
  | part :: rest =>
      let isLeaf := match rest with [] => true | _ => false end in
      match cur with
      | VObj props =>
          let props1 :=
            if negb (hasOwn part props)
            then obj_set part (if isLeaf then v else VObj []) props
            else if isLeaf then obj_set part v props else props in
          match rest with
          | [] => Ok (VObj props1)
          | _ =>
              match obj_get part props1 with
              | Some child =>
                  bind (set_path child rest v)
                       (fun child' => Ok (VObj (obj_set part child' props1)))
              | None => TypeError
              end
          end
      | VNull | VUndefined => TypeError
      | VBool _ | VNum _ | VStr _ =>
          match rest with
          | [] => Ok cur
          | _ => Unsupported
          end
      | VArr _ => Unsupported
      end
  end.

(** The outer [for (const [k, v] of Object.entries(flat))] loop over the
    entries still to come, [root] being the tree built so far. *)
Fixpoint unflatten_from (root : value) (flat : object) : result value :=
  match flat with
  | [] => Ok root
  | (k, v) :: rest =>
      bind (set_path root (split_dot k) v) (fun root' => unflatten_from root' rest)
  end.

Definition unflattenJson (flat : object) : result value :=
  unflatten_from (VObj []) flat.

(* ================================================================= *)
(** ** Trees that survive a round trip *)

(** No [.] in a key: the separator of the dotted paths. *)
Fixpoint dotfree (s : string) : bool :=
  match s with
  | EmptyString => true
  | String c rest => negb (Ascii.eqb c ".") && dotfree rest
  end.

(** The own keys of a JavaScript object are pairwise distinct. *)
Fixpoint distinct (ks : list string) : bool :=
  match ks with
  | [] => true
  | k :: rest => negb (existsb (String.eqb k) rest) && distinct rest
  end.

Definition plain_key (k : string) : bool :=
  dotfree k && ordinary_key k.

(** A node below the root: a leaf (anything but a plain object), or an
    object that is not empty, whose keys are plain and whose children are
    such nodes again. *)
Fixpoint inner_node (v : value) : bool :=
  match v with
  | VObj ps =>
      match ps with [] => false | _ => true end
      && distinct (keys ps)
      && forallb (fun kv => plain_key (fst kv) && inner_node (snd kv)) ps
  | _ => true
  end.

(** The root: an object, possibly empty; the empty key may only name a
    leaf there (below the root the prefix is never empty). *)
Definition round_trip_tree (t : value) : bool :=
  match t with
  | VObj ps =>
      distinct (keys ps)
      && forallb (fun kv => plain_key (fst kv) && inner_node (snd kv)
                            && (negb (is_plain_object (snd kv))
                                || negb (String.eqb (fst kv) ""))) ps
  | _ => false
  end.

(** The leaves the claim speaks of: strings, numbers and booleans. *)
Fixpoint scalar_leaves (v : value) : bool :=
  match v with
  | VObj ps => forallb (fun kv => scalar_leaves (snd kv)) ps
  | VStr _ | VNum _ | VBool _ => true
  | _ => false
  end.

(** The loop of [flattenJson] over the properties of an object, on its own. *)
Fixpoint flatten_props (ps : object) (prefix : string) (out : object) : object :=
  match ps with
  | [] => out
  | (k, v) :: rest =>
      flatten_props rest prefix
        (match v with
         | VObj _ => flattenJson v (join_key prefix k) out
         | _ => obj_set (join_key prefix k) v out
         end)
  end.

(** [k.rest] *)
Definition under (k : string) (e : string * value) : string * value :=
  ((k ++ "." ++ fst e)%string, snd e).

(** The dotted keys below a node, relative to that node, in walk order. *)
Fixpoint rel_leaves (v : value) : object :=
  match v with
  | VObj ps =>
      flat_map (fun kv => match snd kv with
                          | VObj _ => map (under (fst kv)) (rel_leaves (snd kv))
                          | _ => [(fst kv, snd kv)]
                          end) ps
  | _ => []
  end.

Definition entry_leaves (kv : string * value) : object :=
  match snd kv with
  | VObj _ => map (under (fst kv)) (rel_leaves (snd kv))
  | _ => [(fst kv, snd kv)]
  end.

(** What one turn of the loop of [flattenJson] does with the entry of key
    [key] (prefix included) and value [v]. *)
Definition flatten_entry (v : value) (key : string) (out : object) : object :=
  match v with
  | VObj _ => flattenJson v key out
  | _ => obj_set key v out
  end.

(** The flat entries that turn adds. *)
Definition abs_leaves (key : string) (v : value) : object :=
  match v with
  | VObj _ => map (under key) (rel_leaves v)
  | _ => [(key, v)]
  end.

(** An entry relative to a node, seen from a walk whose prefix at that node
    is [prefix]. *)
Definition rekey (prefix : string) (e : string * value) : string * value :=
  (join_key prefix (fst e), snd e).

(** What the walk below one entry is expected to add. *)
Definition adds_leaves (v : value) : Prop :=
  forall key out,
    (is_plain_object v = true -> key <> "") ->
    NoDup (keys out ++ keys (abs_leaves key v)) ->
    flatten_entry v key out = out ++ abs_leaves key v.

(** What the entries below one object child are expected to rebuild. *)
Definition rebuilds (v : value) : Prop :=
  is_plain_object v = true ->
  rel_leaves v <> [] /\ unflatten_from (VObj []) (rel_leaves v) = Ok v.

(** The node a list of parts leads to, walking through objects only. *)
Fixpoint lookup_path (parts : list string) (t : value) : option value :=
  match parts with
  | [] => Some t
  | part :: rest =>
      match t with
      | VObj props =>
          match obj_get part props with
          | Some child => lookup_path rest child
          | None => None
          end
      | _ => None
      end
  end.

(** A string, number or boolean. *)
Definition is_scalar (v : value) : bool :=
  match v with
  | VStr _ | VNum _ | VBool _ => true
  | _ => false
  end.

(** The first part of a dotted key. *)
Definition first_part (key : string) : string := hd "" (split_dot key).

(** *** Induction on trees *)

Section ValueInduction.
Variable P : value -> Prop.
Hypothesis P_leaf : forall v, is_plain_object v = false -> P v.
Hypothesis P_obj : forall ps, Forall (fun kv => P (snd kv)) ps -> P (VObj ps).

(** Induction on a tree that gives the hypothesis for every child of an
    object; arrays are leaves, as they are for [flattenJson]. *)
Fixpoint value_tree_ind (v : value) : P v :=
  match v with
  | VObj ps =>
      P_obj ps ((fix children (l : list (string * value)) :
                Forall (fun kv => P (snd kv)) l :=
                match l with
                | [] => Forall_nil _
                | kv :: rest =>
                    @Forall_cons _ (fun kv => P (snd kv)) kv rest
                  (value_tree_ind (snd kv)) (children rest)
                end) ps)
  | VUndefined => P_leaf VUndefined eq_refl
  | VNull => P_leaf VNull eq_refl
  | VBool b => P_leaf (VBool b) eq_refl
  | VNum n => P_leaf (VNum n) eq_refl
  | VStr s => P_leaf (VStr s) eq_refl
  | VArr l => P_leaf (VArr l) eq_refl
  end.
End ValueInduction.

(* ================================================================= *)
(** ** extractPlaceholders and validateKeyAndPlaceholderParity *)

(** A [Set] of strings: its elements once each, in insertion order. *)
Definition str_set := list string.

(** [set.has(x)] *)
Definition set_has (x : string) (s : str_set) : bool := existsb (String.eqb x) s.

(** [set.add(x)] *)
Definition set_add (x : string) (s : str_set) : str_set :=
  if set_has x s then s else s ++ [x].

Definition is_brace (c : ascii) : bool := Ascii.eqb c "{" || Ascii.eqb c "}".

(** The tail of [PLACEHOLDER_REGEX] once [{] is read: [([^{}]+)\}].
    Returns the captured name and what follows the closing brace.  The
    name is the longest run of non-brace characters, and it has to be
    followed by [}]. *)
Fixpoint match_name (s : string) : option (string * string) :=
  match s with
  | EmptyString => None
  | String c rest =>
      if is_brace c then None
      else match rest with
           | EmptyString => None
           | String c' after =>
               if Ascii.eqb c' "}" then Some (String c EmptyString, after)
               else match match_name rest with
                    | Some (name, after') => Some (String c name, after')
                    | None => None
                    end
           end
  end.

(** [PLACEHOLDER_REGEX.exec(str)] from [lastIndex] on, the argument being
    the part of [str] from [lastIndex]: the leftmost match, as its capture
    [m[1]] and the part of [str] from the new [lastIndex]. *)
Fixpoint regex_exec (s : string) : option (string * string) :=
  match s with
  | EmptyString => None
  | String c rest =>
      if Ascii.eqb c "{" then
        match match_name rest with
        | Some m => Some m
        | None => regex_exec rest
        end
      else regex_exec rest
  end.

(** [while ((m = PLACEHOLDER_REGEX.exec(str))) set.add(m[1])], with a bound
    on the number of turns; a failed [exec] puts [lastIndex] back to 0, so
    that every call starts from the beginning of its string. *)
Fixpoint exec_loop (turns : nat) (s : string) (set : str_set) : str_set :=
  match turns with
  | O => set
  | S turns' =>
      match regex_exec s with
      | Some (name, after) => exec_loop turns' after (set_add name set)
      | None => set
      end
  end.

(** [extractPlaceholders(str)]: a match takes at least three characters, so
    the length of the string bounds the number of turns. *)
Definition extractPlaceholders (str : value) : str_set :=
  match str with
  | VStr s => exec_loop (String.length s) s []
  | _ => []
  end.

(** [o[key]] read as a value: an absent key gives [undefined] (or an
    inherited built-in, which is not a string either). *)
Definition prop_value (key : string) (o : object) : value :=
  match obj_get key o with
  | Some v => v
  | None => VUndefined
  end.

(** [{ key, missingPH, extraPH }] *)
Record placeholder_diff : Type := mkDiff {
  pd_key : string;
  pd_missingPH : list string;
  pd_extraPH : list string
}.

(** The entries of [errors], by their [type]. *)
Inductive validation_error : Type :=
| missing_keys (ks : list string)
| extra_keys (ks : list string)
| placeholder_mismatch (items : list placeholder_diff).

Record validation : Type := mkValidation {
  ok : bool;
  errors : list validation_error
}.

(** [[...a].filter((p) => !b.has(p))] *)
Definition set_minus (a b : str_set) : list string :=
  filter (fun p => negb (set_has p b)) a.

(** The body of the third loop, for one key of [sourceFlat]. *)
Definition placeholder_item (sourceFlat targetFlat : object) (key : string)
  : list placeholder_diff :=
  let srcPH := extractPlaceholders (prop_value key sourceFlat) in
  let tgtPH := extractPlaceholders (prop_value key targetFlat) in
  let missingPH := set_minus srcPH tgtPH in
  let extraPH := set_minus tgtPH srcPH in
  match missingPH, extraPH with
  | [], [] => []
  | _, _ => [mkDiff key missingPH extraPH]
  end.

Definition validateKeyAndPlaceholderParity (sourceFlat targetFlat : object)
  : validation :=
  let missing := filter (fun key => negb (hasOwn key targetFlat)) (keys sourceFlat) in
  let extra := filter (fun key => negb (hasOwn key sourceFlat)) (keys targetFlat) in
  let placeholderDiffs :=
    flat_map (placeholder_item sourceFlat targetFlat) (keys sourceFlat) in
  let errors :=
    (match missing with [] => [] | _ => [missing_keys missing] end)
    ++ (match extra with [] => [] | _ => [extra_keys extra] end)
    ++ (match placeholderDiffs with
        | [] => []
        | _ => [placeholder_mismatch placeholderDiffs]
        end) in
  mkValidation (match errors with [] => true | _ => false end) errors.

(** The three lists the function collects before it groups them. *)
Definition missing_list (sourceFlat targetFlat : object) : list string :=
  filter (fun key => negb (hasOwn key targetFlat)) (keys sourceFlat).

Definition extra_list (sourceFlat targetFlat : object) : list string :=
  filter (fun key => negb (hasOwn key sourceFlat)) (keys targetFlat).

Definition diff_list (sourceFlat targetFlat : object) : list placeholder_diff :=
  flat_map (placeholder_item sourceFlat targetFlat) (keys sourceFlat).

(** What the three groups of [errors] say. *)
Definition reports_missing_key (r : validation) (k : string) : Prop :=
  exists ks, In (missing_keys ks) (errors r) /\ In k ks.

Definition reports_extra_key (r : validation) (k : string) : Prop :=
  exists ks, In (extra_keys ks) (errors r) /\ In k ks.

Definition reports_missing_placeholder (r : validation) (k p : string) : Prop :=
  exists items d, In (placeholder_mismatch items) (errors r) /\ In d items /\
                  pd_key d = k /\ In p (pd_missingPH d).

Definition reports_extra_placeholder (r : validation) (k p : string) : Prop :=
  exists items d, In (placeholder_mismatch items) (errors r) /\ In d items /\
                  pd_key d = k /\ In p (pd_extraPH d).

(* ================================================================= *)
(** ** Conversions of the language *)

(** Decimal rendering of a count, as a template literal prints it. *)
Definition nat_str (n : nat) : string := NilEmpty.string_of_uint (Nat.to_uint n).

(** Decimal rendering of an integer-valued number. *)
Definition int_str (z : Z) : string := NilZero.string_of_int (Z.to_int z).

(** Truthiness, as [&&] and [!] test it. *)
Definition truthy (v : value) : bool :=
  match v with
  | VUndefined | VNull => false
  | VBool b => b
  | VNum n => negb (Z.eqb n 0)
  | VStr s => negb (String.eqb s "")
  | VArr _ | VObj _ => true
  end.

(** [v ?? ""] *)
Definition or_empty (v : value) : value :=
  match v with
  | VUndefined | VNull => VStr ""
  | _ => v
  end.

(** What the conversion of an object to a primitive throws when neither
    [toString] nor [valueOf] yields one. *)
Definition not_primitive : error :=
  mkError "TypeError" "Cannot convert object to primitive value".

(** [String(v)].  An integer below [10^21] in magnitude prints in plain
    decimal (beyond, the exponent notation is left out of the model).  An
    array is joined on [,] with [null] and [undefined] elements left empty.  A plain object prints as [[object Object]]
    through the inherited [toString]; a parsed object that has an own
    property [toString] shadows it with something that is not callable,
    and the conversion throws. *)
Fixpoint js_String (v : value) : result string :=
  match v with
  | VUndefined => Ok "undefined"
  | VNull => Ok "null"
  | VBool true => Ok "true"
  | VBool false => Ok "false"
  | VNum n =>
      if (Z.abs n <? 10 ^ 21)%Z then Ok (int_str n) else Unsupported
  | VStr s => Ok s
  | VArr items =>
      (fix join (first : bool) (l : list value) : result string :=
         match l with
         | [] => Ok ""
         | x :: rest =>
             bind (match x with
                   | VUndefined | VNull => Ok ""
                   | _ => js_String x
                   end)
                  (fun sx =>
                     bind (join false rest)
                          (fun sr => Ok ((if first then "" else ",") ++ sx ++ sr)%string))
         end) true items
  | VObj props =>
      if hasOwn "toString" props then Throw not_primitive
      else Ok "[object Object]"
  end.

(* ================================================================= *)
(** ** The association of batch results to source keys *)

(** [{ key, text }] records, in [Object.entries] order of the flat source. *)
Definition line := (string * value)%type.

(** [fetched[i]] : out of range gives [undefined]. *)
Definition fetched_at (fetched : list value) (i : nat) : value :=
  nth i fetched VUndefined.

(** [fetched[i] && typeof fetched[i].text === "string" ? fetched[i].text
    : fetched[i]] : only a plain object can have a [text] property. *)
Definition result_text (entry : value) : value :=
  if truthy entry then
    match entry with
    | VObj props =>
        match prop_value "text" props with
        | VStr s => VStr s
        | _ => entry
        end
    | _ => entry
    end
  else entry.

(** [typeof val === "string" ? val : String(val ?? "")] *)
Definition as_string (val : value) : result string :=
  match val with
  | VStr s => Ok s
  | _ => js_String (or_empty val)
  end.

(** How the association loop ends: at its end, on a thrown error, or on
    a conversion that the model does not cover. *)
Inductive loop_end : Type :=
| Finished
| Thrown (e : error)
| LeftModel.

(** The loop [for (let i = 0; i < lines.length; i++)] from index [i] on,
    over the lines still to do.  It returns [translatedFlat] as the loop
    leaves it, and how the loop ended. *)
Fixpoint associate_from (i : nat) (todo : list line) (fetched : list value)
         (translatedFlat : object) : object * loop_end :=
  match todo with
  | [] => (translatedFlat, Finished)
  | (key, _) :: rest =>
      match as_string (result_text (fetched_at fetched i)) with
      | Ok s => associate_from (S i) rest fetched (obj_set key (VStr s) translatedFlat)
      | Throw e => (translatedFlat, Thrown e)
      | Unsupported => (translatedFlat, LeftModel)
      end
  end.

(** [translatedFlat = {}] followed by the loop. *)
Definition associate (lines : list line) (fetched : list value)
  : object * loop_end :=
  associate_from 0 lines fetched [].

(** An entry whose conversion to a string gives a string. *)
Definition convertible (entry : value) : bool :=
  match as_string (result_text entry) with
  | Ok _ => true
  | _ => false
  end.

(** The entries the loop is expected to write, for the lines from index
    [i] on: each key with the string made of the result at its index. *)
Fixpoint expected_entries (i : nat) (todo : list line) (fetched : list value)
  : object :=
  match todo with
  | [] => []
  | (key, _) :: rest =>
      (key, VStr (match as_string (result_text (fetched_at fetched i)) with
                  | Ok s => s
                  | _ => ""
                  end))
      :: expected_entries (S i) rest fetched
  end.

(* ================================================================= *)
(** ** Effects: the log, the outside world, the runner's counters *)

(** [{ baseDir, moduleName, moduleDir, sourceFile }] *)
Record module_info : Type := mkModule {
  baseDir : string;
  moduleName : string;
  moduleDir : string;
  sourceFile : string
}.

(** An entry of [LOCALES.targets]. *)
Record locale : Type := mkLocale {
  folderCode : string;
  awsCode : string;
  localeName : string
}.

(** [details.TextTranslationJobProperties] : [JobStatus] and [Message]. *)
Record job_details : Type := mkDetails {
  JobStatus : string;
  Message : option string
}.

(** The requests the script sends out of itself: to the file system, to
    the [AwsS3] wrapper, to AWS Translate, to the timer. *)
Inductive call : Type :=
| call_ensureDir (p : string)
| call_readJsonSafe (file : string)
| call_writeJsonPretty (file : string) (data : value)
| call_scanI18nBaseDirs (explicitBaseDir : option string)
| call_simulateI18n (base : string)
| call_scanModulesWithEnglish (base : string)
| call_uploadFile (bucket key : string) (lines : list line)
| call_listFiles (bucket prefix : string)
| call_getFile (bucket key : string)
| call_deleteFile (bucket key : string)
| call_deleteFiles (bucket : string) (ks : list string)
| call_startTextTranslationJob (inputS3Uri outputS3Uri targetLang : string)
| call_describeTextTranslationJob (jobId : string)
| call_translateText (text targetLang : string)
| call_setTimeout (ms : nat).

(** The payload of [Logger.writeLog], without its time stamp. *)
Record log_entry : Type := mkLog {
  flag : string;
  action : string;
  message : string;
  critical : bool;
  data : object
}.

(** An event: an entry written to the log, or a request sent out, with
    the error it was rejected with, if it was. *)
Inductive event : Type :=
| Logged (l : log_entry)
| Called (c : call) (rejected : option error).

(** What happened so far, oldest first. *)
Definition trace := list event.

(** The world the script runs in.  Every answer may depend on what
    happened before; the status of a batch job is given per job as the
    sequence of answers to its successive status requests.  The built-ins
    whose result depends on the platform or on floating point are taken
    from the world as well. *)
Record env : Type := mkEnv {
  path_join : list string -> string;
  path_basename : string -> string;
  random_uid : trace -> string;
  round_percent : nat -> nat -> Z;
  JSON_parse : string -> option value;
  JSON_stringify_errors : list validation_error -> string;
  String_trim : string -> string;
  fs_ensureDir : trace -> string -> result unit;
  fs_readJsonSafe : trace -> string -> result value;
  fs_writeJsonPretty : trace -> string -> value -> result unit;
  fs_scanI18nBaseDirs : trace -> option string -> list string;
  fs_simulateI18n : trace -> string -> result unit;
  fs_scanModulesWithEnglish : trace -> string -> result (list module_info);
  s3_has_uploadFile : bool;
  s3_has_deleteFile : bool;
  s3_has_listFiles : bool;
  s3_has_deleteFiles : bool;
  s3_uploadFile : trace -> string -> string -> list line -> result unit;
  s3_listFiles : trace -> string -> string -> result (option (list string));
  s3_getFile : trace -> string -> string -> result string;
  s3_deleteFile : trace -> string -> string -> result unit;
  s3_deleteFiles : trace -> string -> list string -> result unit;
  tr_startTextTranslationJob : trace -> string -> string -> string -> result string;
  tr_job_status : string -> nat -> result job_details;
  tr_translateText : trace -> string -> string -> result string
}.

(** The fields of the runner that change during a run, and the trace. *)
Record state : Type := mkState {
  events : trace;
  totalPairs : nat;
  completedPairs : nat
}.

(** A computation: from a state to an outcome and a state, or to nothing
    when the bound on the turns of the polling loop is used up. *)
Definition M (A : Type) : Type := state -> option (result A * state).

Definition ret {A} (a : A) : M A := fun st => Some (Ok a, st).

Definition throw {A} (e : error) : M A := fun st => Some (Throw e, st).

Definition lift {A} (r : result A) : M A := fun st => Some (r, st).

Definition mbind {A B} (m : M A) (f : A -> M B) : M B :=
  fun st =>
    match m st with
    | None => None
    | Some (Ok a, st') => f a st'
    | Some (Throw e, st') => Some (Throw e, st')
    | Some (Unsupported, st') => Some (Unsupported, st')
    end.

Declare Scope runner_scope.
Delimit Scope runner_scope with runner.
Notation "x <- m ;; k" := (mbind m (fun x => k))
  (at level 61, m at next level, right associativity) : runner_scope.
Notation "m ;;; k" := (mbind m (fun _ => k))
  (at level 61, right associativity) : runner_scope.
Open Scope runner_scope.

(** [try { m } catch (e) { handler e }] *)
Definition try_catch {A} (m : M A) (handler : error -> M A) : M A :=
  fun st =>
    match m st with
    | Some (Throw e, st') => handler e st'
    | other => other
    end.

(** [try { m } finally { fin }] : [fin] runs whatever [m] did, and the
    outcome of [m] stands unless [fin] throws. *)
Definition then_finally {A} (m : M A) (fin : M unit) : M A :=
  fun st =>
    match m st with
    | None => None
    | Some (r, st') =>
        match fin st' with
        | Some (Ok _, st'') => Some (r, st'')
        | Some (Throw e, st'') => Some (Throw e, st'')
        | Some (Unsupported, st'') => Some (Unsupported, st'')
        | None => None
        end
    end.

Definition add_event (st : state) (e : event) : state :=
  mkState (events st ++ [e]) (totalPairs st) (completedPairs st).

Definition record (e : event) : M unit :=
  fun st => Some (Ok tt, add_event st e).

(** A request: it is recorded, and the world answers from what happened
    before it. *)
Definition rejection {A} (r : result A) : option error :=
  match r with
  | Throw e => Some e
  | _ => None
  end.

Definition request {A} (c : call) (answer : trace -> result A) : M A :=
  fun st =>
    let r := answer (events st) in
    Some (r, add_event st (Called c (rejection r))).

Definition get_state : M state := fun st => Some (Ok st, st).

Definition set_counters (total completed : nat) : M unit :=
  fun st => Some (Ok tt, mkState (events st) total completed).

(** The number of status requests already sent for a job. *)
Fixpoint polls_of (jobId : string) (t : trace) : nat :=
  match t with
  | [] => 0
  | Called (call_describeTextTranslationJob j) _ :: rest =>
      (if String.eqb j jobId then 1 else 0) + polls_of jobId rest
  | _ :: rest => polls_of jobId rest
  end.

(* ================================================================= *)
(** ** AwsTranslateAndS3 *)

Definition Error (msg : string) : error := mkError "Error" msg.

(** [/\.out$/.test(key)] *)
Definition ends_with_out (key : string) : bool :=
  let n := String.length key in
  (4 <=? n)%nat && String.eqb (substring (n - 4) 4 key) ".out".

(** [.] of a regular expression stops at a line terminator: line feed,
    carriage return, and the two Unicode separators (three bytes each). *)
Fixpoint has_line_terminator (s : string) : bool :=
  match s with
  | EmptyString => false
  | String c rest =>
      Ascii.eqb c "010" || Ascii.eqb c "013"
      || (Ascii.eqb c "226" &&
          match rest with
          | String c1 (String c2 _) =>
              Ascii.eqb c1 "128" && (Ascii.eqb c2 "168" || Ascii.eqb c2 "169")
          | _ => false
          end)
      || has_line_terminator rest
  end.

(** The text up to the first [/], and what follows that [/]. *)
Fixpoint until_slash (s : string) : option (string * string) :=
  match s with
  | EmptyString => None
  | String c rest =>
      if Ascii.eqb c "/" then Some (EmptyString, rest)
      else match until_slash rest with
           | Some (a, b) => Some (String c a, b)
           | None => None
           end
  end.

(** [/^s3:\/\/([^/]+)\/(.+)$/.exec(uri)] as [(m[1], m[2])]. *)
Definition parse_s3_uri (uri : string) : option (string * string) :=
  if String.eqb (substring 0 5 uri) "s3://" then
    match until_slash (substring 5 (String.length uri - 5) uri) with
    | Some (bucket, rest) =>
        if String.eqb bucket "" || String.eqb rest "" || has_line_terminator rest
        then None else Some (bucket, rest)
    | None => None
    end
  else None.

(** [s.replace(/\/+$/g, "")] *)
Fixpoint strip_slashes (s : string) : string :=
  match s with
  | EmptyString => EmptyString
  | String c rest =>
      match strip_slashes rest with
      | EmptyString => if Ascii.eqb c "/" then EmptyString else String c EmptyString
      | r => String c r
      end
  end.

(** [text.split(/\r?\n/)] *)
Fixpoint split_lines (s : string) : list string :=
  match s with
  | EmptyString => [EmptyString]
  | String c rest =>
      if Ascii.eqb c "010" then EmptyString :: split_lines rest
      else if Ascii.eqb c "013" && (match rest with
                                    | String c' _ => Ascii.eqb c' "010"
                                    | EmptyString => false
                                    end)
      then split_lines rest
      else match split_lines rest with
           | [] => [String c EmptyString]
           | l :: ls => String c l :: ls
           end
  end.

Section Gateway.

Variable W : env.

(** The optional [logger.writeLog], here the global logger. *)
Definition writeLog (fl act msg : string) (crit : bool) (dat : object) : M unit :=
  record (Logged (mkLog fl act msg crit dat)).

Definition putJsonl (bucket key : string) (lines : list line) : M string :=
  if s3_has_uploadFile W then
    request (call_uploadFile bucket key lines)
            (fun t => s3_uploadFile W t bucket key lines) ;;;
    ret ("s3://" ++ bucket ++ "/" ++ key)%string
  else throw (Error "AwsS3.uploadFile is not available").

(** Returns the [jobId]; the [jobName], made of the clock, is left out. *)
Definition startBatch (inputS3Uri outputS3Uri targetLang : string) : M string :=
  request (call_startTextTranslationJob inputS3Uri outputS3Uri targetLang)
          (fun t => tr_startTextTranslationJob W t inputS3Uri outputS3Uri targetLang).

(** [details.TextTranslationJobProperties.Message || "unknown"] *)
Definition reason_of (details : job_details) : string :=
  match Message details with
  | Some m => if String.eqb m "" then "unknown" else m
  | None => "unknown"
  end.

Definition BatchTranslateFailed (jobId status reason : string) : error :=
  mkError "BatchTranslateFailed"
          ("Batch translate job " ++ jobId ++ " " ++ status ++ ": " ++ reason)%string.

(** [waitForBatchCompletion({ jobId, logger, pollMs })] : the [while (true)]
    loop, with a bound on its turns. *)
Fixpoint waitForBatchCompletion (turns : nat) (jobId : string) (pollMs : nat)
  : M job_details :=
  match turns with
  | O => fun _ => None
  | S turns' =>
      details <- request (call_describeTextTranslationJob jobId)
                         (fun t => tr_job_status W jobId (polls_of jobId t)) ;;
      let status := JobStatus details in
      writeLog "tr_batch_wait" "poll_status" ("Batch job status: " ++ status)
               false [("jobId", VStr jobId)] ;;;
      if String.eqb status "COMPLETED" then ret details
      else if String.eqb status "FAILED" || String.eqb status "STOPPED"
      then throw (BatchTranslateFailed jobId status (reason_of details))
      else
        request (call_setTimeout pollMs) (fun _ => Ok tt) ;;;
        waitForBatchCompletion turns' jobId pollMs
  end.

(** [(files || []).find((o) => /\.out$/.test(o.Key)) || (files || [])[0]],
    on the keys of the listed objects. *)
Definition pick_output (files : option (list string)) : option string :=
  let l := match files with Some l => l | None => [] end in
  match find ends_with_out l with
  | Some k => Some k
  | None => hd_error l
  end.

Definition not_a_function (what : string) : error :=
  mkError "TypeError" (what ++ " is not a function")%string.

Definition fetchBatchResults (outputS3Uri : string) : M (list value) :=
  match parse_s3_uri outputS3Uri with
  | None => throw (Error ("Invalid S3 URI: " ++ outputS3Uri))
  | Some (bucket, rest) =>
      let prefix := (strip_slashes rest ++ "/")%string in
      files <- (if s3_has_listFiles W
                then request (call_listFiles bucket prefix)
                             (fun t => s3_listFiles W t bucket prefix)
                else throw (not_a_function "AwsS3.listFiles")) ;;
      match pick_output files with
      | None => throw (Error ("No batch outputs under " ++ outputS3Uri))
      | Some key =>
          text <- request (call_getFile bucket key)
                          (fun t => s3_getFile W t bucket key) ;;
          ret (map (fun ln => match JSON_parse W ln with
                              | Some v => v
                              | None => VObj [("text", VStr ln)]
                              end)
                   (split_lines (String_trim W text)))
      end
  end.

(** [translateText(text, targetLang)], with [Text: String(text ?? "")]. *)
Definition translateText (text : value) (targetLang : string) : M string :=
  txt <- lift (js_String (or_empty text)) ;;
  request (call_translateText txt targetLang)
          (fun t => tr_translateText W t txt targetLang).

End Gateway.

(* ================================================================= *)
(** ** TranslationRunner *)

(** The fields the constructor fixes. [roleArn] is a non-empty string or
    [null]. *)
Record config : Type := mkConfig {
  outputRoot : string;
  bucket : string;
  inPrefix : string;
  outPrefix : string;
  roleArn : option string;
  forceSync : bool;
  tsFolder : string;
  i18nBasePref : option string;
  source : locale;
  targets : list locale
}.

(** [parts.filter(Boolean).join("/")] *)
Definition join_nonempty (parts : list string) : string :=
  String.concat "/" (filter (fun s => negb (String.eqb s "")) parts).

(** The [errors] array as a value, for the log. *)
Definition strings_value (l : list string) : value := VArr (map VStr l).

Definition diff_value (d : placeholder_diff) : value :=
  VObj [("key", VStr (pd_key d));
        ("missingPH", strings_value (pd_missingPH d));
        ("extraPH", strings_value (pd_extraPH d))].

Definition error_value (e : validation_error) : value :=
  match e with
  | missing_keys ks => VObj [("type", VStr "missing_keys"); ("keys", strings_value ks)]
  | extra_keys ks => VObj [("type", VStr "extra_keys"); ("keys", strings_value ks)]
  | placeholder_mismatch items =>
      VObj [("type", VStr "placeholder_mismatch"); ("items", VArr (map diff_value items))]
  end.

(** What reading a [const] inside its own initializer throws. *)
Definition ReferenceError (name : string) : error :=
  mkError "ReferenceError"
          ("Cannot access '" ++ name ++ "' before initialization")%string.

(** [!this.forceSync && this.roleArn] *)
Definition batch_enabled (c : config) : bool :=
  negb (forceSync c) &&
  match roleArn c with
  | Some arn => negb (String.eqb arn "")
  | None => false
  end.

Section Runner.

Variable W : env.
Variable C : config.

(** [_log(flag, action, message, data, critical)] *)
Definition _log (fl act msg : string) (dat : object) (crit : bool) : M unit :=
  record (Logged (mkLog fl act msg crit dat)).

(** [_step({ startFlag, endFlag, action, messageStart, messageEnd, data, fn })] *)
Definition _step {A} (startFlag endFlag act messageStart messageEnd : string)
           (dat : object) (fn : M A) : M A :=
  _log startFlag act messageStart dat false ;;;
  result <- fn ;;
  _log endFlag act messageEnd dat false ;;;
  ret result.

(** [_progressTick(extra)] *)
Definition _progressTick (extra : object) : M unit :=
  st <- get_state ;;
  let percent :=
    if (0 <? totalPairs st)%nat
    then round_percent W (completedPairs st) (totalPairs st)
    else 0%Z in
  _log "tr_progress" "global"
       ("Global progress: " ++ nat_str (completedPairs st) ++ "/"
        ++ nat_str (totalPairs st) ++ " (" ++ int_str percent ++ "%)")%string
       (("percent", VNum percent) :: extra) false.

Definition ensureJobDir : M string :=
  let job := path_join W [outputRoot C; tsFolder C] in
  _step "tr_job_dir_start" "tr_job_dir_end" "mkdir"
        ("Ensuring job dir: " ++ job) "Job dir ready" [("job", VStr job)]
        (request (call_ensureDir job) (fun t => fs_ensureDir W t job)) ;;;
  ret job.

(** The loop [for (const base of baseDirs)] of [scanAllModules]. *)
Fixpoint scan_bases (baseDirs : list string) (found : list module_info)
  : M (list module_info) :=
  match baseDirs with
  | [] => ret found
  | base :: rest =>
      request (call_simulateI18n base) (fun t => fs_simulateI18n W t base) ;;;
      mods <- request (call_scanModulesWithEnglish base)
                      (fun t => fs_scanModulesWithEnglish W t base) ;;
      scan_bases rest
        (found ++ map (fun m => mkModule base (moduleName m) (moduleDir m)
                                         (sourceFile m)) mods)
  end.

Definition scanAllModules : M (list module_info) :=
  _log "tr_scan_start" "scan" "Scanning base dirs"
       [("hint", VStr (match i18nBasePref C with Some h => h | None => "auto" end))]
       false ;;;
  baseDirs <- request (call_scanI18nBaseDirs (i18nBasePref C))
                      (fun t => Ok (fs_scanI18nBaseDirs W t (i18nBasePref C))) ;;
  match baseDirs with
  | [] => throw (Error "No i18n/18n base directory found")
  | _ =>
      found <- scan_bases baseDirs [] ;;
      _log "tr_scan_found" "scan"
           ("Found " ++ nat_str (List.length found) ++ " module(s) with en.json")
           [("files",
             strings_value
               (map (fun m => ("/" ++ path_basename W (baseDir m) ++ "/"
                               ++ moduleName m ++ "/en.json")%string) found))]
           false ;;;
      _log "tr_scan_end" "scan" "Scanning completed"
           [("baseDirs", strings_value baseDirs)] false ;;;
      ret found
  end.

Definition _s3InputKey (uid mod_name localeCode : string) : string :=
  join_nonempty [inPrefix C; tsFolder C; mod_name; localeCode; (uid ++ ".jsonl")%string].

Definition _s3OutputPrefix (mod_name localeCode : string) : string :=
  (join_nonempty [outPrefix C; tsFolder C; mod_name; localeCode] ++ "/")%string.

Definition _s3OutputUri (mod_name localeCode : string) : string :=
  ("s3://" ++ bucket C ++ "/" ++ _s3OutputPrefix mod_name localeCode)%string.

Definition _localOut (jobDir mod_name localeCode : string) : string :=
  path_join W [jobDir; mod_name; (localeCode ++ ".json")%string].

(** [buildPayload(enFile)] : [{ flatSource, lines }], the lines being the
    entries of the flat source in their order. *)
Definition buildPayload (enFile : string) : M (object * list line) :=
  _step "tr_payload_build_start" "tr_payload_build_end" "flatten"
        ("Flattening " ++ enFile ++ " -> JSONL") "Payload built"
        [("enFile", VStr enFile)]
        (json <- request (call_readJsonSafe enFile)
                         (fun t => fs_readJsonSafe W t enFile) ;;
         if negb (truthy json)
         then throw (Error ("Cannot read or parse " ++ enFile))
         else let flat := flatten json in ret (flat, flat)).

(** The body of the [try] up to the fetch.  Its first statement reads
    [jobName] in the argument of the call whose result initialises
    [jobName]: the read throws before [_step] is entered. *)
Definition batch_attempt (turns : nat) (mod_name targetFolder targetAws
                                        inputUri outputUri : string)
  : M (list value) :=
  jobName <- throw (ReferenceError "jobName") ;;
  jobId <- _step "tr_batch_start" "tr_batch_start" "batch_start"
                 "Starting batch translation" "Batch started"
                 [("moduleName", VStr mod_name); ("targetFolder", VStr targetFolder);
                  ("jobName", jobName); ("inputUri", VStr inputUri);
                  ("outputUri", VStr outputUri);
                  ("source", VStr (awsCode (source C))); ("target", VStr targetAws)]
                 (startBatch W inputUri outputUri targetAws) ;;
  _step "tr_batch_wait" "tr_batch_wait" "batch_wait"
        ("Waiting for job " ++ jobId) "Polling..." [("jobId", VStr jobId)]
        (waitForBatchCompletion W turns jobId 4000) ;;;
  _step "tr_batch_fetch" "tr_batch_end" "batch_fetch"
        "Fetching batch results" "Batch results fetched"
        [("outputUri", VStr outputUri)]
        (fetchBatchResults W outputUri).

Definition batch_fail_log (mod_name targetFolder : string) (e : error) : M unit :=
  _log "tr_error" "batch_fail"
       ("Batch failed; falling back to per-string. " ++ err_message e)
       [("moduleName", VStr mod_name); ("targetFolder", VStr targetFolder)] true.

(** The [if (!this.forceSync && this.roleArn) { try ... catch ... }] block:
    the value of [translatedFlat] after it, [None] for [null].  An error
    thrown by the association loop leaves the part of the map written
    before it. *)
Definition try_batch (turns : nat) (mod_name targetFolder targetAws
                                    inputUri outputUri : string)
           (lines : list line) : M (option object) :=
  if batch_enabled C then
    fetched <- try_catch
                 (f <- batch_attempt turns mod_name targetFolder targetAws
                                     inputUri outputUri ;;
                  ret (Some f))
                 (fun e => batch_fail_log mod_name targetFolder e ;;; ret None) ;;
    match fetched with
    | None => ret None
    | Some f =>
        match associate lines f with
        | (translatedFlat, Finished) => ret (Some translatedFlat)
        | (translatedFlat, Thrown e) =>
            batch_fail_log mod_name targetFolder e ;;; ret (Some translatedFlat)
        | (_, LeftModel) => lift Unsupported
        end
    end
  else ret None.

(** The loop [for (const { key, text } of lines)] of the fallback. *)
Fixpoint sync_translate (lines : list line) (targetAws : string)
         (acc : list (string * string)) : M (list (string * string)) :=
  match lines with
  | [] => ret acc
  | (key, text) :: rest =>
      t <- translateText W text targetAws ;;
      sync_translate rest targetAws (acc ++ [(key, t)])
  end.

(** [translatedFlat = {}; for (const r of out) translatedFlat[r.key] = r.text] *)
Definition flat_of (out : list (string * string)) : object :=
  fold_left (fun flat r => obj_set (fst r) (VStr (snd r)) flat) out [].

(** The cleanup step: the staged input, then every object under the
    output prefix. *)
Definition s3_cleanup (inputKey outputPrefix : string) : M unit :=
  (if s3_has_deleteFile W
   then request (call_deleteFile (bucket C) inputKey)
                (fun t => s3_deleteFile W t (bucket C) inputKey)
   else ret tt) ;;;
  if s3_has_listFiles W && s3_has_deleteFiles W then
    files <- request (call_listFiles (bucket C) outputPrefix)
                     (fun t => s3_listFiles W t (bucket C) outputPrefix) ;;
    match files with
    | Some (k :: ks) =>
        request (call_deleteFiles (bucket C) (k :: ks))
                (fun t => s3_deleteFiles W t (bucket C) (k :: ks))
    | _ => ret tt
    end
  else ret tt.

(** The end of [translateModuleLocale], from "Convert to nested JSON" on:
    unflatten, validate, write the local file, clean up the bucket. *)
Definition finish_pair (mod_name targetFolder jobDir inputKey outputPrefix : string)
           (flatSource translatedFlat : object) : M string :=
  nested <- _step "tr_convert_start" "tr_convert_end" "unflatten"
                  "Converting flat -> nested" "Converted nested"
                  [("moduleName", VStr mod_name); ("targetFolder", VStr targetFolder)]
                  (lift (unflattenJson translatedFlat)) ;;
  let v := validateKeyAndPlaceholderParity flatSource translatedFlat in
  _step "tr_validate_start" (if ok v then "tr_validate_pass" else "tr_validate_fail")
        "validate" "Validating"
        (if ok v then "Validation passed" else "Validation failed")
        [("moduleName", VStr mod_name); ("targetFolder", VStr targetFolder);
         ("errors", VArr (map error_value (errors v)))]
        (ret tt) ;;;
  (if ok v then ret tt
   else
     let err := Error ("Validation failed for " ++ mod_name ++ "/" ++ targetFolder
                       ++ ": " ++ JSON_stringify_errors W (errors v)) in
     _log "tr_error" "validate_fail" (err_message err)
          [("moduleName", VStr mod_name); ("targetFolder", VStr targetFolder)] true ;;;
     throw err) ;;;
  let outPath := _localOut jobDir mod_name targetFolder in
  _step "tr_write_start" "tr_write_end" "write_file"
        ("Writing " ++ outPath) "File written" [("outPath", VStr outPath)]
        (request (call_writeJsonPretty outPath nested)
                 (fun t => fs_writeJsonPretty W t outPath nested)) ;;;
  _step "tr_cleanup_start" "tr_cleanup_end" "s3_cleanup"
        "Cleaning up S3 input & output" "S3 cleanup complete"
        [("inputKey", VStr inputKey); ("outputPrefix", VStr outputPrefix)]
        (s3_cleanup inputKey outputPrefix) ;;;
  ret outPath.

Definition translateModuleLocale (turns : nat) (mod_name enFile jobDir : string)
           (target : locale) : M string :=
  let targetFolder := folderCode target in
  let targetAws := awsCode target in
  payload <- buildPayload enFile ;;
  let flatSource := fst payload in
  let lines := snd payload in
  st <- get_state ;;
  let inputKey := _s3InputKey (random_uid W (events st)) mod_name targetFolder in
  inputUri <- _step "tr_s3_upload_start" "tr_s3_upload_end" "s3_put"
                    ("Uploading input JSONL to s3://" ++ bucket C ++ "/" ++ inputKey)
                    "Input uploaded"
                    [("bucket", VStr (bucket C)); ("key", VStr inputKey)]
                    (putJsonl W (bucket C) inputKey lines) ;;
  let outputUri := _s3OutputUri mod_name targetFolder in
  let outputPrefix := _s3OutputPrefix mod_name targetFolder in
  batch <- try_batch turns mod_name targetFolder targetAws inputUri outputUri lines ;;
  translatedFlat <-
    match batch with
    | Some flat => ret flat
    | None =>
        out <- _step "tr_sync_start" "tr_sync_end" "sync_translate"
                     "Translating per-string" "Per-string complete"
                     [("moduleName", VStr mod_name); ("targetFolder", VStr targetFolder)]
                     (sync_translate lines targetAws []) ;;
        ret (flat_of out)
    end ;;
  finish_pair mod_name targetFolder jobDir inputKey outputPrefix
              flatSource translatedFlat.

Definition pair_info (m : module_info) (target : locale) : object :=
  [("moduleName", VStr (moduleName m)); ("sourceFile", VStr (sourceFile m));
   ("targetFolder", VStr (folderCode target)); ("targetAws", VStr (awsCode target))].

(** One turn of the inner loop of [generateBulkTranslations]: the
    [try / catch / finally] around one module and one target locale. *)
Definition run_pair (turns : nat) (jobDir : string) (m : module_info)
           (target : locale) : M unit :=
  let info := pair_info m target in
  let label := (moduleName m ++ "/" ++ folderCode target)%string in
  _log "tr_runner_start" "module_locale_begin" ("Begin " ++ label) info false ;;;
  then_finally
    (try_catch
       (saved <- translateModuleLocale turns (moduleName m) (sourceFile m) jobDir target ;;
        _log "tr_runner_end" "module_locale_end" ("Completed " ++ label)
             (info ++ [("saved", VStr saved)]) false)
       (fun e => _log "tr_error" "module_locale_error" (err_message e) info true))
    (st <- get_state ;;
     set_counters (totalPairs st) (completedPairs st + 1) ;;;
     _progressTick [("moduleName", VStr (moduleName m));
                    ("targetFolder", VStr (folderCode target))]).

(** [for (const target of this.targets)] *)
Fixpoint run_targets (turns : nat) (jobDir : string) (m : module_info)
         (ts : list locale) : M unit :=
  match ts with
  | [] => ret tt
  | target :: rest =>
      run_pair turns jobDir m target ;;; run_targets turns jobDir m rest
  end.

(** [for (const mod of modules)] *)
Fixpoint run_modules (turns : nat) (jobDir : string) (ms : list module_info)
  : M unit :=
  match ms with
  | [] => ret tt
  | m :: rest =>
      run_targets turns jobDir m (targets C) ;;; run_modules turns jobDir rest
  end.

Definition generateBulkTranslations (turns : nat) : M string :=
  jobDir <- ensureJobDir ;;
  modules <- scanAllModules ;;
  set_counters (List.length modules * List.length (targets C)) 0 ;;;
  _progressTick [("stage", VStr "init")] ;;;
  _log "tr_runner_start" "announce"
       "Runner will process (module/en) -> all target locales"
       [("totalModules", VNum (Z.of_nat (List.length modules)));
        ("targets", strings_value (map folderCode (targets C)))] false ;;;
  run_modules turns jobDir modules ;;;
  st <- get_state ;;
  _log "tr_runner_end" "done" "All modules & locales processed"
       [("jobDir", VStr jobDir); ("total", VNum (Z.of_nat (totalPairs st)));
        ("completed", VNum (Z.of_nat (completedPairs st)))] false ;;;
  ret jobDir.

End Runner.

(* ================================================================= *)
(** ** Vocabulary of the statements, and sample worlds *)

(** The statuses on which the polling loop stops. *)
Definition is_terminal (status : string) : bool :=
  String.eqb status "COMPLETED" || String.eqb status "FAILED"
  || String.eqb status "STOPPED".

(** What the loop does on a terminal status. *)
Definition terminal_outcome (jobId : string) (d : job_details) : result job_details :=
  if String.eqb (JobStatus d) "COMPLETED" then Ok d
  else Throw (BatchTranslateFailed jobId (JobStatus d) (reason_of d)).

(** A world put together from the answers that matter in the examples;
    the built-ins are simple stand-ins. *)
Definition make_world
           (ensure : result unit)
           (bases : list string)
           (mods : string -> result (list module_info))
           (read : string -> result value)
           (upload : result unit)
           (status : string -> nat -> result job_details)
           (translate : string -> string -> result string)
           (write : string -> result unit)
           (delete : result unit) : env :=
  mkEnv (String.concat "/") (fun p => p) (fun _ => "uid")
        (fun c t => Z.of_nat ((200 * c + t) / (2 * t)))
        (fun _ => None) (fun _ => "[...]") (fun s => s)
        (fun _ _ => ensure)
        (fun _ file => read file)
        (fun _ file _ => write file)
        (fun _ _ => bases)
        (fun _ _ => Ok tt)
        (fun _ base => mods base)
        true true true true
        (fun _ _ _ _ => upload)
        (fun _ _ _ => Ok (Some []))
        (fun _ _ _ => Ok "")
        (fun _ _ _ => delete)
        (fun _ _ _ => Ok tt)
        (fun _ _ _ _ => Ok "job-1")
        status
        (fun _ text lang => translate text lang).

Definition start_state : state := mkState [] 0 0.

(** The requests of a trace, in order. *)
Fixpoint calls_of (t : trace) : list call :=
  match t with
  | [] => []
  | Called c _ :: rest => c :: calls_of rest
  | Logged _ :: rest => calls_of rest
  end.

(** The log entries of a trace, in order. *)
Fixpoint logs_of (t : trace) : list log_entry :=
  match t with
  | [] => []
  | Logged l :: rest => l :: logs_of rest
  | Called _ _ :: rest => logs_of rest
  end.

(** A job seen PENDING, then RUNNING, then COMPLETED. *)
Definition three_polls (jobId : string) (i : nat) : result job_details :=
  match i with
  | 0 => Ok (mkDetails "PENDING" None)
  | 1 => Ok (mkDetails "RUNNING" None)
  | _ => Ok (mkDetails "COMPLETED" None)
  end.

Definition polling_world : env :=
  make_world (Ok tt) [] (fun _ => Ok []) (fun _ => Ok VNull) (Ok tt)
             three_polls (fun text _ => Ok text) (fun _ => Ok tt) (Ok tt).

(** A computation that always comes to an end, and then satisfies [Q]
    between the state it starts in, its outcome and the state it ends in. *)
Definition always {A} (m : M A) (Q : state -> result A -> state -> Prop) : Prop :=
  forall st, exists r st', m st = Some (r, st') /\ Q st r st'.


(** A computation that leaves the counters alone, adds only events of the
    class [allowed] to the trace, and swallows no rejected request: the
    error of a rejected request is the error thrown. *)
Definition post_with (allowed : event -> bool) {A}
           (st : state) (r : result A) (st' : state) : Prop :=
  totalPairs st' = totalPairs st /\
  completedPairs st' = completedPairs st /\
  exists new,
    events st' = events st ++ new /\
    Forall (fun e => allowed e = true) new /\
    forall c e, In (Called c (Some e)) new -> r = Throw e.



(** The requests of the cleanup step. *)
Definition cleanup_call (c : call) : bool :=
  match c with
  | call_deleteFile _ _ | call_listFiles _ _ | call_deleteFiles _ _ => true
  | _ => false
  end.







(** The pairs of a run, in the order the two loops take them. *)
Definition pairs_of (ms : list module_info) (ts : list locale)
  : list (module_info * locale) :=
  flat_map (fun m => map (fun t => (m, t)) ts) ms.

(** *** Sample configuration and worlds *)

Definition english : locale := mkLocale "en" "en" "English".
Definition ph : locale := mkLocale "ph" "tl" "Filipino (Tagalog, Philippines)".
Definition vi : locale := mkLocale "vi" "vi" "Vietnamese".

(** The runner with the two target locales of [LOCALES], and a role for
    the batch path. *)
Definition sample_config : config :=
  mkConfig "jobs" "bucket" "in" "out" (Some "arn:aws:iam::1:role/T") false
           "2026-01-01_00-00-00" None english [ph; vi].

Definition auth_module : module_info :=
  mkModule "i18n" "auth" "i18n/auth" "i18n/auth/en.json".

Definition greeting : value := VObj [("msg", VStr "Hi {name}")].

(** Everything succeeds; a translation is the text itself. *)
Definition calm_world : env :=
  make_world (Ok tt) ["i18n"] (fun _ => Ok [auth_module]) (fun _ => Ok greeting)
             (Ok tt) three_polls (fun text _ => Ok text) (fun _ => Ok tt) (Ok tt).

(** The translation loses the placeholder. *)
Definition placeholder_dropping_world : env :=
  make_world (Ok tt) ["i18n"] (fun _ => Ok [auth_module]) (fun _ => Ok greeting)
             (Ok tt) three_polls (fun _ _ => Ok "Xin chao") (fun _ => Ok tt) (Ok tt).






(** The outcome of a run and its requests. *)
Definition outcome_and_calls {A} (run : option (result A * state))
  : option (result A * list call) :=
  match run with
  | Some (r, st) => Some (r, calls_of (events st))
  | None => None
  end.



(* ================================================================= *)
(** ** Vocabulary and helpers of the further properties *)

(** The key [flattenJson] gives to a path of property names walked from a
    node whose own key is [key0]: the names joined the way the walk joins
    them, an empty prefix being dropped. *)
Definition key_below (key0 : string) (path : list string) : string :=
  fold_left join_key path key0.

(** The key of a path walked from the root. *)
Definition path_key (path : list string) : string := key_below "" path.

(** The own keys of every object reached through objects are pairwise
    distinct, as they are in a JavaScript object. *)
Fixpoint distinct_keys (v : value) : bool :=
  match v with
  | VObj ps => distinct (keys ps) && forallb (fun kv => distinct_keys (snd kv)) ps
  | _ => true
  end.

(** A flat map: no value is a plain object. *)
Definition leaf_values (o : object) : bool :=
  forallb (fun kv => negb (is_plain_object (snd kv))) o.

(** The entries [Object.entries] lists for the elements of an array from
    index [i] on. *)
Fixpoint indexed (i : nat) (items : list value) : object :=
  match items with
  | [] => []
  | v :: rest => (index_key i, v) :: indexed (S i) rest
  end.

(** [key] is the key of a leaf [x] found below the node [v] of key [key0]. *)
Definition reaches (v : value) (key0 key : string) (x : value) : Prop :=
  exists path,
    key = key_below key0 path /\ lookup_path path v = Some x /\
    is_plain_object x = false.

(** One turn of the loop of [flattenJson] keeps the keys that are there. *)
Definition keeps_keys (v : value) : Prop :=
  forall key0 out k, hasOwn k out = true -> hasOwn k (flatten_entry v key0 out) = true.

(** The loop of [flattenJson] over the elements of an array from index [i]
    on, on its own. *)
Fixpoint flatten_items (i : nat) (vs : list value) (prefix : string) (out : object)
  : object :=
  match vs with
  | [] => out
  | v :: rest =>
      flatten_items (S i) rest prefix
                    (flatten_entry v (join_key prefix (index_key i)) out)
  end.

(** One turn of the loop of [flattenJson] keeps a flat map flat. *)
Definition keeps_flat (v : value) : Prop :=
  forall key0 out,
    NoDup (keys out) -> leaf_values out = true ->
    NoDup (keys (flatten_entry v key0 out)) /\
    leaf_values (flatten_entry v key0 out) = true.

(** A decimal digit. *)
Definition is_digit (c : ascii) : bool :=
  (48 <=? nat_of_ascii c)%nat && (nat_of_ascii c <=? 57)%nat.

Fixpoint all_digits (s : string) : bool :=
  match s with
  | EmptyString => true
  | String c rest => is_digit c && all_digits rest
  end.

(** [p] is an initial part of [q]. *)
Fixpoint is_prefix (p q : list string) : bool :=
  match p, q with
  | [], _ => true
  | x :: p', y :: q' => String.eqb x y && is_prefix p' q'
  | _ :: _, [] => false
  end.

(** Neither path is an initial part of the other. *)
Definition apart (p q : list string) : bool :=
  negb (is_prefix p q) && negb (is_prefix q p).

(** No path of the list is an initial part of another one. *)
Fixpoint prefix_free (paths : list (list string)) : bool :=
  match paths with
  | [] => true
  | p :: rest => forallb (apart p) rest && prefix_free rest
  end.

(** The inner loop of [unflattenJson] can walk [parts] from [t]: what is
    there on the way is an object, and nothing is there at the end. *)
Definition walkable (t : value) (parts : list string) : Prop :=
  forall q n,
    q <> [] -> is_prefix q parts = true -> lookup_path q t = Some n ->
    is_prefix parts q = false /\ is_plain_object n = true.

(** Neither [{] nor [}] in a string. *)
Fixpoint no_brace (s : string) : bool :=
  match s with
  | EmptyString => true
  | String c rest => negb (is_brace c) && no_brace rest
  end.

(** A name the pattern can capture: not empty, without braces. *)
Definition is_placeholder_name (name : string) : Prop :=
  name <> "" /\ no_brace name = true.

(** [{name}] occurs in [s]. *)
Definition occurs_braced (name s : string) : Prop :=
  exists pre post, s = (pre ++ "{" ++ name ++ "}" ++ post)%string.

(** No [/] in a string. *)
Fixpoint slash_free (s : string) : bool :=
  match s with
  | EmptyString => true
  | String c rest => negb (Ascii.eqb c "/") && slash_free rest
  end.

(** The key ends in [.out]. *)
Definition has_out_suffix (key : string) : Prop :=
  exists p, key = (p ++ ".out")%string.

(** The events of one turn of the polling loop that reads the status of
    [d]: the request, and the entry that logs the status. *)
Definition poll_events (jobId : string) (d : job_details) : list event :=
  [Called (call_describeTextTranslationJob jobId) None;
   Logged (mkLog "tr_batch_wait" "poll_status"
                 ("Batch job status: " ++ JobStatus d) false
                 [("jobId", VStr jobId)])].

(** A turn that goes on: the poll, then the timer. *)
Definition pending_events (jobId : string) (pollMs : nat) (d : job_details)
  : list event :=
  poll_events jobId d ++ [Called (call_setTimeout pollMs) None].

(** The last turn: a rejected request leaves no log entry. *)
Definition final_events (jobId : string) (last : result job_details)
  : list event :=
  match last with
  | Ok d => poll_events jobId d
  | _ => [Called (call_describeTextTranslationJob jobId) (rejection last)]
  end.

(** What the loop ends with on its last answer. *)
Definition final_outcome (jobId : string) (last : result job_details)
  : result job_details :=
  match last with
  | Ok d => terminal_outcome jobId d
  | Throw e => Throw e
  | Unsupported => Unsupported
  end.

Section GatewayCleanup.

Variable W : env.

(** [deleteInputObject(bucket, key)] : what [AwsS3.deleteFile] resolves
    to, or [null] when there is no such function. *)
Definition deleteInputObject (bucket key : string) : M (option unit) :=
  if s3_has_deleteFile W then
    r <- request (call_deleteFile bucket key)
                 (fun t => s3_deleteFile W t bucket key) ;;
    ret (Some r)
  else ret None.

(** [deleteOutputPrefix(bucket, prefix)] : list, then delete in bulk what
    was listed; the two functions are called without a test. *)
Definition deleteOutputPrefix (bucket prefix : string) : M unit :=
  files <- (if s3_has_listFiles W
            then request (call_listFiles bucket prefix)
                         (fun t => s3_listFiles W t bucket prefix)
            else throw (not_a_function "AwsS3.listFiles")) ;;
  match files with
  | Some (k :: ks) =>
      if s3_has_deleteFiles W
      then request (call_deleteFiles bucket (k :: ks))
                   (fun t => s3_deleteFiles W t bucket (k :: ks))
      else throw (not_a_function "AwsS3.deleteFiles")
  | _ => ret tt
  end.

End GatewayCleanup.

(** A computation that adds only events of the class [allowed]. *)
Definition only (allowed : event -> bool) {A}
           (st : state) (r : result A) (st' : state) : Prop :=
  exists new,
    events st' = events st ++ new /\ Forall (fun e => allowed e = true) new.

(** The requests the work on one pair can send: to read the source, to
    stage the input, to translate a string, to write the one output file
    of the pair, to clean up. *)
Definition pair_call (outPath : string) (c : call) : bool :=
  match c with
  | call_readJsonSafe _ | call_uploadFile _ _ _ | call_translateText _ _
  | call_deleteFile _ _ | call_listFiles _ _ | call_deleteFiles _ _ => true
  | call_writeJsonPretty file _ => String.eqb file outPath
  | _ => false
  end.

Definition pair_event (outPath : string) (e : event) : bool :=
  match e with
  | Logged _ => true
  | Called c _ => pair_call outPath c
  end.

(** The requests of the setup of a run. *)
Definition setup_call (c : call) : bool :=
  match c with
  | call_ensureDir _ | call_scanI18nBaseDirs _ | call_simulateI18n _
  | call_scanModulesWithEnglish _ => true
  | _ => false
  end.

(** The requests of the batch path: to start a job, to ask for its
    status, to wait, to read the result object. *)
Definition batch_call (c : call) : bool :=
  match c with
  | call_startTextTranslationJob _ _ _ | call_describeTextTranslationJob _
  | call_setTimeout _ | call_getFile _ _ => true
  | _ => false
  end.

(** The events of a run whose output files are [outputs]. *)
Definition run_event (outputs : list string) (e : event) : bool :=
  match e with
  | Logged _ => true
  | Called c _ => setup_call c || existsb (fun o => pair_call o c) outputs
  end.

(** The output files of the pairs of a run, in the order of the pairs. *)
Definition outputs_of (W : env) (jobDir : string) (modules : list module_info)
           (ts : list locale) : list string :=
  map (fun p => _localOut W jobDir (moduleName (fst p)) (folderCode (snd p)))
      (pairs_of modules ts).




(** The events before the end of the work on a pair: log entries, and the
    requests to read, to upload and to translate. *)
Definition prefix_event (e : event) : bool :=
  match e with
  | Logged _ => true
  | Called (call_readJsonSafe _) _ | Called (call_uploadFile _ _ _) _
  | Called (call_translateText _ _) _ => true
  | Called _ _ => false
  end.

(** The events of the cleanup step. *)
Definition cleanup_event (e : event) : bool :=
  match e with
  | Logged _ => true
  | Called c _ => cleanup_call c
  end.


(* ================================================================= *)
(** ** The file-system helpers *)

(** The requests of the helpers to [fs.promises]: [access(p)],
    [mkdir(p, { recursive: true })], [readFile(file, "utf8")],
    [writeFile(file, content, "utf8")] and
    [readdir(dir, { withFileTypes: true })]. *)
Inductive fs_call : Type :=
| fs_access (p : string)
| fs_mkdir (p : string)
| fs_readFile (file : string)
| fs_writeFile (file content : string)
| fs_readdir (dir : string).

(** A request, with the error it was rejected with, if it was. *)
Record fs_event : Type := mkFsEvent {
  fs_what : fs_call;
  fs_rejected : option error
}.

(** A [Dirent] of a directory listing. *)
Record dirent : Type := mkDirent {
  ent_name : string;
  ent_isDirectory : bool
}.

(** How a promise settles. *)
Inductive settled (A : Type) : Type :=
| Resolved (a : A)
| Rejected (e : error).
Arguments Resolved {A} a.
Arguments Rejected {A} e.

(** The platform under the helpers.  Every answer of the file system may
    depend on the requests sent before; [n_parse] is [JSON.parse], with
    no value where it throws, and [n_stringify] is
    [JSON.stringify(data, null, 2)]. *)
Record node : Type := mkNode {
  n_join : list string -> string;
  n_dirname : string -> string;
  n_cwd : string;
  n_parse : string -> option value;
  n_stringify : value -> string;
  n_access : list fs_event -> string -> settled unit;
  n_mkdir : list fs_event -> string -> settled unit;
  n_readFile : list fs_event -> string -> settled string;
  n_writeFile : list fs_event -> string -> string -> settled unit;
  n_readdir : list fs_event -> string -> settled (list dirent)
}.

(** An [async] helper: from the requests sent so far to how it settles
    and the requests sent by then. *)
Definition F (A : Type) : Type := list fs_event -> settled A * list fs_event.

Definition fret {A} (a : A) : F A := fun t => (Resolved a, t).

Definition fbind {A B} (m : F A) (f : A -> F B) : F B :=
  fun t =>
    match m t with
    | (Resolved a, t') => f a t'
    | (Rejected e, t') => (Rejected e, t')
    end.

Definition rejected_with {A} (r : settled A) : option error :=
  match r with
  | Rejected e => Some e
  | Resolved _ => None
  end.

Definition fs_request {A} (c : fs_call) (answer : list fs_event -> settled A) : F A :=
  fun t => let r := answer t in (r, t ++ [mkFsEvent c (rejected_with r)]).

Section FsHelpers.

Variable N : node.

(** [pathExists(p)] : [try { await fsp.access(p); return true; }
    catch { return false; }] *)
Definition pathExists (p : string) : F bool :=
  fun t =>
    match fs_request (fs_access p) (fun t => n_access N t p) t with
    | (Resolved _, t') => (Resolved true, t')
    | (Rejected _, t') => (Resolved false, t')
    end.

(** [ensureDir(p)] *)
Definition ensureDir (p : string) : F unit :=
  fbind (pathExists p)
        (fun there =>
           if there then fret tt
           else fs_request (fs_mkdir p) (fun t => n_mkdir N t p)).

(** [readJsonSafe(file)] : [null] for a file that is not there and for a
    text that does not parse. *)
Definition readJsonSafe (file : string) : F value :=
  fbind (pathExists file)
        (fun there =>
           if negb there then fret VNull
           else
             fbind (fs_request (fs_readFile file) (fun t => n_readFile N t file))
                   (fun raw =>
                      fret (match n_parse N raw with
                            | Some v => v
                            | None => VNull
                            end))).

(** [writeJsonPretty(file, data)] *)
Definition writeJsonPretty (file : string) (data : value) : F unit :=
  fbind (ensureDir (n_dirname N file))
        (fun _ =>
           let content := n_stringify N data in
           fs_request (fs_writeFile file content)
                      (fun t => n_writeFile N t file content)).

(** The candidates of [scanI18nBaseDirs]: the explicit directory when it
    is given and not empty, then [i18n] and [18n] under the working
    directory. *)
Definition base_candidates (explicitBaseDir : option string) : list string :=
  (match explicitBaseDir with
   | Some d => if String.eqb d "" then [] else [d]
   | None => []
   end)
  ++ [n_join N [n_cwd N; "i18n"]; n_join N [n_cwd N; "18n"]].

(** [for (const d of candidates) (await pathExists(d)) ? existing.push(d) : null] *)
Fixpoint probe_dirs (ds : list string) (existing : list string) : F (list string) :=
  match ds with
  | [] => fret existing
  | d :: rest =>
      fbind (pathExists d)
            (fun there => probe_dirs rest (if there then existing ++ [d] else existing))
  end.

(** [[...new Set(existing)]] *)
Definition unique (l : list string) : list string :=
  fold_left (fun set d => set_add d set) l [].

Definition scanI18nBaseDirs (explicitBaseDir : option string) : F (list string) :=
  fbind (probe_dirs (base_candidates explicitBaseDir) [])
        (fun existing => fret (unique existing)).

(** The paths [scanModulesWithEnglish] makes for a directory entry. *)
Definition module_of (baseDir : string) (ent : dirent) : module_info :=
  let moduleDir := n_join N [baseDir; ent_name ent] in
  mkModule baseDir (ent_name ent) moduleDir (n_join N [moduleDir; "en.json"]).

(** The loop over the entries of the listing. *)
Fixpoint scan_entries (baseDir : string) (ents : list dirent)
         (results : list module_info) : F (list module_info) :=
  match ents with
  | [] => fret results
  | ent :: rest =>
      if negb (ent_isDirectory ent) then scan_entries baseDir rest results
      else
        fbind (pathExists (sourceFile (module_of baseDir ent)))
              (fun there =>
                 scan_entries baseDir rest
                              (if there then results ++ [module_of baseDir ent]
                               else results))
  end.

Definition scanModulesWithEnglish (baseDir : string) : F (list module_info) :=
  fbind (fs_request (fs_readdir baseDir) (fun t => n_readdir N t baseDir))
        (fun entries => scan_entries baseDir entries []).

End FsHelpers.

(** The paths whose [access] was accepted, among the events, in order. *)
Fixpoint accessible (evs : list fs_event) : list string :=
  match evs with
  | [] => []
  | mkFsEvent (fs_access p) None :: rest => p :: accessible rest
  | _ :: rest => accessible rest
  end.

(** The requests of a list of events. *)
Definition fs_calls (evs : list fs_event) : list fs_call := map fs_what evs.

(** *** The name of the job folder *)

(** What [_ts] reads of a [Date]: the results of its getters, in local
    time.  They are integers for every date that is valid, as
    [new Date()] is. *)
Record date : Type := mkDate {
  getFullYear : Z;
  getMonth : Z;
  getDate : Z;
  getHours : Z;
  getMinutes : Z;
  getSeconds : Z
}.

(** The first [k] characters of [fill] repeated, [cur] being what is left
    of the copy at hand. *)
Fixpoint fill_chars (k : nat) (fill cur : string) : string :=
  match k with
  | 0 => ""
  | S k' =>
      match cur with
      | String c rest => String c (fill_chars k' fill rest)
      | "" =>
          match fill with
          | String c rest => String c (fill_chars k' fill rest)
          | "" => ""
          end
      end
  end.

(** [s.padStart(targetLength, fill)] *)
Definition padStart (targetLength : nat) (fill s : string) : string :=
  if (targetLength <=? String.length s)%nat || String.eqb fill ""
  then s
  else (fill_chars (targetLength - String.length s) fill fill ++ s)%string.

(** [const pad = (n) => String(n).padStart(2, "0")] *)
Definition pad (n : Z) : string := padStart 2 "0" (int_str n).

(** [_ts(d)] *)
Definition _ts (d : date) : string :=
  (int_str (getFullYear d) ++ "-" ++ pad (getMonth d + 1) ++ "-" ++ pad (getDate d)
   ++ "_" ++ pad (getHours d) ++ "-" ++ pad (getMinutes d) ++ "-"
   ++ pad (getSeconds d))%string.

(** The ranges of the getters, for a year of four digits. *)
Definition four_digit_year (d : date) : bool :=
  ((1000 <=? getFullYear d) && (getFullYear d <=? 9999)
   && (0 <=? getMonth d) && (getMonth d <=? 11)
   && (1 <=? getDate d) && (getDate d <=? 31)
   && (0 <=? getHours d) && (getHours d <=? 23)
   && (0 <=? getMinutes d) && (getMinutes d <=? 59)
   && (0 <=? getSeconds d) && (getSeconds d <=? 59))%Z.

(** Year, month, day, hours, minutes and seconds, in this order. *)
Definition date_fields (d : date) : list Z :=
  [getFullYear d; getMonth d; getDate d; getHours d; getMinutes d; getSeconds d].

(** The order of dates: by the first field that differs. *)
Fixpoint fields_compare (a b : list Z) : comparison :=
  match a, b with
  | [], [] => Eq
  | [], _ :: _ => Lt
  | _ :: _, [] => Gt
  | x :: a', y :: b' =>
      match (x ?= y)%Z with
      | Eq => fields_compare a' b'
      | c => c
      end
  end.

(** The integers from [lo] to [hi]. *)
Definition z_range (lo hi : Z) : list Z :=
  map (fun i => (lo + Z.of_nat i)%Z) (seq 0 (Z.to_nat (hi + 1 - lo))).

Definition comparison_eqb (a b : comparison) : bool :=
  match a, b with
  | Eq, Eq | Lt, Lt | Gt, Gt => true
  | _, _ => false
  end.

(** *** The order of the requests of a pair *)

(** A log entry, or a request that was not rejected. *)
Definition accepted (e : event) : bool :=
  match e with
  | Called _ (Some _) => false
  | _ => true
  end.

(** New events and an outcome in which nothing follows a rejected
    request: no request was rejected, or the last event is the one
    rejected request, and its error is the error thrown. *)
Definition ends_at_rejection {A} (new : trace) (r : result A) : Prop :=
  forallb accepted new = true \/
  exists l c e,
    new = l ++ [Called c (Some e)] /\ forallb accepted l = true /\ r = Throw e.

(** A computation that always ends, and goes on only while its requests
    are accepted. *)
Definition stops_at_rejection {A} (m : M A) : Prop :=
  forall st, exists r st' new,
    m st = Some (r, st') /\ events st' = events st ++ new /\
    ends_at_rejection new r.

(** New events in which the bucket is cleaned only once the file
    [outPath] is written: no request of the cleanup step at all, or an
    accepted request to write [outPath], with the events of the work
    before it and those of the cleanup step after it. *)
Definition cleaned_after_write (outPath : string) (new : trace) : Prop :=
  (forall c rej, In (Called c rej) new -> cleanup_call c = false) \/
  exists l1 data l2,
    new = l1 ++ Called (call_writeJsonPretty outPath data) None :: l2 /\
    Forall (fun e => prefix_event e = true) l1 /\
    Forall (fun e => cleanup_event e = true) l2.

(** A computation that always ends, and whose new events satisfy [S]. *)
Definition leaves (S : trace -> Prop) {A} (m : M A) : Prop :=
  forall st, exists r st' new,
    m st = Some (r, st') /\ events st' = events st ++ new /\ S new.


(* ================================================================= *)
(** * Properties of the format transformer *)


(** *** Own properties *)

Lemma hasOwn_In k o : hasOwn k o = true <-> In k (keys o).
Proof.
  induction o as [|[k' v'] o IH]; simpl.
  - split; [discriminate | tauto].
  - destruct (String.eqb_spec k k') as [->|Hne].
    + split; auto.
    + rewrite IH. split; [auto | intros [H|H]; [congruence | exact H]].
Qed.

Lemma hasOwn_false k o : hasOwn k o = false <-> ~ In k (keys o).
Proof.
  rewrite <- hasOwn_In. destruct (hasOwn k o); split; congruence.
Qed.

Lemma obj_set_new k v o : hasOwn k o = false -> obj_set k v o = o ++ [(k, v)].
Proof.
  induction o as [|[k' v'] o IH]; simpl; intros H; [reflexivity|].
  destruct (String.eqb k k'); [discriminate|]. now rewrite IH.
Qed.

Lemma obj_set_last k v c o :
  hasOwn k o = false -> obj_set k v (o ++ [(k, c)]) = o ++ [(k, v)].
Proof.
  induction o as [|[k' v'] o IH]; simpl; intros H.
  - now rewrite String.eqb_refl.
  - destruct (String.eqb k k'); [discriminate|]. now rewrite IH.
Qed.

Lemma obj_get_last k c o :
  hasOwn k o = false -> obj_get k (o ++ [(k, c)]) = Some c.
Proof.
  induction o as [|[k' v'] o IH]; simpl; intros H.
  - now rewrite String.eqb_refl.
  - destruct (String.eqb k k'); [discriminate|]. now rewrite IH.
Qed.

Lemma hasOwn_last k c o : hasOwn k (o ++ [(k, c)]) = true.
Proof.
  apply hasOwn_In. unfold keys. rewrite map_app, in_app_iff. right. now left.
Qed.

Lemma distinct_NoDup ks : distinct ks = true <-> NoDup ks.
Proof.
  induction ks as [|k ks IH]; simpl.
  - split; [constructor | reflexivity].
  - rewrite andb_true_iff, negb_true_iff, IH. split.
    + intros [Hn Hd]. constructor; [|exact Hd].
      intros Hin. assert (existsb (String.eqb k) ks = true) as E.
      { apply existsb_exists. exists k. split; [exact Hin | apply String.eqb_refl]. }
      congruence.
    + intros Hnd. inversion Hnd as [|? ? Hn Hd]; subst. split; [|exact Hd].
      destruct (existsb (String.eqb k) ks) eqn:E; [|reflexivity].
      apply existsb_exists in E as [k' [Hin Heq]].
      apply String.eqb_eq in Heq. subst. contradiction.
Qed.

(** *** Dotted keys *)

Lemma split_dot_nonempty s : split_dot s <> [].
Proof.
  destruct s as [|c s]; simpl; [discriminate|].
  destruct (Ascii.eqb c "."); [discriminate|].
  destruct (split_dot s); discriminate.
Qed.

Lemma split_dot_plain k : dotfree k = true -> split_dot k = [k].
Proof.
  induction k as [|c k IH]; simpl; [reflexivity|].
  rewrite andb_true_iff, negb_true_iff. intros [Hc Hk].
  rewrite Hc, (IH Hk). reflexivity.
Qed.

Lemma split_dot_under k s :
  dotfree k = true -> split_dot (k ++ "." ++ s) = k :: split_dot s.
Proof.
  induction k as [|c k IH]; simpl; [reflexivity|].
  rewrite andb_true_iff, negb_true_iff. intros [Hc Hk].
  rewrite Hc. simpl in IH. rewrite (IH Hk). reflexivity.
Qed.

Lemma plain_key_dotfree k : plain_key k = true -> dotfree k = true.
Proof. unfold plain_key. rewrite andb_true_iff. tauto. Qed.

Lemma plain_key_ordinary k : plain_key k = true -> ordinary_key k = true.
Proof. unfold plain_key. rewrite andb_true_iff. tauto. Qed.

Lemma append_inj_l (p a b : string) : (p ++ a = p ++ b)%string -> a = b.
Proof. induction p as [|c p IH]; simpl; intros H; [exact H|]. injection H. exact IH. Qed.

Lemma append_assoc (a b c : string) : ((a ++ b) ++ c = a ++ (b ++ c))%string.
Proof. induction a as [|x a IH]; simpl; [reflexivity|]. now rewrite IH. Qed.

Lemma join_key_nonempty p k : p <> "" -> join_key p k = (p ++ "." ++ k)%string.
Proof. destruct p; [congruence | reflexivity]. Qed.

Lemma under_key_nonempty p k : (p ++ "." ++ k)%string <> "".
Proof. destruct p; discriminate. Qed.

Lemma under_under p k e : under (p ++ "." ++ k) e = under p (under k e).
Proof. unfold under. simpl. f_equal. now rewrite append_assoc. Qed.

(** *** The flat keys of a tree are pairwise distinct *)

Lemma rel_leaves_obj ps : rel_leaves (VObj ps) = flat_map entry_leaves ps.
Proof. reflexivity. Qed.

Lemma rel_leaves_leaf v : is_plain_object v = false -> rel_leaves v = [].
Proof. destruct v; simpl; intros H; try reflexivity; discriminate. Qed.

Lemma entry_leaves_leaf k v :
  is_plain_object v = false -> entry_leaves (k, v) = [(k, v)].
Proof. destruct v; simpl; intros H; try reflexivity; discriminate. Qed.

Lemma entry_leaves_obj k ps :
  entry_leaves (k, VObj ps) = map (under k) (rel_leaves (VObj ps)).
Proof. reflexivity. Qed.

Lemma inner_obj_inv ps :
  inner_node (VObj ps) = true ->
  ps <> [] /\ NoDup (keys ps) /\
  Forall (fun kv => plain_key (fst kv) = true /\ inner_node (snd kv) = true) ps.
Proof.
  change (inner_node (VObj ps))
    with (match ps with [] => false | _ => true end && distinct (keys ps)
          && forallb (fun kv => plain_key (fst kv) && inner_node (snd kv)) ps).
  rewrite !andb_true_iff, distinct_NoDup, forallb_forall, Forall_forall.
  intros [[H1 H2] H3]. split; [|split].
  - destruct ps; [discriminate | discriminate].
  - exact H2.
  - intros kv Hin. specialize (H3 kv Hin).
    apply andb_true_iff in H3. exact H3.
Qed.

Lemma NoDup_map_inj {A B} (f : A -> B) l :
  (forall x y, f x = f y -> x = y) -> NoDup l -> NoDup (map f l).
Proof.
  intros Hinj Hnd. induction Hnd as [|x l Hx Hnd IH]; simpl; constructor; auto.
  intros Hin. apply in_map_iff in Hin as [y [Hy Hin]].
  apply Hinj in Hy. subst. contradiction.
Qed.

Lemma keys_under k l :
  keys (map (under k) l) = map (fun s => (k ++ "." ++ s)%string) (keys l).
Proof. unfold keys. rewrite !map_map. reflexivity. Qed.

Lemma first_part_entry kv e :
  plain_key (fst kv) = true -> In e (entry_leaves kv) -> first_part (fst e) = fst kv.
Proof.
  destruct kv as [k v]. simpl. intros Hk Hin.
  apply plain_key_dotfree in Hk. unfold first_part.
  destruct (is_plain_object v) eqn:Ev.
  - destruct v; try discriminate. rewrite entry_leaves_obj in Hin.
    apply in_map_iff in Hin as [e' [<- _]].
    unfold under; cbn [fst]. now rewrite (split_dot_under _ _ Hk).
  - rewrite (entry_leaves_leaf _ _ Ev) in Hin. destruct Hin as [<-|[]].
    simpl. now rewrite (split_dot_plain _ Hk).
Qed.

Lemma first_part_leaves ps key :
  Forall (fun kv => plain_key (fst kv) = true) ps ->
  In key (keys (flat_map entry_leaves ps)) -> In (first_part key) (keys ps).
Proof.
  intros Hps Hin. unfold keys in Hin. apply in_map_iff in Hin as [e [<- Hin]].
  apply in_flat_map in Hin as [kv [Hkv He]].
  rewrite Forall_forall in Hps.
  rewrite (first_part_entry kv e (Hps _ Hkv) He).
  unfold keys. now apply in_map.
Qed.

Lemma leaves_NoDup_props ps :
  NoDup (keys ps) ->
  Forall (fun kv => plain_key (fst kv) = true /\
                    NoDup (keys (rel_leaves (snd kv)))) ps ->
  NoDup (keys (flat_map entry_leaves ps)).
Proof.
  induction ps as [|[k v] ps IH]; simpl; intros Hnd Hall; [constructor|].
  inversion Hnd as [|? ? Hk Hnd']; subst.
  inversion Hall as [|? ? [Hpk Hv] Hall']; subst. simpl in Hpk, Hv.
  unfold keys. rewrite map_app. apply NoDup_app.
  - destruct (is_plain_object v) eqn:Ev.
    + destruct v; try discriminate. rewrite entry_leaves_obj.
      fold (keys (map (under k) (rel_leaves (VObj props)))).
      rewrite keys_under. apply NoDup_map_inj; [|exact Hv].
      intros x y E. apply append_inj_l in E. now apply (append_inj_l ".") in E.
    + rewrite (entry_leaves_leaf _ _ Ev). simpl. constructor; [tauto | constructor].
  - apply IH; assumption.
  - intros key H1 H2.
    apply in_map_iff in H1 as [e [<- He]].
    pose proof (first_part_entry (k, v) e Hpk He) as F. simpl in F.
    apply Hk. rewrite <- F. apply first_part_leaves.
    + eapply Forall_impl; [|exact Hall']. simpl. tauto.
    + exact H2.
Qed.

Lemma leaves_NoDup v : inner_node v = true -> NoDup (keys (rel_leaves v)).
Proof.
  induction v as [v Hleaf | ps IH] using value_tree_ind; intros Hwf.
  - rewrite (rel_leaves_leaf _ Hleaf). constructor.
  - apply inner_obj_inv in Hwf as (_ & Hnd & Hall).
    rewrite rel_leaves_obj. apply leaves_NoDup_props; [exact Hnd|].
    rewrite Forall_forall in *. intros kv Hin. split.
    + apply (Hall kv Hin).
    + apply (IH kv Hin). apply (Hall kv Hin).
Qed.

(** *** flattenJson lists the leaves in walk order *)

Lemma flattenJson_obj ps prefix out :
  flattenJson (VObj ps) prefix out = flatten_props ps prefix out.
Proof.
  revert out. induction ps as [|[k v] ps IH]; intros out; [reflexivity|].
  simpl. simpl in IH. rewrite IH. reflexivity.
Qed.

Lemma flatten_props_step k v ps prefix out :
  flatten_props ((k, v) :: ps) prefix out =
  flatten_props ps prefix (flatten_entry v (join_key prefix k) out).
Proof. reflexivity. Qed.

Lemma rekey_nonempty p e : p <> "" -> rekey p e = under p e.
Proof. intros H. unfold rekey, under. now rewrite (join_key_nonempty p _ H). Qed.

Lemma rekey_under prefix k e :
  under (join_key prefix k) e = rekey prefix (under k e).
Proof.
  unfold rekey, under. cbn [fst snd]. f_equal.
  destruct prefix as [|c p]; [reflexivity|].
  unfold join_key. now rewrite !append_assoc.
Qed.

Lemma abs_leaves_rekey prefix k v :
  abs_leaves (join_key prefix k) v = map (rekey prefix) (entry_leaves (k, v)).
Proof.
  destruct v; try reflexivity.
  rewrite entry_leaves_obj. unfold abs_leaves. rewrite map_map.
  apply map_ext. intros e. apply rekey_under.
Qed.

Lemma NoDup_keys_app_l (a b c : object) :
  NoDup (keys a ++ keys (b ++ c)) -> NoDup (keys a ++ keys b).
Proof.
  unfold keys. rewrite map_app, app_assoc. apply NoDup_app_remove_r.
Qed.

Lemma NoDup_keys_app_r (a b c : object) :
  NoDup (keys a ++ keys (b ++ c)) -> NoDup (keys (a ++ b) ++ keys c).
Proof. unfold keys. now rewrite !map_app, app_assoc. Qed.

Lemma flatten_props_spec ps prefix :
  Forall (fun kv => adds_leaves (snd kv) /\
                    (is_plain_object (snd kv) = true ->
                     join_key prefix (fst kv) <> "")) ps ->
  forall out,
    NoDup (keys out ++ keys (map (rekey prefix) (flat_map entry_leaves ps))) ->
    flatten_props ps prefix out =
    out ++ map (rekey prefix) (flat_map entry_leaves ps).
Proof.
  induction 1 as [|[k v] ps [Hv Hne] Hps IH]; intros out Hnd.
  - simpl. now rewrite app_nil_r.
  - cbn [fst snd] in Hv, Hne. rewrite flatten_props_step.
    cbn [flat_map] in *. rewrite map_app in *.
    rewrite <- abs_leaves_rekey in *.
    rewrite (Hv _ out Hne (NoDup_keys_app_l _ _ _ Hnd)).
    rewrite IH; [now rewrite app_assoc|].
    now apply NoDup_keys_app_r.
Qed.

Lemma flatten_entry_leaf v key out :
  is_plain_object v = false ->
  hasOwn key out = false -> flatten_entry v key out = out ++ [(key, v)].
Proof.
  intros Hv Hk. destruct v; try discriminate; simpl; now apply obj_set_new.
Qed.

Lemma inner_adds_leaves v : inner_node v = true -> adds_leaves v.
Proof.
  induction v as [v Hleaf | ps IH] using value_tree_ind; intros Hwf key out Hne Hnd.
  - assert (abs_leaves key v = [(key, v)]) as E by (destruct v; try reflexivity; discriminate).
    rewrite E in *. apply flatten_entry_leaf; [exact Hleaf|].
    apply hasOwn_false. intros Hin.
    apply NoDup_remove_2 in Hnd. apply Hnd. rewrite app_nil_r. exact Hin.
  - specialize (Hne eq_refl).
    apply inner_obj_inv in Hwf as (_ & _ & Hall).
    unfold flatten_entry, abs_leaves. rewrite flattenJson_obj, rel_leaves_obj.
    rewrite (map_ext _ _ (fun e => eq_sym (rekey_nonempty key e Hne))).
    apply flatten_props_spec.
    + rewrite Forall_forall in *. intros kv Hin. split.
      * apply (IH kv Hin). apply (Hall kv Hin).
      * intros _. rewrite (join_key_nonempty _ _ Hne). apply under_key_nonempty.
    + unfold abs_leaves in Hnd. rewrite rel_leaves_obj in Hnd.
      now rewrite (map_ext _ _ (fun e => eq_sym (rekey_nonempty key e Hne))) in Hnd.
Qed.

Lemma round_trip_tree_inv ps :
  round_trip_tree (VObj ps) = true ->
  NoDup (keys ps) /\
  Forall (fun kv => plain_key (fst kv) = true /\ inner_node (snd kv) = true /\
                    (is_plain_object (snd kv) = true -> fst kv <> "")) ps.
Proof.
  unfold round_trip_tree.
  rewrite andb_true_iff, distinct_NoDup, forallb_forall, Forall_forall.
  intros [Hnd Hall]. split; [exact Hnd|].
  intros kv Hin. specialize (Hall kv Hin).
  rewrite !andb_true_iff, orb_true_iff, !negb_true_iff in Hall.
  destruct Hall as [[Hk Hv] Hroot]. split; [exact Hk | split; [exact Hv|]].
  intros Hobj E. destruct Hroot as [H|H]; [congruence|].
  rewrite E in H. discriminate.
Qed.

Lemma rekey_empty e : rekey "" e = e.
Proof. now destruct e. Qed.

Lemma root_leaves_NoDup ps :
  round_trip_tree (VObj ps) = true -> NoDup (keys (rel_leaves (VObj ps))).
Proof.
  intros Hwf. apply round_trip_tree_inv in Hwf as [Hnd Hall].
  rewrite rel_leaves_obj. apply leaves_NoDup_props; [exact Hnd|].
  rewrite Forall_forall in *. intros kv Hin.
  destruct (Hall kv Hin) as (Hk & Hv & _). split; [exact Hk|].
  now apply leaves_NoDup.
Qed.

(** On a tree of the class, [flattenJson] returns the leaves in walk order
    under their dotted paths. *)
Lemma flatten_leaves ps :
  round_trip_tree (VObj ps) = true -> flatten (VObj ps) = rel_leaves (VObj ps).
Proof.
  intros Hwf. pose proof (root_leaves_NoDup ps Hwf) as Hnd.
  apply round_trip_tree_inv in Hwf as [_ Hall].
  unfold flatten. rewrite flattenJson_obj, rel_leaves_obj in *.
  rewrite flatten_props_spec.
  - simpl. rewrite (map_ext _ _ rekey_empty). apply map_id.
  - rewrite Forall_forall in *. intros kv Hin.
    destruct (Hall kv Hin) as (Hk & Hv & Hroot). split.
    + now apply inner_adds_leaves.
    + exact Hroot.
  - simpl. rewrite (map_ext _ _ rekey_empty), map_id. exact Hnd.
Qed.

(** *** unflattenJson rebuilds the tree from its leaves *)

Lemma unflatten_from_app root l1 l2 :
  unflatten_from root (l1 ++ l2) =
  bind (unflatten_from root l1) (fun r => unflatten_from r l2).
Proof.
  revert root. induction l1 as [|[k v] l1 IH]; intros root; simpl; [reflexivity|].
  destruct (set_path root (split_dot k) v); simpl; auto.
Qed.

Lemma set_path_leaf acc k v :
  hasOwn k acc = false -> set_path (VObj acc) [k] v = Ok (VObj (acc ++ [(k, v)])).
Proof. intros H. simpl. rewrite H. simpl. now rewrite obj_set_new. Qed.

Lemma set_path_inner props part rest v :
  rest <> [] ->
  set_path (VObj props) (part :: rest) v =
  let props1 := if hasOwn part props then props
                else obj_set part (VObj []) props in
  match obj_get part props1 with
  | Some child =>
      bind (set_path child rest v)
           (fun child' => Ok (VObj (obj_set part child' props1)))
  | None => TypeError
  end.
Proof.
  intros Hr. destruct rest as [|p rest]; [congruence|].
  cbn [set_path]. destruct (hasOwn part props); reflexivity.
Qed.

Lemma set_path_descend acc k c parts v :
  parts <> [] -> hasOwn k acc = false ->
  set_path (VObj (acc ++ [(k, c)])) (k :: parts) v =
  bind (set_path c parts v) (fun c' => Ok (VObj (acc ++ [(k, c')]))).
Proof.
  intros Hp Hk. rewrite (set_path_inner _ _ _ _ Hp).
  rewrite hasOwn_last. cbv zeta. rewrite (obj_get_last _ _ _ Hk).
  destruct (set_path c parts v); cbn [bind]; try reflexivity.
  now rewrite (obj_set_last _ _ _ _ Hk).
Qed.

Lemma set_path_create acc k parts v :
  parts <> [] -> hasOwn k acc = false ->
  set_path (VObj acc) (k :: parts) v =
  set_path (VObj (acc ++ [(k, VObj [])])) (k :: parts) v.
Proof.
  intros Hp Hk. rewrite !(set_path_inner _ _ _ _ Hp).
  rewrite Hk, hasOwn_last. now rewrite (obj_set_new _ _ _ Hk).
Qed.

Lemma unflatten_child acc k :
  dotfree k = true -> hasOwn k acc = false ->
  forall E c,
    unflatten_from (VObj (acc ++ [(k, c)])) (map (under k) E) =
    bind (unflatten_from c E) (fun c' => Ok (VObj (acc ++ [(k, c')]))).
Proof.
  intros Hd Hk. induction E as [|[s v] E IH]; intros c; [reflexivity|].
  cbn [map unflatten_from under fst snd].
  rewrite (split_dot_under _ _ Hd).
  rewrite (set_path_descend _ _ _ _ _ (split_dot_nonempty s) Hk).
  destruct (set_path c (split_dot s) v); simpl; try reflexivity.
  apply IH.
Qed.

Lemma unflatten_new_child acc k E :
  dotfree k = true -> hasOwn k acc = false -> E <> [] ->
  unflatten_from (VObj acc) (map (under k) E) =
  bind (unflatten_from (VObj []) E) (fun c' => Ok (VObj (acc ++ [(k, c')]))).
Proof.
  intros Hd Hk HE. rewrite <- (unflatten_child _ _ Hd Hk).
  destruct E as [|[s v] E]; [congruence|].
  cbn [map unflatten_from under fst snd].
  rewrite (split_dot_under _ _ Hd).
  now rewrite (set_path_create _ _ _ _ (split_dot_nonempty s) Hk).
Qed.

Lemma unflatten_props ps :
  NoDup (keys ps) ->
  Forall (fun kv => plain_key (fst kv) = true /\ rebuilds (snd kv)) ps ->
  forall acc,
    (forall k, In k (keys ps) -> hasOwn k acc = false) ->
    unflatten_from (VObj acc) (flat_map entry_leaves ps) = Ok (VObj (acc ++ ps)).
Proof.
  induction ps as [|[k v] ps IH]; intros Hnd Hall acc Hfresh.
  - simpl. now rewrite app_nil_r.
  - inversion Hnd as [|? ? Hk Hnd']; subst.
    inversion Hall as [|? ? [Hpk Hv] Hall']; subst. cbn [fst snd] in Hpk, Hv.
    assert (hasOwn k acc = false) as Hka by (apply Hfresh; now left).
    assert (forall k', In k' (keys ps) -> hasOwn k' (acc ++ [(k, v)]) = false) as Hfresh'.
    { intros k' Hin. apply hasOwn_false. unfold keys. rewrite map_app, in_app_iff.
      intros [H|[H|[]]].
      - apply (proj1 (hasOwn_false k' acc)); [apply Hfresh; now right | exact H].
      - simpl in H. subst. contradiction. }
    cbn [flat_map]. rewrite unflatten_from_app.
    replace (acc ++ (k, v) :: ps) with ((acc ++ [(k, v)]) ++ ps)
      by now rewrite <- app_assoc.
    destruct (is_plain_object v) eqn:Ev.
    + destruct (Hv Ev) as [Hne Hsub].
      destruct v; try discriminate. rewrite entry_leaves_obj.
      rewrite (unflatten_new_child _ _ _ (plain_key_dotfree _ Hpk) Hka Hne).
      rewrite Hsub. simpl. now apply IH.
    + rewrite (entry_leaves_leaf _ _ Ev). cbn [unflatten_from].
      rewrite (split_dot_plain _ (plain_key_dotfree _ Hpk)).
      rewrite (set_path_leaf _ _ _ Hka). simpl. now apply IH.
Qed.

Lemma inner_rebuilds v : inner_node v = true -> rebuilds v.
Proof.
  induction v as [v Hleaf | ps IH] using value_tree_ind; intros Hwf Hobj.
  - congruence.
  - apply inner_obj_inv in Hwf as (Hne & Hnd & Hall).
    assert (Forall (fun kv => plain_key (fst kv) = true /\ rebuilds (snd kv)) ps) as Hps.
    { rewrite Forall_forall in *. intros kv Hin. split.
      - apply (Hall kv Hin).
      - apply (IH kv Hin). apply (Hall kv Hin). }
    split.
    + rewrite rel_leaves_obj. destruct ps as [|[k v] ps]; [congruence|].
      cbn [flat_map]. inversion Hps as [|? ? [_ Hv] _]; subst. cbn [snd] in Hv.
      destruct (is_plain_object v) eqn:Ev.
      * destruct (Hv Ev) as [Hl _]. destruct v; try discriminate.
        rewrite entry_leaves_obj. destruct (rel_leaves (VObj props)); [congruence|].
        discriminate.
      * rewrite (entry_leaves_leaf _ _ Ev). discriminate.
    + rewrite rel_leaves_obj. now rewrite (unflatten_props ps Hnd Hps []).
Qed.

(** *** Writes on a path that is already there *)

Lemma obj_get_hasOwn k o c : obj_get k o = Some c -> hasOwn k o = true.
Proof.
  induction o as [|[k' v'] o IH]; simpl; [discriminate|].
  destruct (String.eqb k k'); auto.
Qed.

Lemma obj_get_set_same k v o : obj_get k (obj_set k v o) = Some v.
Proof.
  induction o as [|[k' v'] o IH]; simpl.
  - now rewrite String.eqb_refl.
  - destruct (String.eqb k k') eqn:E; simpl; rewrite E; auto.
Qed.

Lemma obj_set_same k c o : obj_get k o = Some c -> obj_set k c o = o.
Proof.
  induction o as [|[k' v'] o IH]; simpl; [discriminate|].
  destruct (String.eqb k k'); intros H.
  - congruence.
  - now rewrite IH.
Qed.

Lemma split_dot_app a b :
  split_dot (a ++ "." ++ b) = split_dot a ++ split_dot b.
Proof.
  induction a as [|c a IH]; [reflexivity|].
  cbn [String.append split_dot]. destruct (Ascii.eqb c ".").
  - cbn [String.append] in IH. rewrite IH. reflexivity.
  - cbn [String.append] in IH. rewrite IH.
    pose proof (split_dot_nonempty a) as Hne.
    destruct (split_dot a); [congruence | reflexivity].
Qed.

(** A leaf written on a path that exists replaces the node there. *)
Lemma set_path_replaces parts x : forall root old,
  parts <> [] -> lookup_path parts root = Some old ->
  exists root', set_path root parts x = Ok root' /\
                lookup_path parts root' = Some x.
Proof.
  induction parts as [|p rest IH]; intros root old Hne Hl; [congruence|].
  destruct root; try discriminate. cbn [lookup_path] in Hl.
  destruct (obj_get p props) as [c|] eqn:Ec; [|discriminate].
  destruct rest as [|p' rest].
  - exists (VObj (obj_set p x props)). split.
    + cbn [set_path]. rewrite (obj_get_hasOwn _ _ _ Ec). reflexivity.
    + cbn [lookup_path]. now rewrite obj_get_set_same.
  - assert (p' :: rest <> []) as Hr by discriminate.
    destruct (IH c old Hr Hl) as [c' [Hs Hl']].
    exists (VObj (obj_set p c' props)). split.
    + rewrite (set_path_inner _ _ _ _ Hr).
      rewrite (obj_get_hasOwn _ _ _ Ec). cbv zeta. rewrite Ec, Hs. reflexivity.
    + remember (p' :: rest) as r. cbn [lookup_path].
      now rewrite obj_get_set_same.
Qed.

(** A write one part below a string, number or boolean is dropped. *)
Lemma set_path_dropped q y x parts : forall root,
  is_scalar x = true -> lookup_path parts root = Some x ->
  set_path root (parts ++ [q]) y = Ok root.
Proof.
  induction parts as [|p rest IH]; intros root Hx Hl.
  - cbn [lookup_path] in Hl. injection Hl as ->.
    destruct x; try discriminate; reflexivity.
  - destruct root; try discriminate. cbn [lookup_path] in Hl.
    destruct (obj_get p props) as [c|] eqn:Ec; [|discriminate].
    assert (rest ++ [q] <> []) as Hr by (destruct rest; discriminate).
    cbn [app]. rewrite (set_path_inner _ _ _ _ Hr).
    rewrite (obj_get_hasOwn _ _ _ Ec). cbv zeta. rewrite Ec.
    rewrite (IH c Hx Hl). cbn [bind]. now rewrite (obj_set_same _ _ _ Ec).
Qed.

Lemma unflattenJson_snoc pre k v :
  unflattenJson (pre ++ [(k, v)]) =
  bind (unflattenJson pre) (fun root => set_path root (split_dot k) v).
Proof.
  unfold unflattenJson. rewrite unflatten_from_app.
  destruct (unflatten_from (VObj []) pre); try reflexivity.
  cbn [bind unflatten_from]. destruct (set_path a (split_dot k) v); reflexivity.
Qed.

(* ================================================================= *)
(** * Round trip and conflicting paths *)

(** C1, as stated, fails: a key that contains the separator comes back as
    a nested object; an empty nested object has no leaf and is lost; and
    an object under the empty key at the root is flattened without prefix,
    so that its entries come back at the root.  The three trees have only
    string leaves (the second has none). *)
Lemma round_trip_fails_on_dotted_key_and_empty_object :
  (scalar_leaves (VObj [("a.b", VStr "x")]) = true /\
   unflattenJson (flatten (VObj [("a.b", VStr "x")])) =
     Ok (VObj [("a", VObj [("b", VStr "x")])]) /\
   VObj [("a", VObj [("b", VStr "x")])] <> VObj [("a.b", VStr "x")]) /\
  (scalar_leaves (VObj [("a", VObj [])]) = true /\
   unflattenJson (flatten (VObj [("a", VObj [])])) = Ok (VObj []) /\
   VObj [] <> VObj [("a", VObj [])]) /\
  (scalar_leaves (VObj [("", VObj [("a", VStr "x")])]) = true /\
   unflattenJson (flatten (VObj [("", VObj [("a", VStr "x")])])) =
     Ok (VObj [("a", VStr "x")]) /\
   VObj [("a", VStr "x")] <> VObj [("", VObj [("a", VStr "x")])]).
Proof.
  repeat split; try reflexivity; discriminate.
Qed.

(** C1, amended: for every object tree whose keys contain no [.] and are
    not [__proto__], whose nested objects are not empty and whose root does
    not hold an object under the empty key, unflattening the flattening of
    the tree gives the tree again (whatever the non-object leaves are). *)
Theorem unflatten_flatten_round_trip (t : value) :
  round_trip_tree t = true -> unflattenJson (flatten t) = Ok t.
Proof.
  intros Hwf. destruct t as [| | | | | |ps]; try discriminate.
  rewrite (flatten_leaves ps Hwf), rel_leaves_obj.
  apply round_trip_tree_inv in Hwf as [Hnd Hall].
  unfold unflattenJson. apply (unflatten_props ps Hnd).
  - rewrite Forall_forall in *. intros kv Hin.
    destruct (Hall kv Hin) as (Hk & Hv & _). split; [exact Hk|].
    now apply inner_rebuilds.
  - reflexivity.
Qed.

Lemma unflatten_flatten_round_trip_witness :
  round_trip_tree
    (VObj [("login", VObj [("title", VStr "Login"); ("tries", VNum 3)]);
           ("", VBool true); ("tags", VArr [VStr "a"])]) = true /\
  unflattenJson
    (flatten
       (VObj [("login", VObj [("title", VStr "Login"); ("tries", VNum 3)]);
              ("", VBool true); ("tags", VArr [VStr "a"])])) =
  Ok (VObj [("login", VObj [("title", VStr "Login"); ("tries", VNum 3)]);
            ("", VBool true); ("tags", VArr [VStr "a"])]).
Proof.
  split; [reflexivity|].
  apply unflatten_flatten_round_trip. reflexivity.
Defined.

(** C9, as stated, fails: with the leaf key first, the value written later
    does not determine the node; the later write is dropped, and when the
    leaf is [null] it throws. *)
Lemma later_write_below_leaf_is_dropped :
  (exists root,
      unflattenJson [("a", VStr "x"); ("a.b", VStr "y")] = Ok root /\
      lookup_path ["a"] root = Some (VStr "x") /\
      lookup_path ["a"; "b"] root = None) /\
  unflattenJson [("a", VNull); ("a.b", VStr "y")] =
    Throw (mkError "TypeError" "Cannot convert undefined or null to object").
Proof.
  split; [|reflexivity].
  exists (VObj [("a", VStr "x")]). repeat split.
Qed.

(** C9, amended: when a key [k] is a leaf and also the prefix of another
    key, the leaf wins in both orders.  Written later, onto a node that an
    earlier entry made, the leaf value replaces that node (last write
    wins).  Written earlier with a string, number or boolean, it stays: a
    later entry one part deeper, [k.q], is dropped and the tree is left as
    it was.  (No part of a key is [__proto__].) *)
Theorem unflatten_prefix_conflict (pre : object) (root : value) (k : string) :
  forallb ordinary_path (keys pre) = true ->
  ordinary_path k = true ->
  unflattenJson pre = Ok root ->
  (forall old x,
      lookup_path (split_dot k) root = Some old ->
      exists root',
        unflattenJson (pre ++ [(k, x)]) = Ok root' /\
        lookup_path (split_dot k) root' = Some x) /\
  (forall x q y,
      lookup_path (split_dot k) root = Some x ->
      is_scalar x = true -> plain_key q = true ->
      unflattenJson (pre ++ [((k ++ "." ++ q)%string, y)]) = Ok root).
Proof.
  intros _ _ Hpre. split.
  - intros old x Hl. rewrite unflattenJson_snoc, Hpre. cbn [bind].
    apply (set_path_replaces (split_dot k) x root old (split_dot_nonempty k) Hl).
  - intros x q y Hl Hx Hq. apply plain_key_dotfree in Hq.
    rewrite unflattenJson_snoc, Hpre. cbn [bind].
    rewrite split_dot_app, (split_dot_plain q Hq).
    now apply set_path_dropped with (x := x).
Qed.

Lemma unflatten_prefix_conflict_witness :
  (exists root',
      unflattenJson ([("a.b", VStr "y")] ++ [("a", VStr "x")]) = Ok root' /\
      lookup_path (split_dot "a") root' = Some (VStr "x")) /\
  unflattenJson ([("a", VStr "x")] ++ [("a.b", VStr "y")]) =
    Ok (VObj [("a", VStr "x")]).
Proof.
  split.
  - apply (proj1 (unflatten_prefix_conflict [("a.b", VStr "y")]
                    (VObj [("a", VObj [("b", VStr "y")])]) "a"
                    eq_refl eq_refl eq_refl)
            (VObj [("b", VStr "y")]) (VStr "x")).
    reflexivity.
  - apply (proj2 (unflatten_prefix_conflict [("a", VStr "x")]
                    (VObj [("a", VStr "x")]) "a" eq_refl eq_refl eq_refl)
            (VStr "x") "b" (VStr "y")); reflexivity.
Defined.

(* ================================================================= *)
(** * Properties of the validator *)

(** *** The bound on the turns of the [exec] loop is enough *)

Lemma match_name_shorter s : forall name after,
  match_name s = Some (name, after) -> String.length after < String.length s.
Proof.
  induction s as [|c s IH]; intros name after; simpl; [discriminate|].
  destruct (is_brace c); [discriminate|].
  destruct s as [|c' s']; [discriminate|].
  destruct (Ascii.eqb c' "}").
  - intros H. injection H as _ <-. simpl. lia.
  - destruct (match_name (String c' s')) as [[n a]|] eqn:E; [|discriminate].
    intros H. injection H as _ <-.
    specialize (IH n a eq_refl). simpl in *. lia.
Qed.

Lemma regex_exec_shorter s : forall name after,
  regex_exec s = Some (name, after) -> String.length after < String.length s.
Proof.
  induction s as [|c s IH]; intros name after; simpl; [discriminate|].
  destruct (Ascii.eqb c "{").
  - destruct (match_name s) as [[n a]|] eqn:E.
    + intros H. injection H as <- <-. apply match_name_shorter in E. lia.
    + intros H. apply IH in H. lia.
  - intros H. apply IH in H. lia.
Qed.

Lemma exec_loop_stable n : forall s set turns,
  String.length s <= n -> String.length s <= turns ->
  exec_loop turns s set = exec_loop (String.length s) s set.
Proof.
  induction n as [|n IH]; intros s set turns Hn Hle.
  - destruct s; [|simpl in Hn; lia]. destruct turns; reflexivity.
  - destruct s as [|c s]. { destruct turns; reflexivity. }
    destruct turns as [|turns]; [simpl in Hle; lia|].
    cbn [String.length exec_loop].
    destruct (regex_exec (String c s)) as [[name after]|] eqn:E; [|reflexivity].
    apply regex_exec_shorter in E. cbn [String.length] in *.
    rewrite (IH after (set_add name set) turns) by lia.
    rewrite (IH after (set_add name set) (String.length s)) by lia.
    reflexivity.
Qed.

(** More turns than the length of the string change nothing: the loop has
    stopped on a failed [exec] by then. *)
Lemma exec_loop_enough turns s set :
  String.length s <= turns ->
  exec_loop turns s set = exec_loop (String.length s) s set.
Proof. intros H. now apply (exec_loop_stable (String.length s)). Qed.

(** *** Membership in the collected lists *)

Lemma set_has_In x s : set_has x s = true <-> In x s.
Proof.
  unfold set_has. rewrite existsb_exists. split.
  - intros [y [Hin Heq]]. apply String.eqb_eq in Heq. now subst.
  - intros Hin. exists x. split; [exact Hin | apply String.eqb_refl].
Qed.

Lemma set_minus_In p a b : In p (set_minus a b) <-> In p a /\ ~ In p b.
Proof.
  unfold set_minus. rewrite filter_In, negb_true_iff.
  pose proof (set_has_In p b) as Hb.
  split; intros [H1 H2]; (split; [exact H1|]).
  - intros Hin. apply Hb in Hin. congruence.
  - destruct (set_has p b); [|reflexivity]. elim H2. now apply Hb.
Qed.

Lemma missing_list_In s t k :
  In k (missing_list s t) <-> In k (keys s) /\ ~ In k (keys t).
Proof.
  unfold missing_list. rewrite filter_In, negb_true_iff, hasOwn_false. tauto.
Qed.

Lemma extra_list_In s t k :
  In k (extra_list s t) <-> In k (keys t) /\ ~ In k (keys s).
Proof.
  unfold extra_list. rewrite filter_In, negb_true_iff, hasOwn_false. tauto.
Qed.

Lemma placeholder_item_In s t key d :
  In d (placeholder_item s t key) <->
  d = mkDiff key
        (set_minus (extractPlaceholders (prop_value key s))
                   (extractPlaceholders (prop_value key t)))
        (set_minus (extractPlaceholders (prop_value key t))
                   (extractPlaceholders (prop_value key s))) /\
  (pd_missingPH d <> [] \/ pd_extraPH d <> []).
Proof.
  unfold placeholder_item. cbv zeta.
  destruct (set_minus (extractPlaceholders (prop_value key s))
                      (extractPlaceholders (prop_value key t))) as [|m ms];
    destruct (set_minus (extractPlaceholders (prop_value key t))
                        (extractPlaceholders (prop_value key s))) as [|e es];
    simpl; split.
  - tauto.
  - intros [-> [H|H]]; simpl in H; congruence.
  - intros [<-|[]]. split; [reflexivity | right; discriminate].
  - intros [-> _]. now left.
  - intros [<-|[]]. split; [reflexivity | left; discriminate].
  - intros [-> _]. now left.
  - intros [<-|[]]. split; [reflexivity | left; discriminate].
  - intros [-> _]. now left.
Qed.

Lemma diff_list_In s t d :
  In d (diff_list s t) <->
  In (pd_key d) (keys s) /\ In d (placeholder_item s t (pd_key d)).
Proof.
  unfold diff_list. rewrite in_flat_map. split.
  - intros [key [Hk Hd]]. pose proof Hd as Hd'.
    apply placeholder_item_In in Hd' as [-> _]. simpl. auto.
  - intros [Hk Hd]. exists (pd_key d). auto.
Qed.

(** The grouping: a list is pushed exactly when it is not empty. *)
Lemma errors_In s t e :
  In e (errors (validateKeyAndPlaceholderParity s t)) <->
  (e = missing_keys (missing_list s t) /\ missing_list s t <> []) \/
  (e = extra_keys (extra_list s t) /\ extra_list s t <> []) \/
  (e = placeholder_mismatch (diff_list s t) /\ diff_list s t <> []).
Proof.
  unfold validateKeyAndPlaceholderParity. cbv zeta. cbn [errors].
  fold (missing_list s t) (extra_list s t) (diff_list s t).
  rewrite !in_app_iff.
  destruct (missing_list s t), (extra_list s t), (diff_list s t); simpl;
    intuition (try congruence; try discriminate).
Qed.

Lemma ok_errors s t :
  ok (validateKeyAndPlaceholderParity s t) = true <->
  errors (validateKeyAndPlaceholderParity s t) = [].
Proof.
  unfold validateKeyAndPlaceholderParity. cbv zeta. cbn [ok errors].
  match goal with |- _ <-> ?l = [] => destruct l end; split; congruence.
Qed.

(** *** What the validator reports *)

Lemma reports_missing_key_iff s t k :
  reports_missing_key (validateKeyAndPlaceholderParity s t) k <->
  In k (missing_list s t).
Proof.
  unfold reports_missing_key. split.
  - intros [ks [He Hk]]. apply errors_In in He as [[E _]|[[E _]|[E _]]];
      try discriminate. injection E as ->. exact Hk.
  - intros Hk. exists (missing_list s t). split; [|exact Hk].
    apply errors_In. left. split; [reflexivity|].
    intros E. rewrite E in Hk. exact Hk.
Qed.

Lemma reports_extra_key_iff s t k :
  reports_extra_key (validateKeyAndPlaceholderParity s t) k <->
  In k (extra_list s t).
Proof.
  unfold reports_extra_key. split.
  - intros [ks [He Hk]]. apply errors_In in He as [[E _]|[[E _]|[E _]]];
      try discriminate. injection E as ->. exact Hk.
  - intros Hk. exists (extra_list s t). split; [|exact Hk].
    apply errors_In. right. left. split; [reflexivity|].
    intros E. rewrite E in Hk. exact Hk.
Qed.

Lemma reports_diff_iff s t (Q : placeholder_diff -> Prop) :
  (exists items d, In (placeholder_mismatch items)
                      (errors (validateKeyAndPlaceholderParity s t)) /\
                   In d items /\ Q d) <->
  (exists d, In d (diff_list s t) /\ Q d).
Proof.
  split.
  - intros [items [d [He [Hd HQ]]]].
    apply errors_In in He as [[E _]|[[E _]|[E _]]]; try discriminate.
    injection E as ->. exists d. auto.
  - intros [d [Hd HQ]]. exists (diff_list s t), d. split; [|auto].
    apply errors_In. right. right. split; [reflexivity|].
    intros E. rewrite E in Hd. exact Hd.
Qed.

Lemma reports_missing_placeholder_iff s t k p :
  reports_missing_placeholder (validateKeyAndPlaceholderParity s t) k p <->
  In k (keys s) /\
  In p (extractPlaceholders (prop_value k s)) /\
  ~ In p (extractPlaceholders (prop_value k t)).
Proof.
  unfold reports_missing_placeholder.
  rewrite (reports_diff_iff s t (fun d => pd_key d = k /\ In p (pd_missingPH d))).
  rewrite <- set_minus_In. split.
  - intros [d [Hd [<- Hp]]]. apply diff_list_In in Hd as [Hk Hd].
    split; [exact Hk|]. apply placeholder_item_In in Hd as [E _].
    rewrite E in Hp. exact Hp.
  - intros [Hk Hp].
    exists (mkDiff k
              (set_minus (extractPlaceholders (prop_value k s))
                         (extractPlaceholders (prop_value k t)))
              (set_minus (extractPlaceholders (prop_value k t))
                         (extractPlaceholders (prop_value k s)))).
    split; [|split; [reflexivity | exact Hp]].
    apply diff_list_In. cbn [pd_key]. split; [exact Hk|].
    apply placeholder_item_In. split; [reflexivity|].
    left. cbn [pd_missingPH]. intros E. rewrite E in Hp. exact Hp.
Qed.

Lemma reports_extra_placeholder_iff s t k p :
  reports_extra_placeholder (validateKeyAndPlaceholderParity s t) k p <->
  In k (keys s) /\
  In p (extractPlaceholders (prop_value k t)) /\
  ~ In p (extractPlaceholders (prop_value k s)).
Proof.
  unfold reports_extra_placeholder.
  rewrite (reports_diff_iff s t (fun d => pd_key d = k /\ In p (pd_extraPH d))).
  rewrite <- set_minus_In. split.
  - intros [d [Hd [<- Hp]]]. apply diff_list_In in Hd as [Hk Hd].
    split; [exact Hk|]. apply placeholder_item_In in Hd as [E _].
    rewrite E in Hp. exact Hp.
  - intros [Hk Hp].
    exists (mkDiff k
              (set_minus (extractPlaceholders (prop_value k s))
                         (extractPlaceholders (prop_value k t)))
              (set_minus (extractPlaceholders (prop_value k t))
                         (extractPlaceholders (prop_value k s)))).
    split; [|split; [reflexivity | exact Hp]].
    apply diff_list_In. cbn [pd_key]. split; [exact Hk|].
    apply placeholder_item_In. split; [reflexivity|].
    right. cbn [pd_extraPH]. intros E. rewrite E in Hp. exact Hp.
Qed.

Lemma errors_empty_iff s t :
  errors (validateKeyAndPlaceholderParity s t) = [] <->
  missing_list s t = [] /\ extra_list s t = [] /\ diff_list s t = [].
Proof.
  unfold validateKeyAndPlaceholderParity. cbv zeta. cbn [errors].
  fold (missing_list s t) (extra_list s t) (diff_list s t).
  destruct (missing_list s t), (extra_list s t), (diff_list s t); simpl;
    split; try discriminate; try tauto;
    intros (H1 & H2 & H3); discriminate.
Qed.

(** C2, as stated, fails: a placeholder mismatch is also reported for a
    key that only the source has. *)
Lemma placeholder_mismatch_reported_for_unshared_key :
  reports_missing_placeholder
    (validateKeyAndPlaceholderParity [("a", VStr "Hi {x}")] []) "a" "x" /\
  ~ In "a" (keys []) /\
  errors (validateKeyAndPlaceholderParity [("a", VStr "Hi {x}")] []) =
    [missing_keys ["a"]; placeholder_mismatch [mkDiff "a" ["x"] []]].
Proof.
  split; [|split].
  - exists [mkDiff "a" ["x"] []], (mkDiff "a" ["x"] []).
    repeat split; simpl; auto.
  - intros [].
  - reflexivity.
Qed.

(** C2, amended: for every pair of flat maps the validator reports exactly
    the keys of the source absent from the target as missing keys, the
    keys of the target absent from the source as extra keys, and, for
    every key of the source, shared or not (a key the target lacks is
    compared with no placeholder at all), the placeholder names of the
    source value missing from the target value and those of the target
    value absent from the source value; [ok] is true if and only if
    nothing is reported in any of the three groups. *)
Theorem validate_reports_exactly (sourceFlat targetFlat : object) :
  let r := validateKeyAndPlaceholderParity sourceFlat targetFlat in
  (forall k, reports_missing_key r k <->
             In k (keys sourceFlat) /\ ~ In k (keys targetFlat)) /\
  (forall k, reports_extra_key r k <->
             In k (keys targetFlat) /\ ~ In k (keys sourceFlat)) /\
  (forall k p, reports_missing_placeholder r k p <->
               In k (keys sourceFlat) /\
               In p (extractPlaceholders (prop_value k sourceFlat)) /\
               ~ In p (extractPlaceholders (prop_value k targetFlat))) /\
  (forall k p, reports_extra_placeholder r k p <->
               In k (keys sourceFlat) /\
               In p (extractPlaceholders (prop_value k targetFlat)) /\
               ~ In p (extractPlaceholders (prop_value k sourceFlat))) /\
  (ok r = true <->
   (forall k, ~ reports_missing_key r k) /\
   (forall k, ~ reports_extra_key r k) /\
   (forall k p, ~ reports_missing_placeholder r k p /\
                ~ reports_extra_placeholder r k p)) /\
  (ok r = true <-> errors r = []).
Proof.
  cbv zeta. split; [|split; [|split; [|split; [|split]]]].
  - intros k. now rewrite reports_missing_key_iff, missing_list_In.
  - intros k. now rewrite reports_extra_key_iff, extra_list_In.
  - apply reports_missing_placeholder_iff.
  - apply reports_extra_placeholder_iff.
  - rewrite ok_errors, errors_empty_iff. split.
    + intros (Hm & He & Hd). split; [|split].
      * intros k. rewrite reports_missing_key_iff, Hm. auto.
      * intros k. rewrite reports_extra_key_iff, He. auto.
      * intros k p. unfold reports_missing_placeholder, reports_extra_placeholder.
        rewrite !reports_diff_iff, Hd. split; intros [d [[] _]].
    + intros (Hm & He & Hd). split; [|split].
      * destruct (missing_list sourceFlat targetFlat) as [|k l] eqn:E; [reflexivity|].
        elim (Hm k). apply reports_missing_key_iff. rewrite E. now left.
      * destruct (extra_list sourceFlat targetFlat) as [|k l] eqn:E; [reflexivity|].
        elim (He k). apply reports_extra_key_iff. rewrite E. now left.
      * destruct (diff_list sourceFlat targetFlat) as [|d l] eqn:E; [reflexivity|].
        assert (In d (diff_list sourceFlat targetFlat)) as Hin by (rewrite E; now left).
        pose proof Hin as Hin'. apply diff_list_In in Hin' as [_ Hitem].
        apply placeholder_item_In in Hitem as [_ [Hne|Hne]].
        -- destruct (pd_missingPH d) as [|p ps] eqn:Ep; [congruence|].
           elim (proj1 (Hd (pd_key d) p)).
           unfold reports_missing_placeholder. apply reports_diff_iff.
           exists d. rewrite Ep. repeat split; auto. now left.
        -- destruct (pd_extraPH d) as [|p ps] eqn:Ep; [congruence|].
           elim (proj2 (Hd (pd_key d) p)).
           unfold reports_extra_placeholder. apply reports_diff_iff.
           exists d. rewrite Ep. repeat split; auto. now left.
  - apply ok_errors.
Qed.

(* ================================================================= *)
(** * Properties of the batch gateway *)

(** *** The association loop *)

Lemma fold_obj_set_fresh (l : object) : forall acc,
  NoDup (keys acc ++ keys l) ->
  fold_left (fun f e => obj_set (fst e) (snd e) f) l acc = acc ++ l.
Proof.
  induction l as [|[k v] l IH]; intros acc Hnd; simpl.
  - now rewrite app_nil_r.
  - assert (hasOwn k acc = false) as Hk.
    { apply hasOwn_false. intros Hin. simpl in Hnd.
      apply NoDup_remove_2 in Hnd. apply Hnd. apply in_or_app. now left. }
    rewrite (obj_set_new _ _ _ Hk). rewrite IH.
    + now rewrite <- app_assoc.
    + unfold keys in *. rewrite map_app, <- app_assoc. exact Hnd.
Qed.

Lemma associate_from_expected fetched : forall todo i acc,
  (forall j, j < List.length todo -> convertible (fetched_at fetched (i + j)) = true) ->
  associate_from i todo fetched acc =
  (fold_left (fun f e => obj_set (fst e) (snd e) f)
             (expected_entries i todo fetched) acc, Finished).
Proof.
  induction todo as [|[key text] todo IH]; intros i acc Hc; [reflexivity|].
  cbn [associate_from expected_entries fold_left fst snd].
  pose proof (Hc 0 ltac:(simpl; lia)) as H0. rewrite Nat.add_0_r in H0.
  unfold convertible in H0.
  destruct (as_string (result_text (fetched_at fetched i))) as [s| |]; try discriminate.
  apply IH. intros j Hj. replace (S i + j) with (i + S j) by lia.
  apply Hc. simpl. lia.
Qed.

Lemma expected_entries_keys fetched : forall todo i,
  keys (expected_entries i todo fetched) = keys todo.
Proof.
  induction todo as [|[key text] todo IH]; intros i; simpl; [reflexivity|].
  now rewrite IH.
Qed.

Lemma expected_entries_nth fetched : forall todo i j key text,
  nth_error todo j = Some (key, text) ->
  nth_error (expected_entries i todo fetched) j =
  Some (key, VStr (match as_string (result_text (fetched_at fetched (i + j))) with
                   | Ok s => s
                   | _ => ""
                   end)).
Proof.
  induction todo as [|[k t] todo IH]; intros i j key text Hn.
  - destruct j; discriminate.
  - destruct j as [|j]; simpl in *.
    + injection Hn as -> ->. now rewrite Nat.add_0_r.
    + rewrite (IH (S i) j key text Hn). now replace (S i + j) with (i + S j) by lia.
Qed.

Lemma fetched_at_short fetched i :
  List.length fetched <= i -> fetched_at fetched i = VUndefined.
Proof. intros H. unfold fetched_at. now apply nth_overflow. Qed.

Lemma obj_get_nth (l : object) : forall i k v,
  NoDup (keys l) -> nth_error l i = Some (k, v) -> obj_get k l = Some v.
Proof.
  induction l as [|[k' v'] l IH]; intros i k v Hnd Hn.
  - destruct i; discriminate.
  - inversion Hnd as [|? ? Hk Hnd']; subst. destruct i as [|i]; simpl in *.
    + injection Hn as -> ->. now rewrite String.eqb_refl.
    + destruct (String.eqb_spec k k') as [->|Hne].
      * exfalso. apply Hk. apply nth_error_In in Hn.
        change k' with (fst (k', v)). unfold keys. now apply in_map.
      * now apply (IH i).
Qed.

(** *** The polling loop *)

Lemma polls_of_app jobId t1 t2 :
  polls_of jobId (t1 ++ t2) = polls_of jobId t1 + polls_of jobId t2.
Proof.
  induction t1 as [|e t1 IH]; [reflexivity|].
  destruct e as [l|c rej]; simpl; [exact IH|].
  destruct c; simpl; try exact IH. rewrite IH. lia.
Qed.

Lemma polls_of_describe jobId t rej :
  polls_of jobId (t ++ [Called (call_describeTextTranslationJob jobId) rej]) =
  S (polls_of jobId t).
Proof. rewrite polls_of_app. simpl. rewrite String.eqb_refl. lia. Qed.

Section Polling.

Variable W : env.
Variable jobId : string.
Variable pollMs : nat.




End Polling.



(** C10, as stated, fails: an entry that is neither a string nor an object
    with a string [text] is not mapped to the empty string but to its
    [String] conversion, and some entries make the conversion throw. *)
Lemma boolean_result_is_not_mapped_to_empty_string :
  associate [("a", VStr "Hi")] [VBool true] = ([("a", VStr "true")], Finished) /\
  associate [("a", VStr "Hi")] [VObj [("key", VStr "a")]] =
    ([("a", VStr "[object Object]")], Finished) /\
  associate [("a", VStr "Hi")] [VObj [("toString", VNum 1)]] =
    ([], Thrown not_primitive).
Proof. repeat split. Qed.

(** C10, amended: when the conversion of the results used throws nowhere
    (and no source key is [__proto__]), the association gives every source
    key, and no other key, a string: the empty string when the results are
    fewer than the lines or the result is [null] or [undefined]; the
    [text] of a result that has a string [text]; the result itself when it
    is a string; and for any other result its [String] conversion, which
    is not empty for a boolean or a plain object. *)
Theorem associate_gives_every_key_a_string
        (lines : list line) (fetched : list value) :
  NoDup (keys lines) ->
  forallb ordinary_key (keys lines) = true ->
  (forall i, i < List.length lines -> convertible (fetched_at fetched i) = true) ->
  exists flat,
    associate lines fetched = (flat, Finished) /\
    (forall key, hasOwn key flat = true <-> In key (keys lines)) /\
    forall i key text,
      nth_error lines i = Some (key, text) ->
      exists s,
        obj_get key flat = Some (VStr s) /\
        as_string (result_text (fetched_at fetched i)) = Ok s /\
        (List.length fetched <= i -> s = "") /\
        (fetched_at fetched i = VNull -> s = "") /\
        (forall props t, fetched_at fetched i = VObj props ->
                         obj_get "text" props = Some (VStr t) -> s = t) /\
        (forall t, fetched_at fetched i = VStr t -> s = t) /\
        (forall b, fetched_at fetched i = VBool b ->
                   s = if b then "true" else "false") /\
        (forall props, fetched_at fetched i = VObj props ->
                       (forall t, obj_get "text" props <> Some (VStr t)) ->
                       s = "[object Object]").
Proof.
  intros Hnd _ Hconv.
  exists (expected_entries 0 lines fetched).
  unfold associate. rewrite associate_from_expected by exact Hconv.
  rewrite fold_obj_set_fresh
    by (rewrite expected_entries_keys; exact Hnd).
  split; [reflexivity|]. split.
  { intros key. rewrite hasOwn_In. now rewrite expected_entries_keys. }
  intros i key text Hn.
  assert (i < List.length lines) as Hi by (apply nth_error_Some; congruence).
  specialize (Hconv i Hi). unfold convertible in Hconv.
  pose proof (expected_entries_nth fetched lines 0 i key text Hn) as Hnth.
  cbn [Nat.add] in Hnth.
  apply obj_get_nth in Hnth; [|rewrite expected_entries_keys; exact Hnd].
  rewrite Hnth.
  destruct (as_string (result_text (fetched_at fetched i))) as [s| |] eqn:E;
    try discriminate.
  exists s. split; [reflexivity|]. split; [reflexivity|].
  repeat split.
  - intros Hshort. rewrite (fetched_at_short _ _ Hshort) in E.
    cbn in E. congruence.
  - intros Hnull. rewrite Hnull in E. cbn in E. congruence.
  - intros props t Hobj Htext. rewrite Hobj in E.
    unfold result_text, prop_value in E. cbn [truthy] in E. rewrite Htext in E.
    cbn in E. congruence.
  - intros t Hstr. rewrite Hstr in E. unfold result_text in E.
    destruct (truthy (VStr t)); cbn in E; congruence.
  - intros b Hb. rewrite Hb in E. destruct b; cbn in E; congruence.
  - intros props Hobj Hno. rewrite Hobj in E.
    unfold result_text, prop_value in E. cbn [truthy] in E.
    destruct (obj_get "text" props) as [v|] eqn:Et.
    + destruct v; try (elim (Hno _ eq_refl));
        cbn in E; destruct (hasOwn "toString" props); congruence.
    + cbn in E. destruct (hasOwn "toString" props); congruence.
Qed.

Lemma associate_gives_every_key_a_string_witness :
  exists flat,
    associate [("title", VStr "Login"); ("hint", VStr "Hi {x}"); ("bye", VStr "Bye")]
              [VObj [("key", VStr "title"); ("text", VStr "Dang nhap")];
               VStr "Chao {x}"] = (flat, Finished) /\
    obj_get "title" flat = Some (VStr "Dang nhap") /\
    obj_get "bye" flat = Some (VStr "").
Proof.
  destruct (associate_gives_every_key_a_string
              [("title", VStr "Login"); ("hint", VStr "Hi {x}"); ("bye", VStr "Bye")]
              [VObj [("key", VStr "title"); ("text", VStr "Dang nhap")];
               VStr "Chao {x}"])
    as (flat & E & Hk & Hall).
  - repeat constructor; simpl; intuition discriminate.
  - reflexivity.
  - intros i Hi. destruct i as [|[|[|i]]]; reflexivity.
  - exists flat. split; [exact E|].
    destruct (Hall 0 "title" (VStr "Login") eq_refl)
      as (s0 & Hn0 & _ & _ & _ & Htext & _).
    destruct (Hall 2 "bye" (VStr "Bye") eq_refl) as (s & Hn & _ & Hshort & _).
    assert (s0 = "Dang nhap") as Hs0 by (apply (Htext _ _ eq_refl); reflexivity).
    assert (s = "") as Hs by (apply Hshort; simpl; lia).
    rewrite Hs0 in Hn0. rewrite Hs in Hn. split; [exact Hn0 | exact Hn].
Defined.

(* ================================================================= *)
(** * Properties of the runner *)

(** *** Computations that end and swallow no rejected request *)

Section Posts.

Variable allowed : event -> bool.

Lemma post_ret {A} (a : A) : always (ret a) (post_with allowed).
Proof.
  intros st. exists (Ok a), st. split; [reflexivity|].
  split; [reflexivity|]. split; [reflexivity|].
  exists []. rewrite app_nil_r. split; [reflexivity|]. split; [constructor|].
  intros c e [].
Qed.

Lemma post_throw {A} (e : error) : always (@throw A e) (post_with allowed).
Proof.
  intros st. exists (Throw e), st. split; [reflexivity|].
  split; [reflexivity|]. split; [reflexivity|].
  exists []. rewrite app_nil_r. split; [reflexivity|]. split; [constructor|].
  intros c e' [].
Qed.

Lemma post_lift {A} (r : result A) : always (lift r) (post_with allowed).
Proof.
  intros st. exists r, st. split; [reflexivity|].
  split; [reflexivity|]. split; [reflexivity|].
  exists []. rewrite app_nil_r. split; [reflexivity|]. split; [constructor|].
  intros c e' [].
Qed.

Lemma post_get_state : always get_state (post_with allowed).
Proof.
  intros st. exists (Ok st), st. split; [reflexivity|].
  split; [reflexivity|]. split; [reflexivity|].
  exists []. rewrite app_nil_r. split; [reflexivity|]. split; [constructor|].
  intros c e' [].
Qed.

Lemma post_record l :
  allowed (Logged l) = true -> always (record (Logged l)) (post_with allowed).
Proof.
  intros Hin st. exists (Ok tt), (add_event st (Logged l)). split; [reflexivity|].
  split; [reflexivity|]. split; [reflexivity|].
  exists [Logged l]. split; [reflexivity|]. split; [repeat constructor; exact Hin|].
  intros c e [H|[]]. discriminate.
Qed.

Lemma post_request {A} c (answer : trace -> result A) :
  (forall rej, allowed (Called c rej) = true) ->
  always (request c answer) (post_with allowed).
Proof.
  intros Hc st. eexists _, _. split; [reflexivity|].
  split; [reflexivity|]. split; [reflexivity|].
  eexists [_]. split; [reflexivity|]. split; [repeat constructor; apply Hc|].
  intros c' e [H|[]]. injection H as _ Hr.
  destruct (answer (events st)); simpl in Hr; congruence.
Qed.

Lemma post_bind {A B} (m : M A) (f : A -> M B) :
  always m (post_with allowed) -> (forall a, always (f a) (post_with allowed)) ->
  always (mbind m f) (post_with allowed).
Proof.
  intros Hm Hf st. destruct (Hm st) as (r & st1 & E & Ht & Hc & new & Hev & Hin & Hff).
  unfold mbind. rewrite E. destruct r as [a|e|].
  - destruct (Hf a st1) as (r2 & st2 & E2 & Ht2 & Hc2 & new2 & Hev2 & Hin2 & Hff2).
    exists r2, st2. split; [exact E2|]. split; [congruence|]. split; [congruence|].
    exists (new ++ new2). split; [|split].
    + rewrite Hev2, Hev. now rewrite app_assoc.
    + apply Forall_app. split; assumption.
    + intros c e Hi. apply in_app_or in Hi as [Hi|Hi].
      * specialize (Hff c e Hi). discriminate.
      * exact (Hff2 c e Hi).
  - exists (Throw e), st1. split; [reflexivity|].
    split; [exact Ht|]. split; [exact Hc|].
    exists new. split; [exact Hev|]. split; [exact Hin|].
    intros c e0 Hi. specialize (Hff c e0 Hi). injection Hff as ->. reflexivity.
  - exists Unsupported, st1. split; [reflexivity|].
    split; [exact Ht|]. split; [exact Hc|].
    exists new. split; [exact Hev|]. split; [exact Hin|].
    intros c e0 Hi. specialize (Hff c e0 Hi). discriminate.
Qed.

Lemma post_log fl act msg dat crit :
  allowed (Logged (mkLog fl act msg crit dat)) = true ->
  always (_log fl act msg dat crit) (post_with allowed).
Proof. intros H. unfold _log. now apply post_record. Qed.

Lemma post_step {A} sf ef act ms me dat (fn : M A) :
  allowed (Logged (mkLog sf act ms false dat)) = true ->
  allowed (Logged (mkLog ef act me false dat)) = true ->
  always fn (post_with allowed) ->
  always (_step sf ef act ms me dat fn) (post_with allowed).
Proof.
  intros Hs He Hfn. unfold _step.
  apply post_bind; [now apply post_log | intros _].
  apply post_bind; [exact Hfn | intros a].
  apply post_bind; [now apply post_log | intros _].
  apply post_ret.
Qed.

End Posts.

Lemma post_weaken (allowed allowed' : event -> bool) {A} (m : M A) :
  (forall e, allowed e = true -> allowed' e = true) ->
  always m (post_with allowed) -> always m (post_with allowed').
Proof.
  intros Hw Hm st. destruct (Hm st) as (r & st' & E & Ht & Hc & new & Hev & Hin & Hff).
  exists r, st'. split; [exact E|]. split; [exact Ht|]. split; [exact Hc|].
  exists new. split; [exact Hev|]. split; [|exact Hff].
  eapply Forall_impl; [|exact Hin]. exact Hw.
Qed.

Ltac post_steps :=
  repeat first
    [ apply post_ret
    | apply post_throw
    | apply post_lift
    | apply post_get_state
    | apply post_request; intros ?; reflexivity
    | apply post_log; reflexivity
    | apply post_step; [reflexivity | reflexivity | ]
    | apply post_bind; [ | intros ? ] ].

Section PairWork.

Variable W : env.
Variable C : config.

Lemma batch_attempt_throws turns mod_name tf ta iu ou st :
  batch_attempt W C turns mod_name tf ta iu ou st =
  Some (Throw (ReferenceError "jobName"), st).
Proof. reflexivity. Qed.

(** Where the batch path is attempted it fails before any request is
    sent, and [translatedFlat] stays [null]. *)
Lemma try_batch_enabled turns mod_name tf ta iu ou lines st :
  batch_enabled C = true ->
  try_batch W C turns mod_name tf ta iu ou lines st =
  Some (Ok None,
        add_event st (Logged (mkLog "tr_error" "batch_fail"
          ("Batch failed; falling back to per-string. "
           ++ err_message (ReferenceError "jobName"))
          true [("moduleName", VStr mod_name); ("targetFolder", VStr tf)]))).
Proof. intros H. unfold try_batch. rewrite H. reflexivity. Qed.

Lemma try_batch_disabled turns mod_name tf ta iu ou lines st :
  batch_enabled C = false ->
  try_batch W C turns mod_name tf ta iu ou lines st = Some (Ok None, st).
Proof. intros H. unfold try_batch. rewrite H. reflexivity. Qed.











End PairWork.

(** *** Progress reports and announcements in a trace *)




Section RunLoop.

Variable W : env.
Variable C : config.
Variable turns : nat.
Variable jobDir : string.






End RunLoop.

(** *** The run *)

Section Run.

Variable W : env.
Variable C : config.






End Run.

(** *** The fallback translates key by key *)



Section Fallback.

Variable W : env.
Variable C : config.

Hypothesis translate_ok :
  forall t text lang, exists s, tr_translateText W t text lang = Ok s.


End Fallback.

(** *** Stepping through a computation whose answers are known *)




Section KnownAnswers.

Variable W : env.
Variable C : config.



End KnownAnswers.

(* ================================================================= *)
(** * The pipeline: validation, fallback, cleanup, failures, progress *)

(** C3 at a failing input: the translation of [{"msg": "Hi {name}"}] loses
    the placeholder, validation fails, and [translateModuleLocale] throws
    at once.  No local file is written, and the staged input, uploaded
    before, is not deleted: no request of the cleanup step is sent. *)
Theorem validation_failure_skips_cleanup :
  outcome_and_calls
    (translateModuleLocale placeholder_dropping_world sample_config 0
                           "auth" "i18n/auth/en.json" "jobs" vi start_state) =
    Some (Throw (Error "Validation failed for auth/vi: [...]"),
          [call_readJsonSafe "i18n/auth/en.json";
           call_uploadFile "bucket" "in/2026-01-01_00-00-00/auth/vi/uid.jsonl"
                           [("msg", VStr "Hi {name}")];
           call_translateText "Hi {name}" "vi"]) /\
  existsb cleanup_call
    [call_readJsonSafe "i18n/auth/en.json";
     call_uploadFile "bucket" "in/2026-01-01_00-00-00/auth/vi/uid.jsonl"
                     [("msg", VStr "Hi {name}")];
     call_translateText "Hi {name}" "vi"] = false.
Proof. split; vm_compute; reflexivity. Qed.












(* ================================================================= *)
(** * Further properties of the code *)

Lemma In_obj_set k v o key x :
  In (key, x) (obj_set k v o) -> (key, x) = (k, v) \/ In (key, x) o.
Proof.
  induction o as [|[k' v'] o IH]; simpl.
  - intros [H|[]]. left. now symmetry.
  - destruct (String.eqb_spec k k') as [->|Hne].
    + intros [H|H]; [left; now symmetry | right; now right].
    + intros [H|H]; [right; now left|].
      destruct (IH H) as [E|Hin]; [now left | right; now right].
Qed.

Lemma hasOwn_obj_set k v o k0 :
  hasOwn k0 (obj_set k v o) = (String.eqb k0 k || hasOwn k0 o).
Proof.
  induction o as [|[k' v'] o IH]; simpl.
  - now destruct (String.eqb k0 k).
  - destruct (String.eqb_spec k k') as [->|Hne]; simpl.
    + destruct (String.eqb k0 k'); reflexivity.
    + rewrite IH. destruct (String.eqb k0 k'); [now rewrite orb_true_r | reflexivity].
Qed.

Lemma obj_get_of_In k c ps :
  NoDup (keys ps) -> In (k, c) ps -> obj_get k ps = Some c.
Proof.
  induction ps as [|[k' c'] ps IH]; simpl; intros Hnd Hin; [contradiction|].
  inversion Hnd as [|? ? Hk Hnd']; subst.
  destruct Hin as [E|Hin].
  - injection E as -> ->. now rewrite String.eqb_refl.
  - destruct (String.eqb_spec k k') as [->|Hne]; [|now apply IH].
    exfalso. apply Hk. apply in_map_iff. now exists (k', c).
Qed.

Lemma obj_get_In k c ps : obj_get k ps = Some c -> In (k, c) ps.
Proof.
  induction ps as [|[k' c'] ps IH]; simpl; [discriminate|].
  destruct (String.eqb_spec k k') as [->|Hne].
  - intros E. injection E as ->. now left.
  - intros H. right. now apply IH.
Qed.

Lemma flatten_entry_of_leaf v key out :
  is_plain_object v = false -> flatten_entry v key out = obj_set key v out.
Proof. intros H. destruct v; try reflexivity; discriminate. Qed.

(** *** Every flat entry is a leaf of the tree *)

Lemma flatten_props_sound ps key0 : forall qs,
  (forall k c, In (k, c) qs ->
     obj_get k ps = Some c /\
     forall key1 out key x,
       In (key, x) (flatten_entry c key1 out) ->
       In (key, x) out \/ reaches c key1 key x) ->
  forall out key x,
    In (key, x) (flatten_props qs key0 out) ->
    In (key, x) out \/ reaches (VObj ps) key0 key x.
Proof.
  induction qs as [|[k c] qs IH]; intros Hqs out key x Hin.
  - now left.
  - rewrite flatten_props_step in Hin.
    apply IH in Hin; [|intros k' c' H; apply Hqs; now right].
    destruct Hin as [Hin|Hin]; [|now right].
    destruct (Hqs k c (or_introl eq_refl)) as [Hget Hc].
    apply Hc in Hin as [Hin|(path & Hk & Hl & Hleaf)]; [now left|].
    right. exists (k :: path). split; [exact Hk|]. split; [|exact Hleaf].
    simpl. now rewrite Hget.
Qed.

Lemma flatten_entry_sound v :
  distinct_keys v = true ->
  forall key0 out key x,
    In (key, x) (flatten_entry v key0 out) ->
    In (key, x) out \/ reaches v key0 key x.
Proof.
  induction v as [v Hleaf | ps IH] using value_tree_ind;
    intros Hwf key0 out key x Hin.
  - rewrite (flatten_entry_of_leaf _ _ _ Hleaf) in Hin.
    apply In_obj_set in Hin as [E|Hin]; [|now left].
    injection E as -> ->. right. exists []. repeat split. exact Hleaf.
  - unfold flatten_entry in Hin. rewrite flattenJson_obj in Hin.
    simpl in Hwf. apply andb_true_iff in Hwf as [Hd Hall].
    apply (flatten_props_sound ps key0 ps); [|exact Hin].
    intros k c Hkc. split.
    + apply obj_get_of_In; [now apply distinct_NoDup | exact Hkc].
    + rewrite Forall_forall in IH. apply (IH (k, c) Hkc).
      rewrite forallb_forall in Hall. apply (Hall (k, c) Hkc).
Qed.

(** *** Every leaf of the tree has its key in the flat map *)

Lemma flatten_props_keeps qs key0 :
  Forall (fun kv => keeps_keys (snd kv)) qs ->
  forall out k, hasOwn k out = true -> hasOwn k (flatten_props qs key0 out) = true.
Proof.
  induction 1 as [|[k1 c1] qs Hc Hqs IH]; intros out k Hk; [exact Hk|].
  rewrite flatten_props_step. apply IH. now apply Hc.
Qed.

Lemma flatten_entry_keeps v : keeps_keys v.
Proof.
  induction v as [v Hleaf | ps IH] using value_tree_ind; intros key0 out k Hk.
  - rewrite (flatten_entry_of_leaf _ _ _ Hleaf), hasOwn_obj_set, Hk.
    apply orb_true_r.
  - unfold flatten_entry. rewrite flattenJson_obj.
    now apply flatten_props_keeps.
Qed.

Lemma all_keep_keys (qs : object) : Forall (fun kv => keeps_keys (snd kv)) qs.
Proof. apply Forall_forall. intros kv _. apply flatten_entry_keeps. Qed.

Lemma flatten_props_complete qs key0 k c K :
  In (k, c) qs ->
  (forall out, hasOwn K (flatten_entry c (join_key key0 k) out) = true) ->
  forall out, hasOwn K (flatten_props qs key0 out) = true.
Proof.
  induction qs as [|[k1 c1] qs IH]; intros Hin Hc out; [contradiction|].
  rewrite flatten_props_step. destruct Hin as [E|Hin].
  - injection E as -> ->. apply flatten_props_keeps; [apply all_keep_keys | apply Hc].
  - now apply IH.
Qed.

Lemma flatten_entry_complete v :
  forall key0 out path x,
    lookup_path path v = Some x -> is_plain_object x = false ->
    hasOwn (key_below key0 path) (flatten_entry v key0 out) = true.
Proof.
  induction v as [v Hleaf | ps IH] using value_tree_ind;
    intros key0 out path x Hl Hx.
  - destruct path as [|p path].
    + rewrite (flatten_entry_of_leaf _ _ _ Hleaf), hasOwn_obj_set.
      unfold key_below. simpl. now rewrite String.eqb_refl.
    + destruct v; try discriminate.
  - destruct path as [|k path].
    + simpl in Hl. injection Hl as <-. discriminate.
    + simpl in Hl. destruct (obj_get k ps) as [c|] eqn:G; [|discriminate].
      apply obj_get_In in G.
      unfold flatten_entry. rewrite flattenJson_obj.
      apply (flatten_props_complete ps key0 k c); [exact G|].
      intros out'. rewrite Forall_forall in IH.
      apply (IH (k, c) G (join_key key0 k) out' path x Hl Hx).
Qed.

(** X1: the keys of the flat map are the joined paths of the leaves of
    the tree.  For an object tree whose objects have pairwise distinct
    keys, every entry [flattenJson] returns holds a value that is not a
    plain object, found in the tree by walking some path of property
    names whose joined key is the key of the entry; and for every path
    that leads to such a value the flat map has the joined key.  (No key
    written to the flat map is [__proto__].) *)
Theorem flatten_keys_are_the_leaf_paths (ps : object) :
  distinct_keys (VObj ps) = true ->
  forallb ordinary_key (keys (flatten (VObj ps))) = true ->
  (forall key x,
      In (key, x) (flatten (VObj ps)) ->
      exists path,
        path <> [] /\ path_key path = key /\
        lookup_path path (VObj ps) = Some x /\ is_plain_object x = false) /\
  (forall path x,
      lookup_path path (VObj ps) = Some x -> is_plain_object x = false ->
      hasOwn (path_key path) (flatten (VObj ps)) = true).
Proof.
  intros Hwf _. split.
  - intros key x Hin.
    destruct (flatten_entry_sound (VObj ps) Hwf "" [] key x Hin)
      as [[]|(path & Hk & Hl & Hx)].
    exists path. split; [|split; [now symmetry | split; assumption]].
    intros ->. simpl in Hl. injection Hl as <-. discriminate.
  - intros path x Hl Hx.
    apply (flatten_entry_complete (VObj ps) "" [] path x Hl Hx).
Qed.

Lemma flatten_keys_are_the_leaf_paths_witness :
  (exists path,
      path <> [] /\ path_key path = "login.title" /\
      lookup_path path (VObj [("login", VObj [("title", VStr "Login")]);
                              ("tags", VArr [VStr "a"])]) = Some (VStr "Login")) /\
  hasOwn (path_key ["tags"])
         (flatten (VObj [("login", VObj [("title", VStr "Login")]);
                         ("tags", VArr [VStr "a"])])) = true.
Proof.
  destruct (flatten_keys_are_the_leaf_paths
              [("login", VObj [("title", VStr "Login")]); ("tags", VArr [VStr "a"])]
              eq_refl eq_refl) as [Hs Hc].
  split.
  - destruct (Hs "login.title" (VStr "Login")) as (path & Hne & Hk & Hl & _).
    + left. reflexivity.
    + exists path. auto.
  - apply (Hc ["tags"] (VArr [VStr "a"])); reflexivity.
Defined.

(** *** The result of flattenJson is a flat map *)

Lemma keys_obj_set k v o :
  keys (obj_set k v o) = if hasOwn k o then keys o else keys o ++ [k].
Proof.
  induction o as [|[k' v'] o IH]; simpl; [reflexivity|].
  destruct (String.eqb k k'); simpl; [reflexivity|].
  rewrite IH. now destruct (hasOwn k o).
Qed.

Lemma NoDup_obj_set k v o : NoDup (keys o) -> NoDup (keys (obj_set k v o)).
Proof.
  intros Hnd. rewrite keys_obj_set. destruct (hasOwn k o) eqn:E; [exact Hnd|].
  apply hasOwn_false in E.
  apply NoDup_app; [exact Hnd | repeat constructor; intros [] | ].
  intros x Hx [<-|[]]. contradiction.
Qed.

Lemma leaf_values_obj_set k v o :
  is_plain_object v = false -> leaf_values o = true ->
  leaf_values (obj_set k v o) = true.
Proof.
  unfold leaf_values. rewrite !forallb_forall. intros Hv Ho [key x] Hin.
  apply In_obj_set in Hin as [E|Hin].
  - injection E as -> ->. simpl. now rewrite Hv.
  - now apply Ho.
Qed.

Lemma flatten_props_flat qs key0 :
  Forall (fun kv => keeps_flat (snd kv)) qs ->
  forall out,
    NoDup (keys out) -> leaf_values out = true ->
    NoDup (keys (flatten_props qs key0 out)) /\
    leaf_values (flatten_props qs key0 out) = true.
Proof.
  induction 1 as [|[k c] qs Hc Hqs IH]; intros out Hnd Hl; [now split|].
  rewrite flatten_props_step.
  destruct (Hc (join_key key0 k) out Hnd Hl) as [Hnd' Hl'].
  now apply IH.
Qed.

Lemma flatten_entry_flat v : keeps_flat v.
Proof.
  induction v as [v Hleaf | ps IH] using value_tree_ind; intros key0 out Hnd Hl.
  - rewrite (flatten_entry_of_leaf _ _ _ Hleaf). split.
    + now apply NoDup_obj_set.
    + now apply leaf_values_obj_set.
  - unfold flatten_entry. rewrite flattenJson_obj.
    now apply flatten_props_flat.
Qed.

Lemma all_keep_flat (qs : object) : Forall (fun kv => keeps_flat (snd kv)) qs.
Proof. apply Forall_forall. intros kv _. apply flatten_entry_flat. Qed.

(** *** The walk of an array at the root *)

Lemma flatten_items_indexed vs prefix : forall i out,
  flatten_items i vs prefix out = flatten_props (indexed i vs) prefix out.
Proof.
  induction vs as [|v vs IH]; intros i out; [reflexivity|].
  cbn [flatten_items indexed]. rewrite flatten_props_step. apply IH.
Qed.

Lemma flattenJson_arr items prefix out :
  flattenJson (VArr items) prefix out = flatten_items 0 items prefix out.
Proof.
  simpl. generalize 0%nat. revert out.
  induction items as [|v items IH]; intros out i; [reflexivity|].
  cbn [flatten_items]. rewrite <- IH. reflexivity.
Qed.

Lemma flatten_is_flat t :
  NoDup (keys (flatten t)) /\ leaf_values (flatten t) = true.
Proof.
  unfold flatten. destruct t as [| | | | |items|ps];
    try (split; [constructor | reflexivity]).
  - rewrite flattenJson_arr, flatten_items_indexed.
    apply flatten_props_flat; [apply all_keep_flat | constructor | reflexivity].
  - rewrite flattenJson_obj.
    apply flatten_props_flat; [apply all_keep_flat | constructor | reflexivity].
Qed.

(** Flattening a flat map copies it. *)
Lemma flatten_props_of_flat o :
  leaf_values o = true ->
  forall out, NoDup (keys out ++ keys o) -> flatten_props o "" out = out ++ o.
Proof.
  induction o as [|[k v] o IH]; intros Hl out Hnd.
  - simpl. now rewrite app_nil_r.
  - simpl in Hl. apply andb_true_iff in Hl as [Hv Hl].
    apply negb_true_iff in Hv. cbn [snd] in Hv.
    rewrite flatten_props_step. cbn [join_key].
    rewrite (flatten_entry_leaf v k out Hv).
    + rewrite (IH Hl).
      * now rewrite <- app_assoc.
      * unfold keys in *. rewrite map_app, <- app_assoc. exact Hnd.
    + apply hasOwn_false. intros Hin.
      apply NoDup_remove_2 in Hnd. apply Hnd. apply in_or_app. now left.
Qed.

(** X2: the result of [flattenJson] is a flat map, and flattening it again
    changes nothing.  For every value, no value of the returned map is a
    plain object, and [flattenJson] applied to the returned map returns
    that same map.  (No key written to the flat map is [__proto__].) *)
Theorem flatten_is_idempotent (t : value) :
  forallb ordinary_key (keys (flatten t)) = true ->
  leaf_values (flatten t) = true /\
  flatten (VObj (flatten t)) = flatten t.
Proof.
  intros _. destruct (flatten_is_flat t) as [Hnd Hl]. split; [exact Hl|].
  unfold flatten at 1. rewrite flattenJson_obj.
  now rewrite (flatten_props_of_flat _ Hl []).
Qed.

Lemma flatten_is_idempotent_witness :
  flatten (VObj (flatten (VObj [("login", VObj [("title", VStr "Login")]);
                                ("tags", VArr [VStr "a"])]))) =
  [("login.title", VStr "Login"); ("tags", VArr [VStr "a"])].
Proof.
  rewrite (proj2 (flatten_is_idempotent
                    (VObj [("login", VObj [("title", VStr "Login")]);
                           ("tags", VArr [VStr "a"])]) eq_refl)).
  reflexivity.
Defined.

(** *** Index keys *)

Lemma string_of_uint_digits d : all_digits (NilEmpty.string_of_uint d) = true.
Proof. induction d; simpl; auto. Qed.

Lemma all_digits_dotfree s : all_digits s = true -> dotfree s = true.
Proof.
  induction s as [|c s IH]; simpl; [reflexivity|].
  rewrite andb_true_iff. intros [Hc Hs]. rewrite (IH Hs), andb_true_r.
  apply negb_true_iff. destruct (Ascii.eqb_spec c "."); [|reflexivity].
  subst. discriminate.
Qed.

Lemma all_digits_ordinary s : all_digits s = true -> ordinary_key s = true.
Proof.
  intros H. unfold ordinary_key. apply negb_true_iff.
  destruct (String.eqb_spec s "__proto__"); [|reflexivity].
  subst. discriminate.
Qed.

Lemma index_key_plain i : plain_key (index_key i) = true.
Proof.
  unfold plain_key, index_key.
  rewrite (all_digits_dotfree _ (string_of_uint_digits _)).
  now rewrite (all_digits_ordinary _ (string_of_uint_digits _)).
Qed.

Lemma index_key_inj i j : index_key i = index_key j -> i = j.
Proof.
  unfold index_key. intros H.
  apply (f_equal NilEmpty.uint_of_string) in H.
  rewrite !NilEmpty.usu in H. injection H as H.
  now apply Unsigned.to_uint_inj.
Qed.

Lemma keys_indexed items : forall i,
  keys (indexed i items) = map index_key (seq i (List.length items)).
Proof.
  induction items as [|v items IH]; intros i; [reflexivity|].
  simpl. now rewrite IH.
Qed.

Lemma NoDup_keys_indexed i items : NoDup (keys (indexed i items)).
Proof.
  rewrite keys_indexed. apply NoDup_map_inj; [exact index_key_inj | apply seq_NoDup].
Qed.

Lemma leaf_values_indexed items : forall i,
  forallb (fun v => negb (is_plain_object v)) items = true ->
  leaf_values (indexed i items) = true.
Proof.
  induction items as [|v items IH]; intros i H; [reflexivity|].
  simpl in *. apply andb_true_iff in H as [Hv H]. now rewrite Hv, IH.
Qed.

(** A flat map with dot-free keys unflattens to itself. *)
Lemma unflatten_dotfree o : forall acc,
  NoDup (keys acc ++ keys o) ->
  forallb dotfree (keys o) = true ->
  unflatten_from (VObj acc) o = Ok (VObj (acc ++ o)).
Proof.
  induction o as [|[k v] o IH]; intros acc Hnd Hd.
  - simpl. now rewrite app_nil_r.
  - simpl in Hd. apply andb_true_iff in Hd as [Hk Hd].
    cbn [unflatten_from]. rewrite (split_dot_plain _ Hk).
    rewrite set_path_leaf.
    + cbn [bind]. rewrite IH; [now rewrite <- app_assoc | | exact Hd].
      unfold keys in *. rewrite map_app, <- app_assoc. exact Hnd.
    + apply hasOwn_false. intros Hin.
      apply NoDup_remove_2 in Hnd. apply Hnd. apply in_or_app. now left.
Qed.

(** X3: an array at the root is walked by index, and comes back as an
    object.  For an array whose elements are not plain objects,
    [flattenJson] returns the elements under the keys "0", "1", ... in
    order, and [unflattenJson] of that map returns the object with these
    keys, not the array. *)
Theorem root_array_comes_back_as_object (items : list value) :
  forallb (fun v => negb (is_plain_object v)) items = true ->
  flatten (VArr items) = indexed 0 items /\
  unflattenJson (flatten (VArr items)) = Ok (VObj (indexed 0 items)).
Proof.
  intros Hl.
  assert (flatten (VArr items) = indexed 0 items) as E.
  { unfold flatten. rewrite flattenJson_arr, flatten_items_indexed.
    apply (flatten_props_of_flat _ (leaf_values_indexed items 0 Hl) []).
    apply NoDup_keys_indexed. }
  split; [exact E|]. rewrite E. unfold unflattenJson.
  apply (unflatten_dotfree (indexed 0 items) []).
  - apply NoDup_keys_indexed.
  - rewrite keys_indexed. apply forallb_forall. intros k Hin.
    apply in_map_iff in Hin as [i [<- _]].
    apply plain_key_dotfree, index_key_plain.
Qed.

Lemma root_array_comes_back_as_object_witness :
  unflattenJson (flatten (VArr [VStr "Hello"; VArr [VNum 1]; VNull])) =
  Ok (VObj [("0", VStr "Hello"); ("1", VArr [VNum 1]); ("2", VNull)]).
Proof.
  apply (proj2 (root_array_comes_back_as_object
                  [VStr "Hello"; VArr [VNum 1]; VNull] eq_refl)).
Defined.

(** *** Paths *)

Lemma is_prefix_refl p : is_prefix p p = true.
Proof. induction p as [|x p IH]; simpl; [reflexivity|]. now rewrite String.eqb_refl. Qed.

Lemma is_prefix_trans p : forall q r,
  is_prefix p q = true -> is_prefix q r = true -> is_prefix p r = true.
Proof.
  induction p as [|x p IH]; intros q r Hpq Hqr; [reflexivity|].
  destruct q as [|y q]; [discriminate|]. destruct r as [|z r]; [discriminate|].
  simpl in *. apply andb_true_iff in Hpq as [Hxy Hpq].
  apply andb_true_iff in Hqr as [Hyz Hqr].
  apply String.eqb_eq in Hxy, Hyz. subst.
  rewrite String.eqb_refl. simpl. now apply (IH q r).
Qed.

Lemma apart_sym p q : apart p q = apart q p.
Proof. unfold apart. apply andb_comm. Qed.

Lemma apart_cons x p q : apart (x :: p) (x :: q) = apart p q.
Proof. unfold apart. simpl. now rewrite String.eqb_refl. Qed.

Lemma apart_nil_r p : apart p [] = false.
Proof. unfold apart. simpl. apply andb_false_r. Qed.

(** *** Own properties, read and written *)

Lemma obj_get_set_other k part x o :
  k <> part -> obj_get k (obj_set part x o) = obj_get k o.
Proof.
  intros Hne. induction o as [|[k' v'] o IH]; simpl.
  - destruct (String.eqb_spec k part); [contradiction | reflexivity].
  - destruct (String.eqb_spec part k') as [->|Hpk]; simpl.
    + destruct (String.eqb_spec k k'); [contradiction | reflexivity].
    + now rewrite IH.
Qed.

Lemma hasOwn_obj_get k o : hasOwn k o = true -> exists c, obj_get k o = Some c.
Proof.
  induction o as [|[k' v'] o IH]; simpl; [discriminate|].
  destruct (String.eqb k k'); [eauto | exact IH].
Qed.

Lemma not_hasOwn_obj_get k o : hasOwn k o = false -> obj_get k o = None.
Proof.
  induction o as [|[k' v'] o IH]; simpl; [reflexivity|].
  destruct (String.eqb k k'); [discriminate | exact IH].
Qed.

Lemma obj_set_twice k x y o : obj_set k x (obj_set k y o) = obj_set k x o.
Proof.
  induction o as [|[k' v'] o IH]; simpl.
  - now rewrite String.eqb_refl.
  - destruct (String.eqb_spec k k') as [->|Hne]; simpl.
    + now rewrite String.eqb_refl.
    + destruct (String.eqb_spec k k'); [contradiction|]. now rewrite IH.
Qed.

(** *** What is on the way to a node is an object *)

Lemma lookup_prefix_object q : forall p t v,
  lookup_path p t = Some v -> is_prefix q p = true ->
  exists n, lookup_path q t = Some n /\
            (is_prefix p q = false -> is_plain_object n = true).
Proof.
  induction q as [|y q IH]; intros p t v Hl Hq.
  - exists t. split; [reflexivity|]. intros Hp.
    destruct p as [|x p]; [discriminate|].
    destruct t; try discriminate. reflexivity.
  - destruct p as [|x p]; [discriminate|]. simpl in Hq.
    apply andb_true_iff in Hq as [Hyx Hq]. apply String.eqb_eq in Hyx. subst y.
    simpl in Hl. destruct t as [| | | | | |props]; try discriminate.
    destruct (obj_get x props) as [c|] eqn:G; [|discriminate].
    destruct (IH p c v Hl Hq) as (n & Hn & Hobj).
    exists n. split; [simpl; now rewrite G|].
    simpl. rewrite String.eqb_refl. exact Hobj.
Qed.

(** *** One write on a path that is free *)

Lemma set_path_fresh parts : forall props v,
  parts <> [] -> walkable (VObj props) parts ->
  exists props',
    set_path (VObj props) parts v = Ok (VObj props') /\
    lookup_path parts (VObj props') = Some v /\
    (forall q, apart parts q = true ->
               lookup_path q (VObj props') = lookup_path q (VObj props)) /\
    (forall q n, q <> [] -> lookup_path q (VObj props') = Some n ->
                 is_prefix q parts = true \/ is_prefix parts q = true \/
                 lookup_path q (VObj props) = Some n).
Proof.
  induction parts as [|part rest IH]; intros props v Hne Hw; [congruence|].
  destruct rest as [|p2 rest].
  - (* the leaf *)
    assert (hasOwn part props = false) as Hfree.
    { destruct (hasOwn part props) eqn:E; [|reflexivity].
      apply hasOwn_obj_get in E as [c Hc].
      destruct (Hw [part] c) as [Hp _].
      - discriminate.
      - apply is_prefix_refl.
      - simpl. now rewrite Hc.
      - rewrite is_prefix_refl in Hp. discriminate. }
    exists (obj_set part v props). split; [|split; [|split]].
    + simpl. now rewrite Hfree.
    + simpl. now rewrite obj_get_set_same.
    + intros q Hq. destruct q as [|k q]; [now rewrite apart_nil_r in Hq|].
      simpl. destruct (String.eqb_spec k part) as [->|Hk].
      * unfold apart in Hq. simpl in Hq. rewrite String.eqb_refl in Hq. discriminate.
      * now rewrite (obj_get_set_other _ _ _ _ Hk).
    + intros q n Hq Hl. destruct q as [|k q]; [congruence|].
      destruct (String.eqb_spec k part) as [->|Hk].
      * right. left. simpl. now rewrite String.eqb_refl.
      * right. right. simpl in *. now rewrite (obj_get_set_other _ _ _ _ Hk) in Hl.
  - (* an inner part *)
    set (tail := p2 :: rest) in *.
    assert (tail <> []) as Htail by discriminate.
    rewrite (set_path_inner props part tail v Htail). cbv zeta.
    set (props1 := if hasOwn part props then props
                   else obj_set part (VObj []) props).
    assert (exists cps,
               obj_get part props1 = Some (VObj cps) /\
               (forall k, k <> part -> obj_get k props1 = obj_get k props) /\
               (forall x, obj_set part x props1 = obj_set part x props) /\
               (forall q, q <> [] ->
                          lookup_path (part :: q) (VObj props) = lookup_path q (VObj cps)))
      as (cps & Hget & Hother & Hset & Hbelow).
    { unfold props1. destruct (hasOwn part props) eqn:E.
      - apply hasOwn_obj_get in E as [c Hc].
        destruct (Hw [part] c) as [_ Hobj].
        + discriminate.
        + simpl. now rewrite String.eqb_refl.
        + simpl. now rewrite Hc.
        + destruct c as [| | | | | |cps]; try discriminate.
          exists cps. split; [exact Hc|]. split; [reflexivity|].
          split; [reflexivity|]. intros q _. simpl. now rewrite Hc.
      - exists []. split; [apply obj_get_set_same|].
        split; [intros k Hk; now apply obj_get_set_other|].
        split; [intros x; apply obj_set_twice|].
        intros q Hq. simpl. rewrite (not_hasOwn_obj_get _ _ E).
        destruct q; [congruence | reflexivity]. }
    rewrite Hget.
    destruct (IH cps v Htail) as (cps' & Hs & Hl & Hfar & Hnew).
    { intros q n Hq Hpre Hn. rewrite <- (Hbelow q Hq) in Hn.
      destruct (Hw (part :: q) n) as [Hp Hobj].
      - discriminate.
      - simpl. now rewrite String.eqb_refl.
      - exact Hn.
      - simpl in Hp. rewrite String.eqb_refl in Hp. now split. }
    rewrite Hs. cbn [bind]. rewrite Hset.
    exists (obj_set part (VObj cps') props). split; [reflexivity|].
    split; [|split].
    + simpl. rewrite obj_get_set_same. exact Hl.
    + intros q Hq. destruct q as [|k q]; [now rewrite apart_nil_r in Hq|].
      destruct (String.eqb_spec k part) as [->|Hk].
      * rewrite apart_cons in Hq.
        assert (q <> []) as Hqne by (intros ->; now rewrite apart_nil_r in Hq).
        rewrite (Hbelow q Hqne). simpl. rewrite obj_get_set_same.
        apply (Hfar q Hq).
      * simpl. now rewrite (obj_get_set_other _ _ _ _ Hk).
    + intros q n Hq Hn. destruct q as [|k q]; [congruence|].
      destruct (String.eqb_spec k part) as [->|Hk].
      * simpl in Hn. rewrite obj_get_set_same in Hn.
        destruct q as [|k2 q].
        { left. simpl. now rewrite String.eqb_refl. }
        destruct (Hnew (k2 :: q) n) as [H|[H|H]]; [discriminate | exact Hn | | |].
        -- left. simpl. now rewrite String.eqb_refl.
        -- right. left. simpl. now rewrite String.eqb_refl.
        -- right. right. rewrite Hbelow; [exact H | discriminate].
      * right. right. simpl in *. now rewrite (obj_get_set_other _ _ _ _ Hk) in Hn.
Qed.

(** *** The outer loop *)

Lemma prefix_free_inv p paths :
  prefix_free (p :: paths) = true ->
  (forall q, In q paths -> apart p q = true) /\ prefix_free paths = true.
Proof.
  simpl. rewrite andb_true_iff, forallb_forall. tauto.
Qed.

Lemma unflatten_from_places rest : forall done props,
  (forall k v, In (k, v) done -> lookup_path (split_dot k) (VObj props) = Some v) ->
  (forall q n, q <> [] -> lookup_path q (VObj props) = Some n ->
     exists k v, In (k, v) done /\
                 (is_prefix q (split_dot k) = true \/
                  is_prefix (split_dot k) q = true)) ->
  (forall k v k' v', In (k, v) done -> In (k', v') rest ->
                     apart (split_dot k') (split_dot k) = true) ->
  prefix_free (map split_dot (keys rest)) = true ->
  exists t,
    unflatten_from (VObj props) rest = Ok t /\
    forall k v, In (k, v) (done ++ rest) -> lookup_path (split_dot k) t = Some v.
Proof.
  induction rest as [|[k v] rest IH]; intros done props H1 H2 Hap Hpf.
  - exists (VObj props). split; [reflexivity|]. intros k v Hin.
    rewrite app_nil_r in Hin. now apply H1.
  - cbn [keys map fst] in Hpf. apply prefix_free_inv in Hpf as [Hk Hpf].
    destruct (set_path_fresh (split_dot k) props v (split_dot_nonempty k))
      as (props' & Hs & Hl & Hfar & Hnew).
    { intros q n Hq Hpre Hn.
      destruct (H2 q n Hq Hn) as (k0 & v0 & Hin0 & Hcmp).
      pose proof (Hap k0 v0 k v Hin0 (or_introl eq_refl)) as Ha.
      unfold apart in Ha. apply andb_true_iff in Ha as [Ha1 Ha2].
      apply negb_true_iff in Ha1, Ha2.
      assert (is_prefix (split_dot k0) q = false) as Hnot.
      { destruct (is_prefix (split_dot k0) q) eqn:E; [|reflexivity].
        rewrite (is_prefix_trans _ _ _ E Hpre) in Ha2. discriminate. }
      destruct Hcmp as [Hcmp|Hcmp]; [|congruence].
      split.
      - destruct (is_prefix (split_dot k) q) eqn:E; [|reflexivity].
        rewrite (is_prefix_trans _ _ _ E Hcmp) in Ha1. discriminate.
      - destruct (lookup_prefix_object q (split_dot k0) (VObj props) v0
                    (H1 k0 v0 Hin0) Hcmp) as (n' & Hn' & Hobj).
        rewrite Hn in Hn'. injection Hn' as <-. now apply Hobj. }
    cbn [unflatten_from]. rewrite Hs. cbn [bind].
    destruct (IH (done ++ [(k, v)]) props') as (t & Ht & Hall).
    + intros k1 v1 Hin. apply in_app_or in Hin as [Hin|[E|[]]].
      * rewrite Hfar; [now apply H1|].
        apply (Hap k1 v1 k v Hin). now left.
      * injection E as <- <-. exact Hl.
    + intros q n Hq Hn. destruct (Hnew q n Hq Hn) as [H|[H|H]].
      * exists k, v. split; [apply in_or_app; right; now left | now left].
      * exists k, v. split; [apply in_or_app; right; now left | now right].
      * destruct (H2 q n Hq H) as (k0 & v0 & Hin0 & Hcmp).
        exists k0, v0. split; [apply in_or_app; now left | exact Hcmp].
    + intros k1 v1 k' v' Hin Hin'. apply in_app_or in Hin as [Hin|[E|[]]].
      * apply (Hap k1 v1 k' v' Hin). now right.
      * injection E as <- <-. rewrite apart_sym. apply Hk.
        apply in_map. apply in_map_iff. now exists (k', v').
    + exact Hpf.
    + exists t. split; [exact Ht|]. intros k1 v1 Hin.
      apply Hall. rewrite <- app_assoc. exact Hin.
Qed.

(** X4: where no key path is an initial part of another, [unflattenJson]
    returns and puts every value at its path.  For a flat map in which no
    key, split on the dots, is an initial part of another key split on
    the dots (no two keys are equal, then), [unflattenJson] returns a
    tree, and walking that tree along the parts of any key of the map
    leads to the value of that key.  (No part of a key is [__proto__].) *)
Theorem unflatten_places_every_entry (flat : object) :
  prefix_free (map split_dot (keys flat)) = true ->
  forallb ordinary_path (keys flat) = true ->
  exists t,
    unflattenJson flat = Ok t /\
    forall k v, In (k, v) flat -> lookup_path (split_dot k) t = Some v.
Proof.
  intros Hpf _. unfold unflattenJson.
  apply (unflatten_from_places flat [] []).
  - intros k v [].
  - intros q n Hq Hl. destruct q as [|x q]; [congruence | discriminate].
  - intros k v k' v' [].
  - exact Hpf.
Qed.

Lemma unflatten_places_every_entry_witness :
  exists t,
    unflattenJson [("login.title", VStr "Login"); ("login.hint.short", VStr "Go");
                   ("logout", VStr "Bye")] = Ok t /\
    lookup_path ["login"; "hint"; "short"] t = Some (VStr "Go").
Proof.
  destruct (unflatten_places_every_entry
              [("login.title", VStr "Login"); ("login.hint.short", VStr "Go");
               ("logout", VStr "Bye")] eq_refl eq_refl) as (t & Ht & Hall).
  exists t. split; [exact Ht|].
  apply (Hall "login.hint.short" (VStr "Go")). right. now left.
Defined.

(** *** What the pattern matches *)

Lemma match_name_spec s : forall name after,
  match_name s = Some (name, after) ->
  is_placeholder_name name /\ s = (name ++ "}" ++ after)%string.
Proof.
  induction s as [|c s IH]; intros name after; simpl; [discriminate|].
  destruct (is_brace c) eqn:Ec; [discriminate|].
  destruct s as [|c' s']; [discriminate|].
  destruct (Ascii.eqb_spec c' "}") as [->|Hc'].
  - intros H. injection H as <- <-. repeat split; [discriminate|].
    simpl. now rewrite Ec.
  - destruct (match_name (String c' s')) as [[n a]|] eqn:E; [|discriminate].
    intros H. injection H as <- <-.
    destruct (IH n a eq_refl) as [[Hne Hnb] Hs]. repeat split.
    + discriminate.
    + simpl. now rewrite Ec, Hnb.
    + simpl. now rewrite Hs.
Qed.

Lemma match_name_complete name after :
  is_placeholder_name name ->
  match_name (name ++ "}" ++ after) = Some (name, after).
Proof.
  intros [Hne Hnb]. induction name as [|c n IH]; [congruence|].
  simpl in Hnb. apply andb_true_iff in Hnb as [Hc Hn].
  apply negb_true_iff in Hc.
  destruct n as [|c2 n2].
  - simpl. now rewrite Hc.
  - assert (match_name (String c2 n2 ++ "}" ++ after) = Some (String c2 n2, after))
      as E by (apply IH; [discriminate | exact Hn]).
    change (String c (String c2 n2) ++ "}" ++ after)%string
      with (String c (String c2 n2 ++ "}" ++ after))%string.
    cbn [match_name]. rewrite Hc.
    change (String c2 n2 ++ "}" ++ after)%string
      with (String c2 (n2 ++ "}" ++ after))%string in *.
    simpl in Hn. apply andb_true_iff in Hn as [Hc2 _].
    apply negb_true_iff in Hc2. unfold is_brace in Hc2.
    apply orb_false_iff in Hc2 as [_ Hc2]. rewrite Hc2.
    now rewrite E.
Qed.

Lemma regex_exec_sound s : forall name after,
  regex_exec s = Some (name, after) ->
  is_placeholder_name name /\
  exists pre, s = (pre ++ "{" ++ name ++ "}" ++ after)%string.
Proof.
  induction s as [|c s IH]; intros name after; simpl; [discriminate|].
  destruct (Ascii.eqb_spec c "{") as [->|Hc].
  - destruct (match_name s) as [[n a]|] eqn:E.
    + intros H. injection H as <- <-.
      apply match_name_spec in E as [Hn Hs]. split; [exact Hn|].
      exists "". simpl. now rewrite Hs.
    + intros H. destruct (IH _ _ H) as [Hn [pre Hs]]. split; [exact Hn|].
      exists (String "{" pre). simpl. now rewrite Hs.
  - intros H. destruct (IH _ _ H) as [Hn [pre Hs]]. split; [exact Hn|].
    exists (String c pre). simpl. now rewrite Hs.
Qed.

(** A run without braces that ends on [}] ends before the next [{]. *)
Lemma first_brace n1 : forall pre0 a1 x,
  no_brace n1 = true ->
  (n1 ++ "}" ++ a1 = pre0 ++ "{" ++ x)%string ->
  exists pre', pre0 = (n1 ++ "}" ++ pre')%string /\ a1 = (pre' ++ "{" ++ x)%string.
Proof.
  induction n1 as [|c n IH]; intros pre0 a1 x Hnb H.
  - destruct pre0 as [|c0 p]; simpl in H; [discriminate|].
    injection H as <- ->. now exists p.
  - simpl in Hnb. apply andb_true_iff in Hnb as [Hc Hn].
    destruct pre0 as [|c0 p]; simpl in H.
    + injection H as -> _. discriminate.
    + injection H as <- H. destruct (IH p a1 x Hn H) as (pre' & -> & ->).
      now exists pre'.
Qed.

(** The leftmost match is found, and no occurrence of a braced name is
    skipped: it is the match or lies after it. *)
Lemma regex_exec_complete name post : is_placeholder_name name ->
  forall pre,
  exists name' after',
    regex_exec (pre ++ "{" ++ name ++ "}" ++ post) = Some (name', after') /\
    (name' = name \/
     exists pre', after' = (pre' ++ "{" ++ name ++ "}" ++ post)%string).
Proof.
  intros Hname. induction pre as [|c pre IH].
  - exists name, post. split; [|now left].
    change ("" ++ "{" ++ name ++ "}" ++ post)%string
      with (String "{" (name ++ "}" ++ post))%string.
    cbn [regex_exec]. rewrite Ascii.eqb_refl.
    now rewrite (match_name_complete name post Hname).
  - destruct IH as (n0 & a0 & E0 & H0).
    change (String c pre ++ "{" ++ name ++ "}" ++ post)%string
      with (String c (pre ++ "{" ++ name ++ "}" ++ post))%string.
    cbn [regex_exec]. destruct (Ascii.eqb c "{").
    + destruct (match_name (pre ++ "{" ++ name ++ "}" ++ post)) as [[n1 a1]|] eqn:E.
      * exists n1, a1. split; [reflexivity|]. right.
        apply match_name_spec in E as [[_ Hnb] Hs]. symmetry in Hs.
        destruct (first_brace n1 pre a1 _ Hnb Hs) as (pre' & _ & Ha).
        now exists pre'.
      * exists n0, a0. split; assumption.
    + exists n0, a0. split; assumption.
Qed.

(** *** What the loop collects *)

Lemma set_add_In x y set : In x (set_add y set) <-> x = y \/ In x set.
Proof.
  unfold set_add. destruct (set_has y set) eqn:E.
  - apply set_has_In in E. split; [now right | intros [->|H]; assumption].
  - rewrite in_app_iff. simpl. split; [intros [H|[H|[]]] | intros [H|H]]; auto.
Qed.

Lemma set_add_NoDup y set : NoDup set -> NoDup (set_add y set).
Proof.
  intros Hnd. unfold set_add. destruct (set_has y set) eqn:E; [exact Hnd|].
  apply NoDup_app; [exact Hnd | repeat constructor; intros [] |].
  intros x Hx [<-|[]]. apply set_has_In in Hx. congruence.
Qed.

Lemma exec_loop_NoDup turns : forall s set,
  NoDup set -> NoDup (exec_loop turns s set).
Proof.
  induction turns as [|turns IH]; intros s set Hnd; simpl; [exact Hnd|].
  destruct (regex_exec s) as [[name after]|]; [|exact Hnd].
  apply IH. now apply set_add_NoDup.
Qed.

Lemma exec_loop_keeps turns : forall s set x,
  In x set -> In x (exec_loop turns s set).
Proof.
  induction turns as [|turns IH]; intros s set x Hin; simpl; [exact Hin|].
  destruct (regex_exec s) as [[name after]|]; [|exact Hin].
  apply IH. apply set_add_In. now right.
Qed.

Lemma occurs_after name pre n1 after :
  occurs_braced name after ->
  occurs_braced name (pre ++ "{" ++ n1 ++ "}" ++ after).
Proof.
  intros (p & q & ->). exists (pre ++ "{" ++ n1 ++ "}" ++ p)%string, q.
  now rewrite !append_assoc.
Qed.

Lemma exec_loop_sound turns : forall s set name,
  In name (exec_loop turns s set) ->
  In name set \/ (is_placeholder_name name /\ occurs_braced name s).
Proof.
  induction turns as [|turns IH]; intros s set name Hin; simpl in Hin; [now left|].
  destruct (regex_exec s) as [[n1 a1]|] eqn:E; [|now left].
  apply regex_exec_sound in E as [Hn1 [pre Hs]].
  apply IH in Hin as [Hin|[Hname Hocc]].
  - apply set_add_In in Hin as [->|Hin]; [|now left].
    right. split; [exact Hn1|]. now exists pre, a1.
  - right. split; [exact Hname|]. rewrite Hs. now apply occurs_after.
Qed.

Lemma exec_loop_complete n : forall s set turns name,
  String.length s <= n -> String.length s <= turns ->
  is_placeholder_name name -> occurs_braced name s ->
  In name (exec_loop turns s set).
Proof.
  induction n as [|n IH]; intros s set turns name Hn Hle Hname (pre & post & Hs).
  - destruct s; [|simpl in Hn; lia]. destruct pre; discriminate.
  - destruct turns as [|turns].
    { destruct s; [|simpl in Hle; lia]. destruct pre; discriminate. }
    destruct (regex_exec_complete name post Hname pre) as (n1 & a1 & E & H).
    rewrite <- Hs in E. cbn [exec_loop]. rewrite E.
    destruct H as [->|[pre' Ha]].
    + apply exec_loop_keeps. apply set_add_In. now left.
    + apply regex_exec_shorter in E.
      apply (IH a1); [lia | lia | exact Hname | now exists pre', post].
Qed.

(** X5: the placeholders of a string are the names it holds in braces.
    [extractPlaceholders] lists no name twice, and a name is listed
    exactly when it is not empty, holds no brace, and occurs in the
    string between [{] and [}]. *)
Theorem placeholders_are_the_braced_names (s name : string) :
  NoDup (extractPlaceholders (VStr s)) /\
  (In name (extractPlaceholders (VStr s)) <->
   name <> "" /\ no_brace name = true /\
   exists pre post, s = (pre ++ "{" ++ name ++ "}" ++ post)%string).
Proof.
  cbn [extractPlaceholders]. split; [apply exec_loop_NoDup; constructor|].
  split.
  - intros Hin. apply exec_loop_sound in Hin as [[]|[[Hne Hnb] Hocc]].
    split; [exact Hne | split; [exact Hnb | exact Hocc]].
  - intros (Hne & Hnb & Hocc).
    apply (exec_loop_complete (String.length s)); try lia; [now split | exact Hocc].
Qed.

(** *** Substrings *)

Lemma substring_full s : substring 0 (String.length s) s = s.
Proof. induction s as [|c s IH]; simpl; [reflexivity | now rewrite IH]. Qed.

Lemma substring_split s : forall a,
  a <= String.length s ->
  s = (substring 0 a s ++ substring a (String.length s - a) s)%string.
Proof.
  induction s as [|c s IH]; intros a Ha.
  - simpl in Ha. assert (a = 0) as -> by lia. reflexivity.
  - destruct a as [|a].
    + cbn [String.length Nat.sub substring]. now rewrite substring_full.
    + cbn [String.length Nat.sub substring]. simpl in Ha.
      cbn [append]. f_equal. apply IH. lia.
Qed.

Lemma substring_skip p : forall m x,
  substring (String.length p) m (p ++ x) = substring 0 m x.
Proof. induction p as [|c p IH]; intros m x; simpl; [reflexivity | apply IH]. Qed.

Lemma length_append p : forall x,
  String.length (p ++ x) = String.length p + String.length x.
Proof. induction p as [|c p IH]; intros x; simpl; [reflexivity | now rewrite IH]. Qed.

(** *** The S3 URI *)

Lemma until_slash_spec s : forall b rest,
  until_slash s = Some (b, rest) <->
  slash_free b = true /\ s = (b ++ "/" ++ rest)%string.
Proof.
  induction s as [|c s IH]; intros b rest; simpl.
  - split; [discriminate|]. intros [_ H]. destruct b; discriminate.
  - destruct (Ascii.eqb_spec c "/") as [->|Hc].
    + split.
      * intros H. injection H as <- <-. now split.
      * intros [Hb H]. destruct b as [|c0 b]; simpl in H.
        -- injection H as <-. reflexivity.
        -- injection H as <- _. simpl in Hb. discriminate.
    + destruct (until_slash s) as [[a r]|] eqn:E.
      * split.
        -- intros H. injection H as <- <-.
           destruct (proj1 (IH a r) eq_refl) as [Ha Hs]. split.
           ++ simpl. rewrite Ha, andb_true_r. apply negb_true_iff.
              now apply Ascii.eqb_neq.
           ++ simpl. now rewrite Hs.
        -- intros [Hb H]. destruct b as [|c0 b]; simpl in H.
           ++ injection H as -> _. congruence.
           ++ injection H as <- H. simpl in Hb.
              apply andb_true_iff in Hb as [_ Hb].
              pose proof (proj2 (IH b rest) (conj Hb H)) as E'.
              injection E' as -> ->. reflexivity.
      * split; [discriminate|]. intros [Hb H].
        destruct b as [|c0 b]; simpl in H.
        -- injection H as -> _. congruence.
        -- injection H as <- H. simpl in Hb.
           apply andb_true_iff in Hb as [_ Hb].
           pose proof (proj2 (IH b rest) (conj Hb H)). discriminate.
Qed.

Lemma scheme_prefix uri :
  String.eqb (substring 0 5 uri) "s3://" = true ->
  exists x, uri = ("s3://" ++ x)%string.
Proof.
  intros H. apply String.eqb_eq in H.
  destruct uri as [|c1 [|c2 [|c3 [|c4 [|c5 x]]]]]; simpl in H; try discriminate.
  injection H as -> -> -> -> ->. now exists x.
Qed.

Lemma scheme_keep x : substring 0 5 ("s3://" ++ x)%string = "s3://".
Proof. destruct x; reflexivity. Qed.

Lemma scheme_strip x :
  substring 5 (String.length ("s3://" ++ x) - 5) ("s3://" ++ x) = x.
Proof. simpl. rewrite Nat.sub_0_r. apply substring_full. Qed.

(** X6: the pattern for an S3 URI takes the bucket up to the first [/]
    and the rest as the key.  [parse_s3_uri] returns a bucket and a key
    exactly for the URIs [s3://bucket/key] in which the bucket is not
    empty and holds no [/], and the key is not empty and holds no line
    terminator; the URI is then the bucket and the key put together
    again, as [putJsonl] and [_s3OutputUri] build it. *)
Theorem s3_uri_splits_at_first_slash (uri b k : string) :
  parse_s3_uri uri = Some (b, k) <->
  uri = ("s3://" ++ b ++ "/" ++ k)%string /\
  b <> "" /\ slash_free b = true /\ k <> "" /\ has_line_terminator k = false.
Proof.
  unfold parse_s3_uri. split.
  - destruct (String.eqb (substring 0 5 uri) "s3://") eqn:E; [|discriminate].
    apply scheme_prefix in E as [x ->]. rewrite scheme_strip.
    destruct (until_slash x) as [[b0 r0]|] eqn:Eu; [|discriminate].
    apply until_slash_spec in Eu as [Hb ->].
    destruct (String.eqb_spec b0 "") as [->|Hb0]; [discriminate|].
    destruct (String.eqb_spec r0 "") as [->|Hr0]; [discriminate|].
    destruct (has_line_terminator r0) eqn:Et; [discriminate|].
    cbn [orb]. intros H. injection H as <- <-. repeat split; assumption.
  - intros (-> & Hb & Hs & Hk & Ht).
    rewrite scheme_keep, String.eqb_refl, scheme_strip.
    rewrite (proj2 (until_slash_spec _ b k) (conj Hs eq_refl)).
    rewrite (proj2 (String.eqb_neq _ _) Hb), (proj2 (String.eqb_neq _ _) Hk), Ht.
    reflexivity.
Qed.

(** *** The choice of the result object *)

Lemma ends_with_out_spec key : ends_with_out key = true <-> has_out_suffix key.
Proof.
  unfold ends_with_out, has_out_suffix. cbv zeta. split.
  - rewrite andb_true_iff. intros [Hn Hs].
    apply Nat.leb_le in Hn. apply String.eqb_eq in Hs.
    exists (substring 0 (String.length key - 4) key).
    pose proof (substring_split key (String.length key - 4) ltac:(lia)) as Hsplit.
    replace (String.length key - (String.length key - 4)) with 4 in Hsplit by lia.
    rewrite Hs in Hsplit. exact Hsplit.
  - intros [p ->]. rewrite length_append. simpl String.length.
    apply andb_true_iff. split; [apply Nat.leb_le; lia|].
    replace (String.length p + 4 - 4) with (String.length p) by lia.
    rewrite substring_skip. reflexivity.
Qed.

Lemma find_first {A} (f : A -> bool) l : forall x,
  find f l = Some x ->
  exists l1 l2, l = l1 ++ x :: l2 /\ f x = true /\ forall y, In y l1 -> f y = false.
Proof.
  induction l as [|a l IH]; intros x; simpl; [discriminate|].
  destruct (f a) eqn:E.
  - intros H. injection H as <-. exists [], l. repeat split; [exact E | intros y []].
  - intros H. destruct (IH x H) as (l1 & l2 & -> & Hx & Hl1).
    exists (a :: l1), l2. repeat split; [exact Hx|].
    intros y [<-|Hy]; [exact E | now apply Hl1].
Qed.

(** X7: the result object is the first one whose key ends in [.out], and
    the first one listed when no key does.  [pick_output] finds nothing
    exactly when the listing is missing or empty; what it picks is a key
    of the listing: one that ends in [.out] with no such key before it,
    or, when no listed key ends in [.out], the first key. *)
Theorem output_object_is_first_out_or_first (files : option (list string)) :
  (pick_output files = None <-> files = None \/ files = Some []) /\
  (forall key,
      pick_output files = Some key ->
      exists l,
        files = Some l /\
        ((exists l1 l2, l = l1 ++ key :: l2 /\ has_out_suffix key /\
                        forall k, In k l1 -> ~ has_out_suffix k) \/
         (exists l2, l = key :: l2 /\ forall k, In k l -> ~ has_out_suffix k))).
Proof.
  unfold pick_output. cbv zeta. split.
  - destruct files as [[|k l]|]; simpl.
    + split; [now right | reflexivity].
    + destruct (ends_with_out k); [|destruct (find ends_with_out l)];
        (split; [discriminate | intros [H|H]; discriminate]).
    + split; [now left | reflexivity].
  - intros key H. destruct files as [l|]; [|discriminate].
    exists l. split; [reflexivity|].
    destruct (find ends_with_out l) as [k|] eqn:E.
    + injection H as ->. apply find_first in E as (l1 & l2 & -> & Hk & Hl1).
      left. exists l1, l2. split; [reflexivity|].
      split; [now apply ends_with_out_spec|].
      intros k Hin Hs. apply ends_with_out_spec in Hs.
      rewrite (Hl1 k Hin) in Hs. discriminate.
    + right. destruct l as [|k l]; [discriminate|]. injection H as ->.
      exists l. split; [reflexivity|].
      intros k Hin Hs. apply ends_with_out_spec in Hs.
      rewrite (find_none _ _ E k Hin) in Hs. discriminate.
Qed.

(** *** fetchBatchResults *)




(** *** The polling loop, event by event *)

Section PollingTrace.

Variable W : env.
Variable jobId : string.
Variable pollMs : nat.

Lemma wait_turn_pending turns st d :
  tr_job_status W jobId (polls_of jobId (events st)) = Ok d ->
  is_terminal (JobStatus d) = false ->
  waitForBatchCompletion W (S turns) jobId pollMs st =
  waitForBatchCompletion W turns jobId pollMs
    (mkState (events st ++ pending_events jobId pollMs d)
             (totalPairs st) (completedPairs st)).
Proof.
  intros Hd Ht. unfold is_terminal in Ht.
  apply orb_false_iff in Ht as [Ht E3]. apply orb_false_iff in Ht as [E1 E2].
  cbn [waitForBatchCompletion]. unfold mbind at 1 2 3, request, writeLog, record. cbn.
  rewrite Hd. cbn. rewrite E1, E2, E3. cbn. f_equal.
  unfold add_event. cbn [events totalPairs completedPairs].
  now rewrite <- !app_assoc.
Qed.

Lemma wait_turn_final turns st last :
  tr_job_status W jobId (polls_of jobId (events st)) = last ->
  (forall d, last = Ok d -> is_terminal (JobStatus d) = true) ->
  waitForBatchCompletion W (S turns) jobId pollMs st =
  Some (final_outcome jobId last,
        mkState (events st ++ final_events jobId last)
                (totalPairs st) (completedPairs st)).
Proof.
  intros Hl Ht. cbn [waitForBatchCompletion].
  unfold mbind at 1. unfold request. cbv zeta. rewrite Hl.
  destruct last as [d|e|]; try reflexivity.
  specialize (Ht d eq_refl). unfold is_terminal in Ht.
  unfold mbind, writeLog, record, final_outcome, terminal_outcome. cbn.
  destruct (String.eqb (JobStatus d) "COMPLETED") eqn:E1; cbn.
  - unfold add_event. cbn [events totalPairs completedPairs].
    now rewrite <- app_assoc.
  - cbn in Ht. rewrite Ht. cbn.
    unfold add_event. cbn [events totalPairs completedPairs].
    now rewrite <- app_assoc.
Qed.

Lemma polls_of_pending t d :
  polls_of jobId (t ++ pending_events jobId pollMs d) = S (polls_of jobId t).
Proof. rewrite polls_of_app. simpl. rewrite String.eqb_refl. lia. Qed.

Lemma wait_trace ds : forall st last turns,
  (forall i d, nth_error ds i = Some d ->
     tr_job_status W jobId (polls_of jobId (events st) + i) = Ok d /\
     is_terminal (JobStatus d) = false) ->
  tr_job_status W jobId (polls_of jobId (events st) + List.length ds) = last ->
  (forall d, last = Ok d -> is_terminal (JobStatus d) = true) ->
  List.length ds < turns ->
  exists st',
    waitForBatchCompletion W turns jobId pollMs st =
      Some (final_outcome jobId last, st') /\
    events st' =
      events st ++ flat_map (pending_events jobId pollMs) ds
                ++ final_events jobId last.
Proof.
  induction ds as [|d0 ds IH]; intros st last turns Hds Hlast Hterm Hlt.
  - destruct turns as [|turns]; [simpl in Hlt; lia|].
    simpl in Hlast. rewrite Nat.add_0_r in Hlast.
    rewrite (wait_turn_final turns st last Hlast Hterm).
    eexists. split; [reflexivity|]. reflexivity.
  - destruct turns as [|turns]; [simpl in Hlt; lia|].
    destruct (Hds 0 d0 eq_refl) as [Hd0 Ht0]. rewrite Nat.add_0_r in Hd0.
    rewrite (wait_turn_pending turns st d0 Hd0 Ht0).
    set (st1 := mkState (events st ++ pending_events jobId pollMs d0)
                        (totalPairs st) (completedPairs st)).
    destruct (IH st1 last turns) as (st' & E & Hev).
    + intros i d Hi. unfold st1. cbn [events]. rewrite polls_of_pending.
      replace (S (polls_of jobId (events st)) + i)
        with (polls_of jobId (events st) + S i) by lia.
      now apply Hds.
    + unfold st1. cbn [events]. rewrite polls_of_pending. rewrite <- Hlast.
      f_equal. simpl. lia.
    + exact Hterm.
    + simpl in Hlt. lia.
    + exists st'. split; [exact E|]. rewrite Hev. unfold st1. cbn [events flat_map].
      now rewrite <- !app_assoc.
Qed.

End PollingTrace.

(** X9: the polling loop asks, logs the status, and sleeps [pollMs]
    before it asks again; it ends on the first answer that is a terminal
    status or a rejection.  Let the answers to the successive status
    requests of a job be the non-terminal statuses [ds], followed by an
    answer [last] that is a terminal status or no status at all.  Then,
    with enough turns, the events of the wait are, for each status of
    [ds] in order, the request, the log entry of that status and the
    timer, followed by the last request, with its log entry when it was
    answered; a rejected request is not sent again: the loop throws its
    error. *)
Theorem wait_sleeps_between_polls
        (W : env) (jobId : string) (pollMs : nat) (st : state)
        (ds : list job_details) (last : result job_details) (turns : nat) :
  (forall i d, nth_error ds i = Some d ->
     tr_job_status W jobId (polls_of jobId (events st) + i) = Ok d /\
     is_terminal (JobStatus d) = false) ->
  tr_job_status W jobId (polls_of jobId (events st) + List.length ds) = last ->
  (forall d, last = Ok d -> is_terminal (JobStatus d) = true) ->
  List.length ds < turns ->
  exists st',
    waitForBatchCompletion W turns jobId pollMs st =
      Some (match last with
            | Ok d => terminal_outcome jobId d
            | Throw e => Throw e
            | Unsupported => Unsupported
            end, st') /\
    events st' =
      events st ++ flat_map (pending_events jobId pollMs) ds
                ++ final_events jobId last.
Proof. intros Hds Hlast Hterm Hlt. now apply wait_trace. Qed.

Lemma wait_sleeps_between_polls_witness :
  exists st',
    waitForBatchCompletion polling_world 3 "job-1" 4000 start_state =
      Some (Ok (mkDetails "COMPLETED" None), st') /\
    calls_of (events st') =
      [call_describeTextTranslationJob "job-1"; call_setTimeout 4000;
       call_describeTextTranslationJob "job-1"; call_setTimeout 4000;
       call_describeTextTranslationJob "job-1"].
Proof.
  destruct (wait_sleeps_between_polls polling_world "job-1" 4000 start_state
              [mkDetails "PENDING" None; mkDetails "RUNNING" None]
              (Ok (mkDetails "COMPLETED" None)) 3)
    as (st' & E & Hev).
  - intros i d Hi. destruct i as [|[|i]]; simpl in Hi.
    + injection Hi as <-. split; reflexivity.
    + injection Hi as <-. split; reflexivity.
    + destruct i; discriminate.
  - reflexivity.
  - intros d H. injection H as <-. reflexivity.
  - simpl. lia.
  - exists st'. split; [exact E|]. rewrite Hev. reflexivity.
Defined.

(** *** The cleanup helpers of the gateway *)

(** X10: the cleanup step of the runner does what the two cleanup
    helpers of the gateway do one after the other, except for the tests
    before the calls.  Where [AwsS3] has [listFiles] and [deleteFiles],
    the inline cleanup of [translateModuleLocale] and
    [deleteInputObject] followed by [deleteOutputPrefix] send the same
    requests and end the same way from every state.  Where [listFiles] is
    missing, the inline cleanup skips the output objects and returns,
    while [deleteOutputPrefix] throws a TypeError before any request. *)
Theorem cleanup_step_matches_gateway_helpers
        (W : env) (C : config) (inputKey outputPrefix : string) (st : state) :
  (s3_has_listFiles W = true -> s3_has_deleteFiles W = true ->
   s3_cleanup W C inputKey outputPrefix st =
   (deleteInputObject W (bucket C) inputKey ;;;
    deleteOutputPrefix W (bucket C) outputPrefix) st) /\
  (s3_has_listFiles W = false ->
   deleteOutputPrefix W (bucket C) outputPrefix st =
     Some (Throw (not_a_function "AwsS3.listFiles"), st) /\
   s3_cleanup W C inputKey outputPrefix st =
     (if s3_has_deleteFile W
      then request (call_deleteFile (bucket C) inputKey)
                   (fun t => s3_deleteFile W t (bucket C) inputKey)
      else ret tt) st).
Proof.
  split.
  - intros Hl Hd. unfold s3_cleanup, deleteInputObject, deleteOutputPrefix.
    rewrite Hl, Hd. cbn [andb].
    destruct (s3_has_deleteFile W).
    + unfold mbind, request, ret. cbv zeta.
      destruct (s3_deleteFile W (events st) (bucket C) inputKey) as [[]| |];
        reflexivity.
    + reflexivity.
  - intros Hl. unfold s3_cleanup, deleteOutputPrefix. rewrite Hl. cbn [andb].
    split; [reflexivity|].
    destruct (s3_has_deleteFile W).
    + unfold mbind, request. cbv zeta.
      destruct (s3_deleteFile W (events st) (bucket C) inputKey) as [[]| |];
        reflexivity.
    + reflexivity.
Qed.

Lemma cleanup_step_matches_gateway_helpers_witness :
  outcome_and_calls
    ((deleteInputObject calm_world "bucket" "in/uid.jsonl" ;;;
      deleteOutputPrefix calm_world "bucket" "out/auth/vi/") start_state) =
  outcome_and_calls (s3_cleanup calm_world sample_config "in/uid.jsonl"
                                "out/auth/vi/" start_state).
Proof.
  rewrite (proj1 (cleanup_step_matches_gateway_helpers
                    calm_world sample_config "in/uid.jsonl" "out/auth/vi/"
                    start_state) eq_refl eq_refl).
  reflexivity.
Defined.

(** *** Validation of a map against itself *)

Lemma filter_none {A} (f : A -> bool) l :
  (forall x, In x l -> f x = false) -> filter f l = [].
Proof.
  induction l as [|a l IH]; intros H; simpl; [reflexivity|].
  rewrite (H a (or_introl eq_refl)). apply IH. intros x Hx. apply H. now right.
Qed.

Lemma flat_map_none {A B} (f : A -> list B) l :
  (forall x, In x l -> f x = []) -> flat_map f l = [].
Proof.
  induction l as [|a l IH]; intros H; simpl; [reflexivity|].
  rewrite (H a (or_introl eq_refl)). apply IH. intros x Hx. apply H. now right.
Qed.

Lemma set_minus_self a : set_minus a a = [].
Proof.
  unfold set_minus. apply filter_none. intros p Hp.
  apply negb_false_iff. now apply set_has_In.
Qed.

(** X11: a map validated against itself passes.  For every flat map,
    [validateKeyAndPlaceholderParity] with that map as source and as
    target returns [ok] true and no error. *)
Theorem identical_maps_pass_validation (flat : object) :
  validateKeyAndPlaceholderParity flat flat = mkValidation true [].
Proof.
  unfold validateKeyAndPlaceholderParity. cbv zeta.
  rewrite (filter_none (fun key => negb (hasOwn key flat)) (keys flat)).
  - rewrite (flat_map_none (placeholder_item flat flat) (keys flat)); [reflexivity|].
    intros key _. unfold placeholder_item. cbv zeta.
    now rewrite set_minus_self.
  - intros key Hin. apply negb_false_iff. now apply hasOwn_In.
Qed.

(** *** The keys of the map the fallback builds *)

Lemma sync_translate_keys (W : env) lang lines : forall acc st out st',
  sync_translate W lines lang acc st = Some (Ok out, st') ->
  map fst out = map fst acc ++ keys lines.
Proof.
  induction lines as [|[key text] lines IH]; intros acc st out st' H.
  - cbn [sync_translate] in H. injection H as <- _. simpl. now rewrite app_nil_r.
  - cbn [sync_translate] in H. unfold mbind at 1 in H.
    destruct (translateText W text lang st) as [[[t| |] st1]|]; try discriminate.
    apply IH in H. rewrite H, map_app. simpl. now rewrite <- app_assoc.
Qed.

Lemma hasOwn_fold_set (out : list (string * string)) : forall acc k,
  hasOwn k (fold_left (fun flat r => obj_set (fst r) (VStr (snd r)) flat) out acc) =
  hasOwn k acc || existsb (String.eqb k) (map fst out).
Proof.
  induction out as [|[k0 t0] out IH]; intros acc k; simpl.
  - now rewrite orb_false_r.
  - rewrite IH, hasOwn_obj_set. now rewrite orb_assoc, (orb_comm (hasOwn k acc)).
Qed.

Lemma hasOwn_flat_of out k :
  hasOwn k (flat_of out) = true <-> In k (map fst out).
Proof.
  unfold flat_of. rewrite hasOwn_fold_set. simpl.
  rewrite existsb_exists. split.
  - intros [x [Hin Hx]]. apply String.eqb_eq in Hx. now subst.
  - intros Hin. exists k. split; [exact Hin | apply String.eqb_refl].
Qed.

(** X12: on the per-string path, validation can fail only on
    placeholders.  When the fallback loop returns for the lines of a
    flat source, the map made of its results has exactly the keys of the
    source, so that every error [validateKeyAndPlaceholderParity] reports
    for the pair is a placeholder mismatch: no key is ever missing or
    extra.  (No key of the flat source is [__proto__].) *)
Theorem fallback_fails_validation_only_on_placeholders
        (W : env) (json : value) (lang : string) (st : state)
        (out : list (string * string)) (st' : state) :
  forallb ordinary_key (keys (flatten json)) = true ->
  sync_translate W (flatten json) lang [] st = Some (Ok out, st') ->
  (forall k, hasOwn k (flat_of out) = hasOwn k (flatten json)) /\
  (forall e,
      In e (errors (validateKeyAndPlaceholderParity (flatten json) (flat_of out))) ->
      exists items, e = placeholder_mismatch items).
Proof.
  intros _ H. apply sync_translate_keys in H. simpl in H.
  assert (forall k, hasOwn k (flat_of out) = hasOwn k (flatten json)) as Hkeys.
  { intros k. destruct (hasOwn k (flatten json)) eqn:E.
    - apply hasOwn_flat_of. rewrite H. now apply hasOwn_In.
    - destruct (hasOwn k (flat_of out)) eqn:E'; [|reflexivity].
      apply hasOwn_flat_of in E'. rewrite H in E'. apply hasOwn_In in E'. congruence. }
  split; [exact Hkeys|].
  intros e He. apply errors_In in He as [[_ Hne]|[[_ Hne]|[-> _]]].
  - elim Hne. unfold missing_list. apply filter_none. intros k Hk.
    apply negb_false_iff. rewrite Hkeys. now apply hasOwn_In.
  - elim Hne. unfold extra_list. apply filter_none. intros k Hk.
    apply negb_false_iff. rewrite <- Hkeys. now apply hasOwn_In.
  - eauto.
Qed.

Lemma fallback_fails_validation_only_on_placeholders_witness :
  hasOwn "msg" (flat_of [("msg", "Xin chao")]) = hasOwn "msg" (flatten greeting) /\
  (forall e,
      In e (errors (validateKeyAndPlaceholderParity
                      (flatten greeting) (flat_of [("msg", "Xin chao")]))) ->
      exists items, e = placeholder_mismatch items).
Proof.
  destruct (fallback_fails_validation_only_on_placeholders
              placeholder_dropping_world greeting "vi" start_state
              [("msg", "Xin chao")]
              (add_event start_state
                         (Called (call_translateText "Hi {name}" "vi") None))
              eq_refl eq_refl) as [Hkeys Herr].
  split; [apply Hkeys | exact Herr].
Defined.

(** *** The events of the work on one pair *)

Section PairEvents.

Variable W : env.
Variable C : config.

Lemma post_try_batch allowed turns mod_name tf ta iu ou lines :
  (forall l, allowed (Logged l) = true) ->
  always (try_batch W C turns mod_name tf ta iu ou lines) (post_with allowed).
Proof.
  intros Hlog st. destruct (batch_enabled C) eqn:E.
  - rewrite (try_batch_enabled _ _ _ _ _ _ _ _ _ _ E).
    eexists _, _. split; [reflexivity|]. repeat split.
    eexists [_]. repeat split; auto. intros c e [H|[]]. discriminate.
  - rewrite (try_batch_disabled _ _ _ _ _ _ _ _ _ _ E).
    destruct (post_ret allowed (A := option object) None st) as (r & st' & E' & H).
    injection E' as <- <-. eexists _, _. split; [reflexivity | exact H].
Qed.

Lemma classified_sync_translate o lang lines : forall acc,
  always (sync_translate W lines lang acc) (post_with (pair_event o)).
Proof.
  induction lines as [|[key text] lines IH]; intros acc; cbn [sync_translate].
  - apply post_ret.
  - apply post_bind; [unfold translateText; post_steps | intros t; apply IH].
Qed.

Lemma classified_s3_cleanup o ik op :
  always (s3_cleanup W C ik op) (post_with (pair_event o)).
Proof.
  unfold s3_cleanup. apply post_bind.
  - destruct (s3_has_deleteFile W); post_steps.
  - intros _. destruct (s3_has_listFiles W && s3_has_deleteFiles W); post_steps.
    match goal with |- always (match ?f with _ => _ end) _ =>
      destruct f as [[|? ?]|] end; post_steps.
Qed.

Lemma classified_finish_pair mod_name tf jobDir ik op fs tflat :
  always (finish_pair W C mod_name tf jobDir ik op fs tflat)
         (post_with (pair_event (_localOut W jobDir mod_name tf))).
Proof.
  unfold finish_pair. cbv zeta.
  apply post_bind; [post_steps | intros nested].
  apply post_bind.
  { destruct (ok (validateKeyAndPlaceholderParity fs tflat)); post_steps. }
  intros _. apply post_bind.
  { destruct (ok (validateKeyAndPlaceholderParity fs tflat)); post_steps. }
  intros _. apply post_bind.
  { apply post_step; [reflexivity | reflexivity |].
    apply post_request. intros rej. apply String.eqb_refl. }
  intros _. apply post_bind; [|intros _; apply post_ret].
  apply post_step; [reflexivity | reflexivity | apply classified_s3_cleanup].
Qed.

(** Whatever happens to a pair, the work on it sends no other request
    than those of [pair_call], and swallows no rejection. *)
Lemma classified_translateModuleLocale turns mod_name enFile jobDir target :
  always (translateModuleLocale W C turns mod_name enFile jobDir target)
         (post_with (pair_event (_localOut W jobDir mod_name (folderCode target)))).
Proof.
  unfold translateModuleLocale. cbv zeta.
  apply post_bind.
  { unfold buildPayload. post_steps.
    match goal with |- context [truthy ?j] => destruct (truthy j) end; post_steps. }
  intros payload.
  apply post_bind; [apply post_get_state | intros st0].
  apply post_bind.
  { apply post_step; [reflexivity | reflexivity |].
    unfold putJsonl. destruct (s3_has_uploadFile W); post_steps. }
  intros inputUri.
  apply post_bind; [apply post_try_batch; reflexivity | intros batch].
  apply post_bind; [|intros tflat; apply classified_finish_pair].
  destruct batch as [flat|]; [apply post_ret|].
  apply post_bind; [|intros out; apply post_ret].
  apply post_step; [reflexivity | reflexivity | apply classified_sync_translate].
Qed.

End PairEvents.

(** *** Computations that add only allowed events *)

Section Only.

Variable allowed : event -> bool.

Lemma only_of_post {A} (m : M A) :
  always m (post_with allowed) -> always m (only allowed).
Proof.
  intros Hm st. destruct (Hm st) as (r & st' & E & _ & _ & new & Hev & Hin & _).
  exists r, st'. split; [exact E|]. now exists new.
Qed.

Lemma only_ret {A} (a : A) : always (ret a) (only allowed).
Proof.
  intros st. exists (Ok a), st. split; [reflexivity|].
  exists []. rewrite app_nil_r. split; [reflexivity | constructor].
Qed.

Lemma only_get_state : always get_state (only allowed).
Proof.
  intros st. exists (Ok st), st. split; [reflexivity|].
  exists []. rewrite app_nil_r. split; [reflexivity | constructor].
Qed.

Lemma only_set_counters t c : always (set_counters t c) (only allowed).
Proof.
  intros st. eexists _, _. split; [reflexivity|].
  exists []. cbn [events]. rewrite app_nil_r. split; [reflexivity | constructor].
Qed.

Lemma only_log fl act msg dat crit :
  (forall l, allowed (Logged l) = true) ->
  always (_log fl act msg dat crit) (only allowed).
Proof.
  intros Hlog st. eexists _, _. split; [reflexivity|].
  eexists [_]. split; [reflexivity|]. repeat constructor. apply Hlog.
Qed.

Lemma only_bind {A B} (m : M A) (f : A -> M B) :
  always m (only allowed) -> (forall a, always (f a) (only allowed)) ->
  always (mbind m f) (only allowed).
Proof.
  intros Hm Hf st. destruct (Hm st) as (r & st1 & E & new & Hev & Hin).
  unfold mbind. rewrite E. destruct r as [a|e|].
  - destruct (Hf a st1) as (r2 & st2 & E2 & new2 & Hev2 & Hin2).
    exists r2, st2. split; [exact E2|]. exists (new ++ new2). split.
    + rewrite Hev2, Hev. now rewrite app_assoc.
    + apply Forall_app. now split.
  - exists (Throw e), st1. split; [reflexivity|]. now exists new.
  - exists Unsupported, st1. split; [reflexivity|]. now exists new.
Qed.

Lemma only_try_catch {A} (m : M A) (handler : error -> M A) :
  always m (only allowed) -> (forall e, always (handler e) (only allowed)) ->
  always (try_catch m handler) (only allowed).
Proof.
  intros Hm Hh st. destruct (Hm st) as (r & st1 & E & new & Hev & Hin).
  unfold try_catch. rewrite E. destruct r as [a|e|].
  - exists (Ok a), st1. split; [reflexivity|]. now exists new.
  - destruct (Hh e st1) as (r2 & st2 & E2 & new2 & Hev2 & Hin2).
    exists r2, st2. split; [exact E2|]. exists (new ++ new2). split.
    + rewrite Hev2, Hev. now rewrite app_assoc.
    + apply Forall_app. now split.
  - exists Unsupported, st1. split; [reflexivity|]. now exists new.
Qed.

Lemma only_then_finally {A} (m : M A) (fin : M unit) :
  always m (only allowed) -> always fin (only allowed) ->
  always (then_finally m fin) (only allowed).
Proof.
  intros Hm Hf st. destruct (Hm st) as (r & st1 & E & new & Hev & Hin).
  destruct (Hf st1) as (r2 & st2 & E2 & new2 & Hev2 & Hin2).
  unfold then_finally. rewrite E, E2.
  assert (exists new0, events st2 = events st ++ new0 /\
                       Forall (fun e => allowed e = true) new0) as Hall.
  { exists (new ++ new2). split.
    - rewrite Hev2, Hev. now rewrite app_assoc.
    - apply Forall_app. now split. }
  destruct r2 as [[]|e|]; eexists _, _; (split; [reflexivity | exact Hall]).
Qed.

End Only.

(** *** The events of a run *)

Lemma existsb_none {A} (l : list A) : existsb (fun _ => false) l = false.
Proof. induction l; simpl; auto. Qed.

Lemma pair_event_in_run o outputs e :
  In o outputs -> pair_event o e = true -> run_event outputs e = true.
Proof.
  intros Hin. destruct e as [l|c rej]; simpl; [reflexivity|].
  intros Hc. apply orb_true_iff. right. apply existsb_exists. now exists o.
Qed.

Lemma run_event_not_batch outputs c rej :
  run_event outputs (Called c rej) = true -> batch_call c = false.
Proof.
  destruct c; simpl; try reflexivity; now rewrite existsb_none.
Qed.


Section RunEvents.

Variable W : env.
Variable C : config.
Variable turns : nat.
Variable jobDir : string.
Variable outputs : list string.

Lemma run_event_log : forall l, run_event outputs (Logged l) = true.
Proof. reflexivity. Qed.

Lemma only_progressTick extra : always (_progressTick W extra) (only (run_event outputs)).
Proof.
  unfold _progressTick. apply only_bind; [apply only_get_state | intros st0].
  apply only_log. exact run_event_log.
Qed.

Lemma only_run_pair m target :
  In (_localOut W jobDir (moduleName m) (folderCode target)) outputs ->
  always (run_pair W C turns jobDir m target) (only (run_event outputs)).
Proof.
  intros Hin. unfold run_pair. cbv zeta.
  apply only_bind; [apply only_log; exact run_event_log | intros _].
  apply only_then_finally.
  - apply only_try_catch.
    + apply only_bind; [|intros saved; apply only_log; exact run_event_log].
      apply only_of_post.
      apply (post_weaken (pair_event (_localOut W jobDir (moduleName m)
                                                (folderCode target)))).
      * intros e. now apply pair_event_in_run.
      * apply classified_translateModuleLocale.
    + intros e. apply only_log. exact run_event_log.
  - apply only_bind; [apply only_get_state | intros st0].
    apply only_bind; [apply only_set_counters | intros _].
    apply only_progressTick.
Qed.

Lemma only_run_targets m ts :
  (forall t, In t ts ->
             In (_localOut W jobDir (moduleName m) (folderCode t)) outputs) ->
  always (run_targets W C turns jobDir m ts) (only (run_event outputs)).
Proof.
  induction ts as [|t ts IH]; intros Hin; cbn [run_targets].
  - apply only_ret.
  - apply only_bind.
    + apply only_run_pair. apply Hin. now left.
    + intros _. apply IH. intros t' Ht'. apply Hin. now right.
Qed.

Lemma only_run_modules ms :
  (forall m t, In m ms -> In t (targets C) ->
               In (_localOut W jobDir (moduleName m) (folderCode t)) outputs) ->
  always (run_modules W C turns jobDir ms) (only (run_event outputs)).
Proof.
  induction ms as [|m ms IH]; intros Hin; cbn [run_modules].
  - apply only_ret.
  - apply only_bind.
    + apply only_run_targets. intros t Ht. apply Hin; [now left | exact Ht].
    + intros _. apply IH. intros m' t Hm' Ht. apply Hin; [now right | exact Ht].
Qed.

Lemma setup_ensureJobDir : always (ensureJobDir W C) (post_with (run_event outputs)).
Proof. unfold ensureJobDir. cbv zeta. post_steps. Qed.

Lemma setup_scan_bases bases : forall found,
  always (scan_bases W bases found) (post_with (run_event outputs)).
Proof.
  induction bases as [|base bases IH]; intros found; cbn [scan_bases].
  - apply post_ret.
  - apply post_bind; [apply post_request; intros ?; reflexivity | intros _].
    apply post_bind; [apply post_request; intros ?; reflexivity | intros mods]. apply IH.
Qed.

Lemma setup_scanAllModules : always (scanAllModules W C) (post_with (run_event outputs)).
Proof.
  unfold scanAllModules.
  apply post_bind; [apply post_log; reflexivity | intros _].
  apply post_bind; [apply post_request; intros ?; reflexivity | intros bases].
  destruct bases as [|b bases]; [apply post_throw|].
  apply post_bind; [apply setup_scan_bases | intros found]. post_steps.
Qed.

End RunEvents.

Lemma in_outputs_of W jobDir modules ts m t :
  In m modules -> In t ts ->
  In (_localOut W jobDir (moduleName m) (folderCode t)) (outputs_of W jobDir modules ts).
Proof.
  intros Hm Ht. unfold outputs_of.
  apply (in_map (fun p => _localOut W jobDir (moduleName (fst p)) (folderCode (snd p)))
                _ (m, t)).
  unfold pairs_of. apply in_flat_map. exists m. split; [exact Hm|].
  now apply in_map.
Qed.

Lemma outputs_of_inv W jobDir modules ts o :
  In o (outputs_of W jobDir modules ts) ->
  exists m t, In m modules /\ In t ts /\
              o = _localOut W jobDir (moduleName m) (folderCode t).
Proof.
  unfold outputs_of. intros H. apply in_map_iff in H as [[m t] [<- Hp]].
  unfold pairs_of in Hp. apply in_flat_map in Hp as [m' [Hm' Hp]].
  apply in_map_iff in Hp as [t' [E Ht']]. injection E as <- <-.
  now exists m', t'.
Qed.

(** Every run ends, and its events are those of a run whose output files
    are the files of the pairs of the modules found. *)
Lemma run_classified (W : env) (C : config) (turns : nat) (st : state) :
  exists r st' new outputs,
    generateBulkTranslations W C turns st = Some (r, st') /\
    events st' = events st ++ new /\
    Forall (fun e => run_event outputs e = true) new /\
    (forall o, In o outputs ->
       exists jobDir st1 modules st2 m t,
         ensureJobDir W C st = Some (Ok jobDir, st1) /\
         scanAllModules W C st1 = Some (Ok modules, st2) /\
         In m modules /\ In t (targets C) /\
         o = _localOut W jobDir (moduleName m) (folderCode t)).
Proof.
  destruct (setup_ensureJobDir W C [] st)
    as (r1 & st1 & E1 & _ & _ & new1 & Hev1 & Hin1 & _).
  destruct r1 as [jobDir|e1|].
  - destruct (setup_scanAllModules W C [] st1)
      as (r2 & st2 & E2 & _ & _ & new2 & Hev2 & Hin2 & _).
    destruct r2 as [modules|e2|].
    + set (outputs := outputs_of W jobDir modules (targets C)).
      assert (always
                (set_counters (List.length modules * List.length (targets C)) 0 ;;;
                 _progressTick W [("stage", VStr "init")] ;;;
                 _log "tr_runner_start" "announce"
                      "Runner will process (module/en) -> all target locales"
                      [("totalModules", VNum (Z.of_nat (List.length modules)));
                       ("targets", strings_value (map folderCode (targets C)))] false ;;;
                 run_modules W C turns jobDir modules ;;;
                 s <- get_state ;;
                 _log "tr_runner_end" "done" "All modules & locales processed"
                      [("jobDir", VStr jobDir); ("total", VNum (Z.of_nat (totalPairs s)));
                       ("completed", VNum (Z.of_nat (completedPairs s)))] false ;;;
                 ret jobDir)
                (only (run_event outputs))) as Hrest.
      { apply only_bind; [apply only_set_counters | intros _].
        apply only_bind; [apply only_progressTick | intros _].
        apply only_bind; [apply only_log; reflexivity | intros _].
        apply only_bind.
        { apply only_run_modules. intros m t Hm Ht. now apply in_outputs_of. }
        intros _. apply only_bind; [apply only_get_state | intros s].
        apply only_bind; [apply only_log; reflexivity | intros _].
        apply only_ret. }
      destruct (Hrest st2) as (r & st' & E & new3 & Hev3 & Hin3).
      exists r, st', (new1 ++ new2 ++ new3), outputs. split; [|split; [|split]].
      * unfold generateBulkTranslations. unfold mbind at 1. rewrite E1.
        unfold mbind at 1. rewrite E2. exact E.
      * rewrite Hev3, Hev2, Hev1. now rewrite <- !app_assoc.
      * apply Forall_app. split.
        -- eapply Forall_impl; [|exact Hin1]. intros e.
           destruct e as [l|c rej]; simpl; [reflexivity|].
           rewrite orb_false_r. intros ->. reflexivity.
        -- apply Forall_app. split; [|exact Hin3].
           eapply Forall_impl; [|exact Hin2]. intros e.
           destruct e as [l|c rej]; simpl; [reflexivity|].
           rewrite orb_false_r. intros ->. reflexivity.
      * intros o Ho. apply outputs_of_inv in Ho as (m & t & Hm & Ht & ->).
        exists jobDir, st1, modules, st2, m, t. repeat split; assumption.
    + exists (Throw e2), st2, (new1 ++ new2), []. split; [|split; [|split]].
      * unfold generateBulkTranslations. unfold mbind at 1. rewrite E1.
        unfold mbind at 1. rewrite E2. reflexivity.
      * rewrite Hev2, Hev1. now rewrite <- app_assoc.
      * apply Forall_app. now split.
      * intros o [].
    + exists Unsupported, st2, (new1 ++ new2), []. split; [|split; [|split]].
      * unfold generateBulkTranslations. unfold mbind at 1. rewrite E1.
        unfold mbind at 1. rewrite E2. reflexivity.
      * rewrite Hev2, Hev1. now rewrite <- app_assoc.
      * apply Forall_app. now split.
      * intros o [].
  - exists (Throw e1), st1, new1, []. split; [|split; [|split]].
    + unfold generateBulkTranslations. unfold mbind at 1. now rewrite E1.
    + exact Hev1.
    + exact Hin1.
    + intros o [].
  - exists Unsupported, st1, new1, []. split; [|split; [|split]].
    + unfold generateBulkTranslations. unfold mbind at 1. now rewrite E1.
    + exact Hev1.
    + exact Hin1.
    + intros o [].
Qed.

(** X13: the runner never reaches the batch service.  Whatever the
    configuration (a role may be set and the fallback not forced) and
    whatever the world answers, a run ends, and none of its requests
    starts a translation job, asks for the status of one, waits on the
    timer or reads a result object: in the [try] block, reading
    [jobName] inside the statement that declares it throws before
    [startBatch] is called, and the pair goes on with the per-string
    fallback.  The same holds for the work on one pair from any state. *)
Theorem runner_never_reaches_the_batch_service
        (W : env) (C : config) (turns : nat) (st : state) :
  (exists r st' new,
      generateBulkTranslations W C turns st = Some (r, st') /\
      events st' = events st ++ new /\
      forall c rej, In (Called c rej) new -> batch_call c = false) /\
  (forall mod_name enFile jobDir target,
      exists r st' new,
        translateModuleLocale W C turns mod_name enFile jobDir target st =
          Some (r, st') /\
        events st' = events st ++ new /\
        forall c rej, In (Called c rej) new -> batch_call c = false).
Proof.
  split.
  - destruct (run_classified W C turns st) as (r & st' & new & outputs & E & Hev & Hin & _).
    exists r, st', new. split; [exact E|]. split; [exact Hev|].
    intros c rej Hc. rewrite Forall_forall in Hin.
    apply (run_event_not_batch outputs c rej). now apply Hin.
  - intros mod_name enFile jobDir target.
    destruct (classified_translateModuleLocale W C turns mod_name enFile jobDir target st)
      as (r & st' & E & _ & _ & new & Hev & Hin & _).
    exists r, st', new. split; [exact E|]. split; [exact Hev|].
    intros c rej Hc. rewrite Forall_forall in Hin. specialize (Hin _ Hc).
    destruct c; simpl in Hin; try discriminate; reflexivity.
Qed.


(** *** Stepping back through a computation that returned *)





Section PairInversion.

Variable W : env.
Variable C : config.







End PairInversion.



(** *** What is written, whatever the outcome *)

Section Writes.

Variable G : string -> value -> Prop.





End Writes.




Section PairWrites.

Variable W : env.
Variable C : config.

Lemma cleanup_events ik op :
  always (s3_cleanup W C ik op) (post_with cleanup_event).
Proof.
  unfold s3_cleanup. apply post_bind.
  - destruct (s3_has_deleteFile W); post_steps.
  - intros _. destruct (s3_has_listFiles W && s3_has_deleteFiles W); post_steps.
    match goal with |- always (match ?f with _ => _ end) _ =>
      destruct f as [[|? ?]|] end; post_steps.
Qed.



Lemma prefix_upload sf ef act ms me dat b k lines :
  always (_step sf ef act ms me dat (putJsonl W b k lines)) (post_with prefix_event).
Proof.
  apply post_step; [reflexivity | reflexivity |].
  unfold putJsonl. destruct (s3_has_uploadFile W); post_steps.
Qed.

Lemma prefix_sync_translate lang lines : forall acc,
  always (sync_translate W lines lang acc) (post_with prefix_event).
Proof.
  induction lines as [|[key text] lines IH]; intros acc; cbn [sync_translate].
  - apply post_ret.
  - apply post_bind; [unfold translateText; post_steps | intros t; apply IH].
Qed.

Lemma prefix_buildPayload enFile :
  always (buildPayload W enFile) (post_with prefix_event).
Proof.
  unfold buildPayload. post_steps.
  match goal with |- context [truthy ?j] => destruct (truthy j) end; post_steps.
Qed.


End PairWrites.


(** * Properties of the file-system helpers *)

Lemma accessible_app a b : accessible (a ++ b) = accessible a ++ accessible b.
Proof.
  induction a as [|[c rej] a IH]; [reflexivity|].
  destruct c; simpl; try exact IH. destruct rej; simpl; [exact IH|]. now rewrite IH.
Qed.

Section FsProofs.

Variable N : node.

Lemma pathExists_spec p t :
  pathExists N p t = (Resolved true, t ++ [mkFsEvent (fs_access p) None]) \/
  exists e, pathExists N p t = (Resolved false, t ++ [mkFsEvent (fs_access p) (Some e)]).
Proof.
  unfold pathExists, fs_request. cbv zeta.
  destruct (n_access N t p) as [[]|e]; simpl; [now left | right; now exists e].
Qed.

(** X17: [readJsonSafe] gives [null] for a missing file and for a text
    that is not JSON, and throws only what the read throws.  When the
    access to the file is rejected, it returns [null] and the file is not
    read; when the file is there, it is read once: a rejected read is
    thrown to the caller, a text that [JSON.parse] refuses gives [null],
    and any other text gives its value. *)
Theorem readJsonSafe_null_or_read_error (N0 : node) (file : string) (t : list fs_event) :
  (forall e, n_access N0 t file = Rejected e ->
     readJsonSafe N0 file t =
       (Resolved VNull, t ++ [mkFsEvent (fs_access file) (Some e)])) /\
  (n_access N0 t file = Resolved tt ->
   let t1 := t ++ [mkFsEvent (fs_access file) None] in
   (forall e, n_readFile N0 t1 file = Rejected e ->
      readJsonSafe N0 file t =
        (Rejected e, t1 ++ [mkFsEvent (fs_readFile file) (Some e)])) /\
   (forall raw, n_readFile N0 t1 file = Resolved raw ->
      readJsonSafe N0 file t =
        (Resolved (match n_parse N0 raw with Some v => v | None => VNull end),
         t1 ++ [mkFsEvent (fs_readFile file) None]))).
Proof.
  split.
  - intros e He. unfold readJsonSafe, fbind, pathExists, fs_request. cbv zeta.
    now rewrite He.
  - intros Ha. cbv zeta. split.
    + intros e He. unfold readJsonSafe, fbind, pathExists, fs_request. cbv zeta.
      rewrite Ha. cbn [negb rejected_with]. now rewrite He.
    + intros raw Hr. unfold readJsonSafe, fbind, pathExists, fs_request. cbv zeta.
      rewrite Ha. cbn [negb rejected_with]. now rewrite Hr.
Qed.

(** *** scanI18nBaseDirs *)

Lemma probe_dirs_spec ds : forall existing t,
  exists new,
    probe_dirs N ds existing t = (Resolved (existing ++ accessible new), t ++ new) /\
    fs_calls new = map fs_access ds.
Proof.
  induction ds as [|d ds IH]; intros existing t.
  - exists []. simpl. rewrite !app_nil_r. now split.
  - cbn [probe_dirs]. unfold fbind.
    destruct (pathExists_spec d t) as [E|[e E]]; rewrite E.
    + destruct (IH (existing ++ [d]) (t ++ [mkFsEvent (fs_access d) None]))
        as (new & E' & Hc).
      exists (mkFsEvent (fs_access d) None :: new). split.
      * rewrite E'. rewrite <- !app_assoc. reflexivity.
      * simpl. now rewrite Hc.
    + destruct (IH existing (t ++ [mkFsEvent (fs_access d) (Some e)]))
        as (new & E' & Hc).
      exists (mkFsEvent (fs_access d) (Some e) :: new). split.
      * rewrite E'. rewrite <- !app_assoc. reflexivity.
      * simpl. now rewrite Hc.
Qed.

Lemma unique_from l : forall set,
  NoDup set ->
  NoDup (fold_left (fun s d => set_add d s) l set) /\
  (forall d, In d (fold_left (fun s d => set_add d s) l set) <-> In d set \/ In d l).
Proof.
  induction l as [|x l IH]; intros set Hnd; simpl.
  - split; [exact Hnd | intros d; tauto].
  - destruct (IH (set_add x set) (set_add_NoDup x set Hnd)) as [Hnd' Hin].
    split; [exact Hnd'|]. intros d. rewrite Hin, set_add_In.
    split; [intros [[->|H]|H] | intros [H|[->|H]]]; auto.
Qed.

Lemma unique_spec l : NoDup (unique l) /\ forall d, In d (unique l) <-> In d l.
Proof.
  destruct (unique_from l [] (NoDup_nil _)) as [Hnd Hin].
  split; [exact Hnd|]. intros d. unfold unique. rewrite Hin. simpl. tauto.
Qed.

End FsProofs.

(** X18: [scanI18nBaseDirs] never throws and returns no directory twice.
    It asks for the access to each candidate once, in order (the explicit
    directory when it is given and not empty, then [i18n] and [18n] under
    the working directory), and returns, without repetition, the
    candidates whose access was accepted: a directory given explicitly
    that is also a default comes once. *)
Theorem scanI18nBaseDirs_returns_each_directory_once
        (N : node) (explicitBaseDir : option string) (t : list fs_event) :
  exists dirs new,
    scanI18nBaseDirs N explicitBaseDir t = (Resolved dirs, t ++ new) /\
    fs_calls new = map fs_access (base_candidates N explicitBaseDir) /\
    NoDup dirs /\
    (forall d, In d dirs <-> In (mkFsEvent (fs_access d) None) new).
Proof.
  destruct (probe_dirs_spec N (base_candidates N explicitBaseDir) [] t)
    as (new & E & Hc).
  exists (unique (accessible new)), new.
  destruct (unique_spec (accessible new)) as [Hnd Hin].
  split; [|split; [exact Hc | split; [exact Hnd|]]].
  - unfold scanI18nBaseDirs, fbind. rewrite E. reflexivity.
  - intros d. rewrite Hin. clear. induction new as [|[c rej] new IH]; simpl.
    + tauto.
    + destruct c; simpl; try (rewrite IH; split; [now right | intros [H|H]; [discriminate | exact H]]).
      destruct rej as [e|]; simpl.
      * rewrite IH. split; [now right | intros [H|H]; [discriminate | exact H]].
      * rewrite IH. split.
        -- intros [->|H]; [now left | now right].
        -- intros [H|H]; [injection H as ->; now left | now right].
Qed.

(** *** scanModulesWithEnglish *)

Lemma scan_entries_spec N baseDir ents : forall results t,
  exists found new,
    scan_entries N baseDir ents results t = (Resolved (results ++ found), t ++ new) /\
    fs_calls new =
      map (fun ent => fs_access (sourceFile (module_of N baseDir ent)))
          (filter ent_isDirectory ents) /\
    map sourceFile found = accessible new /\
    (forall m, In m found ->
               exists ent, In ent ents /\ ent_isDirectory ent = true /\
                           m = module_of N baseDir ent).
Proof.
  induction ents as [|ent ents IH]; intros results t.
  - exists [], []. simpl. rewrite !app_nil_r. repeat split. intros m [].
  - cbn [scan_entries filter]. destruct (ent_isDirectory ent) eqn:Ed; cbn [negb].
    + unfold fbind.
      destruct (pathExists_spec N (sourceFile (module_of N baseDir ent)) t)
        as [E|[e E]]; rewrite E.
      * destruct (IH (results ++ [module_of N baseDir ent])
                     (t ++ [mkFsEvent (fs_access (sourceFile (module_of N baseDir ent)))
                                      None]))
          as (found & new & E' & Hc & Ha & Hm).
        exists (module_of N baseDir ent :: found),
               (mkFsEvent (fs_access (sourceFile (module_of N baseDir ent))) None :: new).
        split; [|split; [|split]].
        -- rewrite E'. rewrite <- !app_assoc. reflexivity.
        -- simpl. now rewrite Hc.
        -- cbn [map accessible]. now rewrite Ha.
        -- intros m [<-|Hin].
           ++ exists ent. split; [now left | now split].
           ++ destruct (Hm m Hin) as (ent' & H1 & H2 & H3).
              exists ent'. split; [now right | now split].
      * destruct (IH results
                     (t ++ [mkFsEvent (fs_access (sourceFile (module_of N baseDir ent)))
                                      (Some e)]))
          as (found & new & E' & Hc & Ha & Hm).
        exists found,
               (mkFsEvent (fs_access (sourceFile (module_of N baseDir ent))) (Some e)
                          :: new).
        split; [|split; [|split]].
        -- rewrite E'. rewrite <- !app_assoc. reflexivity.
        -- simpl. now rewrite Hc.
        -- cbn [accessible]. exact Ha.
        -- intros m Hin. destruct (Hm m Hin) as (ent' & H1 & H2 & H3).
           exists ent'. split; [now right | now split].
    + destruct (IH results t) as (found & new & E' & Hc & Ha & Hm).
      exists found, new. split; [exact E' | split; [exact Hc | split; [exact Ha|]]].
      intros m Hin. destruct (Hm m Hin) as (ent' & H1 & H2 & H3).
      exists ent'. split; [now right | now split].
Qed.

(** X19: [scanModulesWithEnglish] returns the sub-directories whose
    [en.json] is accessible, in the order of the listing.  A rejected
    listing is thrown to the caller.  Otherwise one access is asked for
    each entry that is a directory, for [<baseDir>/<name>/en.json], and
    none for the other entries; the modules returned are those whose
    access was accepted, in that order, each with the name of its entry
    and the paths made of it. *)
Theorem scanModulesWithEnglish_lists_directories_with_source
        (N : node) (baseDir : string) (t : list fs_event) :
  (forall e, n_readdir N t baseDir = Rejected e ->
     scanModulesWithEnglish N baseDir t =
       (Rejected e, t ++ [mkFsEvent (fs_readdir baseDir) (Some e)])) /\
  (forall entries, n_readdir N t baseDir = Resolved entries ->
     exists found probes,
       scanModulesWithEnglish N baseDir t =
         (Resolved found, t ++ mkFsEvent (fs_readdir baseDir) None :: probes) /\
       fs_calls probes =
         map (fun ent => fs_access (n_join N [n_join N [baseDir; ent_name ent]; "en.json"]))
             (filter ent_isDirectory entries) /\
       map sourceFile found = accessible probes /\
       (forall m, In m found ->
                  exists ent, In ent entries /\ ent_isDirectory ent = true /\
                              m = module_of N baseDir ent)).
Proof.
  split.
  - intros e He. unfold scanModulesWithEnglish, fbind, fs_request. cbv zeta.
    now rewrite He.
  - intros entries He.
    destruct (scan_entries_spec N baseDir entries []
                                (t ++ [mkFsEvent (fs_readdir baseDir) None]))
      as (found & probes & E & Hc & Ha & Hm).
    exists found, probes. split; [|split; [exact Hc | split; [exact Ha | exact Hm]]].
    unfold scanModulesWithEnglish, fbind, fs_request. cbv zeta. rewrite He.
    cbn [rejected_with]. rewrite E. now rewrite <- app_assoc.
Qed.

(** X20: [writeJsonPretty] writes once, after the directory of the file
    is there, and never when making it failed.  The directory of the
    file is asked for first; when it is accessible, nothing is made and
    the text [JSON.stringify(data, null, 2)] is written at once; when it
    is not, it is made first, and a rejected [mkdir] is thrown to the
    caller without any write.  What the write is rejected with is thrown
    as well. *)
Theorem writeJsonPretty_makes_the_directory_first
        (N : node) (file : string) (data : value) (t : list fs_event) :
  let dir := n_dirname N file in
  let content := n_stringify N data in
  (n_access N t dir = Resolved tt ->
   let t1 := t ++ [mkFsEvent (fs_access dir) None] in
   writeJsonPretty N file data t =
     (n_writeFile N t1 file content,
      t1 ++ [mkFsEvent (fs_writeFile file content)
                       (rejected_with (n_writeFile N t1 file content))])) /\
  (forall e, n_access N t dir = Rejected e ->
     let t1 := t ++ [mkFsEvent (fs_access dir) (Some e)] in
     (forall e', n_mkdir N t1 dir = Rejected e' ->
        writeJsonPretty N file data t =
          (Rejected e', t1 ++ [mkFsEvent (fs_mkdir dir) (Some e')])) /\
     (n_mkdir N t1 dir = Resolved tt ->
      let t2 := t1 ++ [mkFsEvent (fs_mkdir dir) None] in
      writeJsonPretty N file data t =
        (n_writeFile N t2 file content,
         t2 ++ [mkFsEvent (fs_writeFile file content)
                          (rejected_with (n_writeFile N t2 file content))]))).
Proof.
  cbv zeta. split.
  - intros Ha. unfold writeJsonPretty, ensureDir, fbind, pathExists, fs_request, fret.
    cbv zeta. rewrite Ha. reflexivity.
  - intros e Ha. split.
    + intros e' Hm.
      unfold writeJsonPretty, ensureDir, fbind, pathExists, fs_request, fret.
      cbv zeta. rewrite Ha. cbn [rejected_with]. now rewrite Hm.
    + intros Hm.
      unfold writeJsonPretty, ensureDir, fbind, pathExists, fs_request, fret.
      cbv zeta. rewrite Ha. cbn [rejected_with]. now rewrite Hm.
Qed.

(** *** The output URI of a pair *)

Lemma strip_slashes_slash x : strip_slashes (x ++ "/") = strip_slashes x.
Proof.
  induction x as [|c x IH]; [reflexivity|].
  cbn [append strip_slashes]. now rewrite IH.
Qed.

Lemma parse_built_uri b p :
  b <> "" -> slash_free b = true -> p <> "" -> has_line_terminator p = false ->
  parse_s3_uri ("s3://" ++ b ++ "/" ++ p) = Some (b, p).
Proof.
  intros Hb Hs Hp Ht. unfold parse_s3_uri.
  rewrite scheme_keep, String.eqb_refl, scheme_strip.
  rewrite (proj2 (until_slash_spec _ b p) (conj Hs eq_refl)).
  rewrite (proj2 (String.eqb_neq _ _) Hb), (proj2 (String.eqb_neq _ _) Hp), Ht.
  reflexivity.
Qed.

Lemma append_nonempty_r a b : b <> "" -> (a ++ b)%string <> "".
Proof. intros Hb. destruct a; simpl; [exact Hb | discriminate]. Qed.

(** X21: the batch results are looked for under the prefix that the
    cleanup empties, and with no bucket the URI is refused.  For a bucket
    name that is not empty and holds no [/], an output prefix without
    line terminator, and path parts that do not end in [/],
    [fetchBatchResults], given the output URI of a pair, sends as its
    first request the listing of the bucket under the output prefix of
    the pair: the request of the cleanup step.  With the empty bucket
    name, which is the default, it throws "Invalid S3 URI" before any
    request. *)
Theorem fetch_lists_the_output_prefix_of_the_pair
        (W : env) (C : config) (mod_name localeCode : string) (st : state) :
  (bucket C = "" ->
   fetchBatchResults W (_s3OutputUri C mod_name localeCode) st =
     Some (Throw (Error ("Invalid S3 URI: " ++ _s3OutputUri C mod_name localeCode)), st)) /\
  (bucket C <> "" -> slash_free (bucket C) = true ->
   has_line_terminator (_s3OutputPrefix C mod_name localeCode) = false ->
   strip_slashes (join_nonempty [outPrefix C; tsFolder C; mod_name; localeCode]) =
     join_nonempty [outPrefix C; tsFolder C; mod_name; localeCode] ->
   s3_has_listFiles W = true ->
   exists r st' rej rest,
     fetchBatchResults W (_s3OutputUri C mod_name localeCode) st = Some (r, st') /\
     events st' =
       events st
       ++ Called (call_listFiles (bucket C) (_s3OutputPrefix C mod_name localeCode)) rej
          :: rest).
Proof.
  split.
  - intros Hb. unfold fetchBatchResults, _s3OutputUri. rewrite Hb.
    unfold parse_s3_uri. rewrite scheme_keep, String.eqb_refl, scheme_strip.
    reflexivity.
  - intros Hb Hs Ht Hx Hl. unfold fetchBatchResults, _s3OutputUri.
    rewrite (parse_built_uri (bucket C) (_s3OutputPrefix C mod_name localeCode) Hb Hs);
      [|unfold _s3OutputPrefix; apply append_nonempty_r; discriminate | exact Ht].
    rewrite Hl. cbv zeta.
    assert ((strip_slashes (_s3OutputPrefix C mod_name localeCode) ++ "/")%string
            = _s3OutputPrefix C mod_name localeCode) as Hp.
    { unfold _s3OutputPrefix. now rewrite strip_slashes_slash, Hx. }
    rewrite Hp. unfold mbind at 1. unfold request at 1. cbv zeta.
    destruct (s3_listFiles W (events st) (bucket C)
                           (_s3OutputPrefix C mod_name localeCode)) as [files|e|].
    + cbn [rejection].
      match goal with |- context [add_event st ?ev] =>
        set (st1 := add_event st ev) end.
      destruct (pick_output files) as [key|].
      * unfold mbind, request. cbv zeta.
        destruct (s3_getFile W (events st1) (bucket C) key);
          eexists _, _, _, _; (split; [reflexivity|]);
          unfold st1; cbn [events add_event]; rewrite <- app_assoc; reflexivity.
      * eexists _, _, _, []. split; [reflexivity|]. reflexivity.
    + eexists _, _, _, []. split; [reflexivity|]. reflexivity.
    + eexists _, _, _, []. split; [reflexivity|]. reflexivity.
Qed.

Lemma fetch_lists_the_output_prefix_of_the_pair_witness :
  exists r st' rej rest,
    fetchBatchResults calm_world (_s3OutputUri sample_config "auth" "vi") start_state =
      Some (r, st') /\
    events st' =
      events start_state
      ++ Called (call_listFiles "bucket" "out/2026-01-01_00-00-00/auth/vi/") rej :: rest.
Proof.
  apply (proj2 (fetch_lists_the_output_prefix_of_the_pair
                  calm_world sample_config "auth" "vi" start_state));
    try reflexivity.
  discriminate.
Defined.

(** *** The name of the job folder *)

Lemma z_range_all (P : Z -> bool) lo hi :
  forallb P (z_range lo hi) = true ->
  forall z, (lo <= z <= hi)%Z -> P z = true.
Proof.
  intros H z Hz. rewrite forallb_forall in H. apply H.
  unfold z_range. apply in_map_iff. exists (Z.to_nat (z - lo)). split; [lia|].
  apply in_seq. lia.
Qed.

Lemma comparison_eqb_eq a b : comparison_eqb a b = true -> a = b.
Proof. destruct a, b; simpl; congruence. Qed.

Lemma string_compare_app a : forall b x y,
  String.length a = String.length b ->
  String.compare (a ++ x) (b ++ y) =
    match String.compare a b with
    | Eq => String.compare x y
    | c => c
    end.
Proof.
  induction a as [|c a IH]; intros [|c' b] x y Hlen; try discriminate.
  - reflexivity.
  - cbn [append String.compare]. destruct (Ascii.compare c c'); auto.
Qed.

Lemma string_compare_refl s : String.compare s s = Eq.
Proof.
  induction s as [|c s IH]; [reflexivity|]. cbn [String.compare].
  unfold Ascii.compare. now rewrite N.compare_refl.
Qed.

Lemma pad_length n : (0 <= n < 100)%Z -> String.length (pad n) = 2.
Proof.
  intros Hn. assert (0 <= n <= 99)%Z as Hn' by lia. clear Hn. rename Hn' into Hn.
  apply (z_range_all (fun n => Nat.eqb (String.length (pad n)) 2) 0 99) in Hn.
  - now apply Nat.eqb_eq.
  - vm_compute. reflexivity.
Qed.

Lemma pad_compare m n :
  (0 <= m < 100)%Z -> (0 <= n < 100)%Z ->
  String.compare (pad m) (pad n) = (m ?= n)%Z.
Proof.
  intros Hm' Hn'. assert (0 <= m <= 99)%Z as Hm by lia.
  assert (0 <= n <= 99)%Z as Hn by lia. clear Hm' Hn'.
  apply (z_range_all
           (fun m => forallb (fun n => comparison_eqb (String.compare (pad m) (pad n))
                                                      (m ?= n)%Z)
                             (z_range 0 99)) 0 99) in Hm.
  - apply comparison_eqb_eq.
    apply (z_range_all (fun n => comparison_eqb (String.compare (pad m) (pad n))
                                                (m ?= n)%Z) 0 99 Hm n Hn).
  - vm_compute. reflexivity.
Qed.

Lemma year_pads y :
  (1000 <= y <= 9999)%Z -> int_str y = (pad (y / 100) ++ pad (y mod 100))%string.
Proof.
  intros Hy.
  apply (z_range_all
           (fun y => String.eqb (int_str y) (pad (y / 100) ++ pad (y mod 100)))
           1000 9999) in Hy.
  - now apply String.eqb_eq.
  - vm_compute. reflexivity.
Qed.

Lemma year_length y : (1000 <= y <= 9999)%Z -> String.length (int_str y) = 4.
Proof.
  intros Hy. rewrite (year_pads y Hy), length_append.
  rewrite !pad_length; [reflexivity | |];
    (split; [apply Z.mod_pos_bound || apply Z.div_pos | ]); try lia.
  - apply Z.mod_pos_bound. lia.
  - apply Z.div_lt_upper_bound; lia.
Qed.

Lemma year_compare y1 y2 :
  (1000 <= y1 <= 9999)%Z -> (1000 <= y2 <= 9999)%Z ->
  String.compare (int_str y1) (int_str y2) = (y1 ?= y2)%Z.
Proof.
  intros H1 H2. rewrite (year_pads y1 H1), (year_pads y2 H2).
  assert (forall y, 1000 <= y <= 9999 -> 0 <= y / 100 < 100 /\ 0 <= y mod 100 < 100)%Z
    as Hr.
  { intros y Hy. split.
    - split; [apply Z.div_pos; lia | apply Z.div_lt_upper_bound; lia].
    - apply Z.mod_pos_bound. lia. }
  destruct (Hr y1 H1) as [Ha1 Hb1]. destruct (Hr y2 H2) as [Ha2 Hb2].
  rewrite string_compare_app by now rewrite !pad_length.
  rewrite !pad_compare by assumption.
  pose proof (Z.div_mod y1 100 ltac:(lia)) as E1.
  pose proof (Z.div_mod y2 100 ltac:(lia)) as E2.
  destruct (Z.compare_spec (y1 / 100) (y2 / 100)) as [E|L|L].
  - destruct (Z.compare_spec (y1 mod 100) (y2 mod 100)) as [E'|L'|L'];
      symmetry; [apply Z.compare_eq_iff | apply Z.compare_lt_iff | apply Z.compare_gt_iff];
      lia.
  - symmetry. apply Z.compare_lt_iff. lia.
  - symmetry. apply Z.compare_gt_iff. lia.
Qed.

Lemma four_digit_year_ranges d :
  four_digit_year d = true ->
  (1000 <= getFullYear d <= 9999 /\ 0 <= getMonth d + 1 < 100 /\
   0 <= getDate d < 100 /\ 0 <= getHours d < 100 /\
   0 <= getMinutes d < 100 /\ 0 <= getSeconds d < 100)%Z.
Proof.
  unfold four_digit_year. rewrite !andb_true_iff, !Z.leb_le. lia.
Qed.

(** X22: the name of the job folder tells the second, and names sort as
    their dates do.  For dates with a year of four digits, [_ts] returns
    19 characters; the names of two dates compare, character by
    character, as the dates do by year, month, day, hours, minutes and
    seconds; and two dates with the same name agree on all six. *)
Theorem job_folder_names_sort_by_date (d1 d2 : date) :
  four_digit_year d1 = true -> four_digit_year d2 = true ->
  String.length (_ts d1) = 19 /\
  String.compare (_ts d1) (_ts d2) = fields_compare (date_fields d1) (date_fields d2) /\
  (_ts d1 = _ts d2 -> d1 = d2).
Proof.
  intros V1 V2.
  destruct (four_digit_year_ranges d1 V1) as (Y1 & Mo1 & D1 & H1 & Mi1 & S1).
  destruct (four_digit_year_ranges d2 V2) as (Y2 & Mo2 & D2 & H2 & Mi2 & S2).
  assert (String.compare (_ts d1) (_ts d2)
          = fields_compare (date_fields d1) (date_fields d2)) as Hcmp.
  { unfold _ts, date_fields. cbn [fields_compare].
    rewrite string_compare_app by now rewrite !year_length.
    rewrite year_compare by assumption.
    rewrite (string_compare_app "-" "-") by reflexivity.
    rewrite string_compare_app by now rewrite !pad_length.
    rewrite pad_compare by assumption.
    rewrite (Z.add_comm (getMonth d1) 1), (Z.add_comm (getMonth d2) 1),
      Z.add_compare_mono_l.
    rewrite (string_compare_app "-" "-") by reflexivity.
    rewrite string_compare_app by now rewrite !pad_length.
    rewrite pad_compare by assumption.
    rewrite (string_compare_app "_" "_") by reflexivity.
    rewrite string_compare_app by now rewrite !pad_length.
    rewrite pad_compare by assumption.
    rewrite (string_compare_app "-" "-") by reflexivity.
    rewrite string_compare_app by now rewrite !pad_length.
    rewrite pad_compare by assumption.
    rewrite (string_compare_app "-" "-") by reflexivity.
    rewrite pad_compare by assumption.
    cbn [String.compare Ascii.compare].
    repeat match goal with |- context [(?a ?= ?b)%Z] =>
      destruct (a ?= b)%Z; try reflexivity end. }
  split; [|split; [exact Hcmp|]].
  - unfold _ts. rewrite !length_append, year_length, !pad_length by assumption.
    reflexivity.
  - intros E. rewrite E, string_compare_refl in Hcmp.
    destruct d1 as [y1 mo1 da1 h1 mi1 s1], d2 as [y2 mo2 da2 h2 mi2 s2].
    unfold date_fields in Hcmp. cbn [fields_compare getFullYear getMonth getDate
                                     getHours getMinutes getSeconds] in Hcmp.
    destruct (Z.compare_spec y1 y2); try discriminate.
    destruct (Z.compare_spec mo1 mo2); try discriminate.
    destruct (Z.compare_spec da1 da2); try discriminate.
    destruct (Z.compare_spec h1 h2); try discriminate.
    destruct (Z.compare_spec mi1 mi2); try discriminate.
    destruct (Z.compare_spec s1 s2); try discriminate.
    congruence.
Qed.

Lemma job_folder_names_sort_by_date_witness :
  String.length (_ts (mkDate 2026 0 1 0 0 0)) = 19 /\
  String.compare (_ts (mkDate 2026 0 1 0 0 0)) (_ts (mkDate 2026 10 2 9 5 59)) =
    fields_compare (date_fields (mkDate 2026 0 1 0 0 0))
                   (date_fields (mkDate 2026 10 2 9 5 59)) /\
  (_ts (mkDate 2026 0 1 0 0 0) = _ts (mkDate 2026 10 2 9 5 59) ->
   mkDate 2026 0 1 0 0 0 = mkDate 2026 10 2 9 5 59).
Proof.
  apply (job_folder_names_sort_by_date (mkDate 2026 0 1 0 0 0) (mkDate 2026 10 2 9 5 59));
    reflexivity.
Defined.

(** *** The verdict does not depend on which map is the source *)

Lemma flat_map_nil_inv {A B} (f : A -> list B) l :
  flat_map f l = [] -> forall x, In x l -> f x = [].
Proof.
  induction l as [|a l IH]; intros H x Hx; [destruct Hx|].
  simpl in H. apply app_eq_nil in H as [Ha Hl].
  destruct Hx as [<-|Hx]; [exact Ha | now apply IH].
Qed.

Lemma placeholder_item_swap s t k :
  placeholder_item s t k = [] -> placeholder_item t s k = [].
Proof.
  unfold placeholder_item. cbv zeta.
  destruct (set_minus (extractPlaceholders (prop_value k s))
                      (extractPlaceholders (prop_value k t)));
    destruct (set_minus (extractPlaceholders (prop_value k t))
                        (extractPlaceholders (prop_value k s)));
    intros H; try discriminate; reflexivity.
Qed.

Lemma passes_swap s t :
  missing_list s t = [] /\ extra_list s t = [] /\ diff_list s t = [] ->
  missing_list t s = [] /\ extra_list t s = [] /\ diff_list t s = [].
Proof.
  intros (Hm & He & Hd). split; [exact He|]. split; [exact Hm|].
  unfold diff_list. apply flat_map_none. intros k Hk.
  apply placeholder_item_swap.
  apply (flat_map_nil_inv _ _ Hd).
  destruct (hasOwn k s) eqn:E; [now apply hasOwn_In|].
  assert (In k (extra_list s t)) as Hin.
  { apply extra_list_In. split; [exact Hk | now apply hasOwn_false]. }
  rewrite He in Hin. destruct Hin.
Qed.

(** X23: the verdict of the validation does not depend on which map is
    taken as the source.  For all flat maps, [ok] is the same when source
    and target are exchanged (the errors are not: what is missing one
    way is extra the other way). *)
Theorem validation_verdict_is_symmetric (sourceFlat targetFlat : object) :
  ok (validateKeyAndPlaceholderParity sourceFlat targetFlat) =
  ok (validateKeyAndPlaceholderParity targetFlat sourceFlat).
Proof.
  pose proof (ok_errors sourceFlat targetFlat) as H1.
  pose proof (ok_errors targetFlat sourceFlat) as H2.
  rewrite errors_empty_iff in H1, H2.
  pose proof (passes_swap sourceFlat targetFlat) as F.
  pose proof (passes_swap targetFlat sourceFlat) as B.
  destruct (ok (validateKeyAndPlaceholderParity sourceFlat targetFlat)),
           (ok (validateKeyAndPlaceholderParity targetFlat sourceFlat));
    try reflexivity.
  - symmetry. apply H2, F, H1. reflexivity.
  - apply H1, B, H2. reflexivity.
Qed.

(** *** The order of the requests of a pair *)

Lemma ends_at_rejection_last {A} (new : trace) (r : result A) :
  ends_at_rejection new r ->
  forall l1 c e l2, new = l1 ++ Called c (Some e) :: l2 -> l2 = [] /\ r = Throw e.
Proof.
  intros [Hacc | (l & c' & e' & -> & Hacc & ->)] l1 c e l2 E.
  - subst new. rewrite forallb_app in Hacc. cbn in Hacc.
    rewrite andb_false_r in Hacc. discriminate.
  - destruct l2 as [|x l2] using rev_ind.
    + apply app_inj_tail in E as [_ E]. injection E as _ ->. now split.
    + clear IHl2. rewrite app_comm_cons, app_assoc in E.
      apply app_inj_tail in E as [-> _].
      rewrite forallb_app in Hacc. cbn in Hacc.
      rewrite andb_false_r in Hacc. discriminate.
Qed.

Lemma stops_ret {A} (a : A) : stops_at_rejection (ret a).
Proof.
  intros st. exists (Ok a), st, []. split; [reflexivity|].
  split; [now rewrite app_nil_r | now left].
Qed.

Lemma stops_throw {A} (e : error) : stops_at_rejection (@throw A e).
Proof.
  intros st. exists (Throw e), st, []. split; [reflexivity|].
  split; [now rewrite app_nil_r | now left].
Qed.

Lemma stops_lift {A} (r : result A) : stops_at_rejection (lift r).
Proof.
  intros st. exists r, st, []. split; [reflexivity|].
  split; [now rewrite app_nil_r | now left].
Qed.

Lemma stops_get_state : stops_at_rejection get_state.
Proof.
  intros st. exists (Ok st), st, []. split; [reflexivity|].
  split; [now rewrite app_nil_r | now left].
Qed.

Lemma stops_log fl act msg dat crit : stops_at_rejection (_log fl act msg dat crit).
Proof.
  intros st. eexists _, _, [_]. split; [reflexivity|].
  split; [reflexivity | now left].
Qed.

Lemma stops_request {A} c (answer : trace -> result A) :
  stops_at_rejection (request c answer).
Proof.
  intros st. unfold request. cbv zeta.
  exists (answer (events st)), (add_event st (Called c (rejection (answer (events st))))),
         [Called c (rejection (answer (events st)))].
  split; [reflexivity|]. split; [reflexivity|].
  destruct (answer (events st)) as [a|e|]; cbn [rejection].
  - now left.
  - right. exists [], c, e. now repeat split.
  - now left.
Qed.

Lemma stops_bind {A B} (m : M A) (f : A -> M B) :
  stops_at_rejection m -> (forall a, stops_at_rejection (f a)) ->
  stops_at_rejection (mbind m f).
Proof.
  intros Hm Hf st. destruct (Hm st) as (r & st1 & new1 & E & Hev & S).
  unfold mbind. rewrite E. destruct r as [a|e|].
  - destruct S as [Hacc | (l & c & e & _ & _ & Habs)]; [|discriminate].
    destruct (Hf a st1) as (r2 & st2 & new2 & E2 & Hev2 & S2).
    exists r2, st2, (new1 ++ new2). split; [exact E2|]. split.
    + rewrite Hev2, Hev. now rewrite app_assoc.
    + destruct S2 as [Hacc2 | (l & c & e & -> & Hacc2 & ->)].
      * left. rewrite forallb_app, Hacc, Hacc2. reflexivity.
      * right. exists (new1 ++ l), c, e. split; [now rewrite app_assoc|].
        split; [|reflexivity]. rewrite forallb_app, Hacc, Hacc2. reflexivity.
  - exists (Throw e), st1, new1. split; [reflexivity|]. split; [exact Hev|].
    destruct S as [Hacc | (l & c & e' & -> & Hacc & H)]; [now left|].
    right. exists l, c, e'. injection H as ->. now repeat split.
  - exists Unsupported, st1, new1. split; [reflexivity|]. split; [exact Hev|].
    destruct S as [Hacc | (l & c & e' & _ & _ & H)]; [now left | discriminate].
Qed.

Lemma stops_step {A} sf ef act ms me dat (fn : M A) :
  stops_at_rejection fn -> stops_at_rejection (_step sf ef act ms me dat fn).
Proof.
  intros Hfn. unfold _step.
  apply stops_bind; [apply stops_log | intros _].
  apply stops_bind; [exact Hfn | intros a].
  apply stops_bind; [apply stops_log | intros _].
  apply stops_ret.
Qed.

Ltac stops_steps :=
  repeat first
    [ apply stops_ret
    | apply stops_throw
    | apply stops_lift
    | apply stops_get_state
    | apply stops_request
    | apply stops_log
    | apply stops_step
    | apply stops_bind; [ | intros ? ] ].

Section PairOrder.

Variable W : env.
Variable C : config.

Lemma stops_try_batch turns mod_name tf ta iu ou lines :
  stops_at_rejection (try_batch W C turns mod_name tf ta iu ou lines).
Proof.
  intros st. destruct (batch_enabled C) eqn:E.
  - rewrite (try_batch_enabled _ _ _ _ _ _ _ _ _ _ E).
    eexists _, _, [_]. split; [reflexivity|]. split; [reflexivity | now left].
  - rewrite (try_batch_disabled _ _ _ _ _ _ _ _ _ _ E).
    eexists _, _, []. split; [reflexivity|]. split; [now rewrite app_nil_r | now left].
Qed.

Lemma stops_sync_translate lang lines : forall acc,
  stops_at_rejection (sync_translate W lines lang acc).
Proof.
  induction lines as [|[key text] lines IH]; intros acc; cbn [sync_translate].
  - apply stops_ret.
  - apply stops_bind; [unfold translateText; stops_steps | intros t; apply IH].
Qed.

Lemma stops_s3_cleanup ik op : stops_at_rejection (s3_cleanup W C ik op).
Proof.
  unfold s3_cleanup. apply stops_bind.
  - destruct (s3_has_deleteFile W); stops_steps.
  - intros _. destruct (s3_has_listFiles W && s3_has_deleteFiles W); stops_steps.
    match goal with |- stops_at_rejection (match ?f with _ => _ end) =>
      destruct f as [[|? ?]|] end; stops_steps.
Qed.

Lemma stops_finish_pair mod_name tf jobDir ik op fs tflat :
  stops_at_rejection (finish_pair W C mod_name tf jobDir ik op fs tflat).
Proof.
  unfold finish_pair. cbv zeta.
  apply stops_bind; [apply stops_step, stops_lift | intros nested].
  apply stops_bind; [apply stops_step, stops_ret | intros _].
  apply stops_bind.
  { destruct (ok (validateKeyAndPlaceholderParity fs tflat)); stops_steps. }
  intros _.
  apply stops_bind; [apply stops_step, stops_request | intros _].
  apply stops_bind; [apply stops_step, stops_s3_cleanup | intros _].
  apply stops_ret.
Qed.

Lemma stops_translateModuleLocale turns mod_name enFile jobDir target :
  stops_at_rejection (translateModuleLocale W C turns mod_name enFile jobDir target).
Proof.
  unfold translateModuleLocale. cbv zeta.
  apply stops_bind.
  { unfold buildPayload. stops_steps.
    match goal with |- context [truthy ?j] => destruct (truthy j) end; stops_steps. }
  intros payload. apply stops_bind; [apply stops_get_state | intros s].
  apply stops_bind.
  { apply stops_step. unfold putJsonl. destruct (s3_has_uploadFile W); stops_steps. }
  intros inputUri. apply stops_bind; [apply stops_try_batch | intros batch].
  apply stops_bind; [|intros tflat; apply stops_finish_pair].
  destruct batch as [flat|]; [apply stops_ret|].
  apply stops_bind; [|intros out; apply stops_ret].
  apply stops_step, stops_sync_translate.
Qed.

(** The bucket is cleaned only after the write. *)

Lemma cleaned_of_prefix outPath {A} (m : M A) :
  always m (post_with prefix_event) -> leaves (cleaned_after_write outPath) m.
Proof.
  intros Hm st. destruct (Hm st) as (r & st' & E & _ & _ & new & Hev & Hin & _).
  exists r, st', new. split; [exact E|]. split; [exact Hev|]. left.
  intros c rej Hc. rewrite Forall_forall in Hin. specialize (Hin _ Hc).
  destruct c; simpl in Hin; try discriminate; reflexivity.
Qed.

Lemma cleaned_bind_prefix outPath {A B} (m : M A) (f : A -> M B) :
  always m (post_with prefix_event) ->
  (forall a, leaves (cleaned_after_write outPath) (f a)) ->
  leaves (cleaned_after_write outPath) (mbind m f).
Proof.
  intros Hm Hf st.
  destruct (cleaned_of_prefix outPath m Hm st) as (r0 & st0 & new0 & E0 & Hev0 & S0).
  destruct (Hm st) as (r & st1 & E & _ & _ & new1 & Hev & Hin & _).
  unfold mbind. rewrite E. destruct r as [a|e|].
  - destruct (Hf a st1) as (r2 & st2 & new2 & E2 & Hev2 & S2).
    exists r2, st2, (new1 ++ new2). split; [exact E2|]. split.
    + rewrite Hev2, Hev. now rewrite app_assoc.
    + destruct S2 as [Hno | (l1 & data & l2 & -> & Hl1 & Hl2)].
      * left. intros c rej Hc. apply in_app_or in Hc as [Hc|Hc]; [|eauto].
        rewrite Forall_forall in Hin. specialize (Hin _ Hc).
        destruct c; simpl in Hin; try discriminate; reflexivity.
      * right. exists (new1 ++ l1), data, l2. split; [now rewrite app_assoc|].
        split; [|exact Hl2]. apply Forall_app. now split.
  - rewrite E in E0. injection E0 as <- <-.
    exists (Throw e), st1, new0. split; [reflexivity|]. now split.
  - rewrite E in E0. injection E0 as <- <-.
    exists Unsupported, st1, new0. split; [reflexivity|]. now split.
Qed.

Lemma cleaned_write_then_cleanup sf ef act ms me dat outPath nested
      sf' ef' act' ms' me' dat' ik op :
  leaves (cleaned_after_write outPath)
         (_step sf ef act ms me dat
                (request (call_writeJsonPretty outPath nested)
                         (fun t => fs_writeJsonPretty W t outPath nested)) ;;;
          _step sf' ef' act' ms' me' dat' (s3_cleanup W C ik op) ;;;
          ret outPath).
Proof.
  assert (always (_step sf' ef' act' ms' me' dat' (s3_cleanup W C ik op) ;;;
                  ret outPath) (post_with cleanup_event)) as Hc.
  { apply post_bind; [|intros _; apply post_ret].
    apply post_step; [reflexivity | reflexivity | apply cleanup_events]. }
  set (k := _step sf' ef' act' ms' me' dat' (s3_cleanup W C ik op) ;;; ret outPath) in *.
  intros st. unfold mbind at 1. unfold _step at 1.
  unfold _log, mbind at 1, record. unfold mbind at 1, request. cbv zeta.
  cbn [events add_event].
  destruct (fs_writeJsonPretty W (events st ++ [Logged (mkLog sf act ms false dat)])
                               outPath nested) as [[]|e|] eqn:Ew.
  - unfold mbind at 1, record, ret. cbn [rejection].
    match goal with |- context [k ?s] =>
      destruct (Hc s) as (r & st' & E & _ & _ & new & Hev & Hin & _) end.
    exists r, st', ([Logged (mkLog sf act ms false dat)]
                    ++ Called (call_writeJsonPretty outPath nested) None
                    :: Logged (mkLog ef act me false dat) :: new).
    split; [exact E|]. split.
    + rewrite Hev. unfold add_event. cbn [events]. now rewrite <- !app_assoc.
    + right. exists [Logged (mkLog sf act ms false dat)], nested,
                    (Logged (mkLog ef act me false dat) :: new).
      split; [reflexivity|]. split; repeat constructor. exact Hin.
  - eexists _, _, [_; _]. split; [reflexivity|]. split.
    + unfold add_event. cbn [events]. now rewrite <- app_assoc.
    + left. intros c rej [H|[H|[]]]; [discriminate|]. now injection H as <- _.
  - eexists _, _, [_; _]. split; [reflexivity|]. split.
    + unfold add_event. cbn [events]. now rewrite <- app_assoc.
    + left. intros c rej [H|[H|[]]]; [discriminate|]. now injection H as <- _.
Qed.

Lemma cleaned_finish_pair mod_name tf jobDir ik op fs tflat :
  leaves (cleaned_after_write (_localOut W jobDir mod_name tf))
         (finish_pair W C mod_name tf jobDir ik op fs tflat).
Proof.
  unfold finish_pair. cbv zeta.
  apply cleaned_bind_prefix; [post_steps | intros nested].
  apply cleaned_bind_prefix.
  { destruct (ok (validateKeyAndPlaceholderParity fs tflat)); post_steps. }
  intros _. apply cleaned_bind_prefix.
  { destruct (ok (validateKeyAndPlaceholderParity fs tflat)); post_steps. }
  intros _. apply cleaned_write_then_cleanup.
Qed.

Lemma cleaned_translateModuleLocale turns mod_name enFile jobDir target :
  leaves (cleaned_after_write (_localOut W jobDir mod_name (folderCode target)))
         (translateModuleLocale W C turns mod_name enFile jobDir target).
Proof.
  unfold translateModuleLocale. cbv zeta.
  apply cleaned_bind_prefix; [apply prefix_buildPayload | intros payload].
  apply cleaned_bind_prefix; [apply post_get_state | intros s].
  apply cleaned_bind_prefix; [apply prefix_upload | intros inputUri].
  apply cleaned_bind_prefix; [apply post_try_batch; reflexivity | intros batch].
  apply cleaned_bind_prefix; [|intros tflat; apply cleaned_finish_pair].
  destruct batch as [flat|]; [apply post_ret|].
  apply post_bind; [|intros out; apply post_ret].
  apply post_step; [reflexivity | reflexivity | apply prefix_sync_translate].
Qed.

End PairOrder.

(** X24: a rejected request ends the work on a pair.  Whatever the world
    answers, [translateModuleLocale] ends, and a request of the pair
    that was rejected is its last event: nothing is logged or requested
    after it (no retry, no cleanup), and the error of the rejection is
    the error the pair throws. *)
Theorem rejected_request_ends_the_pair
        (W : env) (C : config) (turns : nat)
        (mod_name enFile jobDir : string) (target : locale) (st : state) :
  exists r st' new,
    translateModuleLocale W C turns mod_name enFile jobDir target st =
      Some (r, st') /\
    events st' = events st ++ new /\
    forall l1 c e l2,
      new = l1 ++ Called c (Some e) :: l2 -> l2 = [] /\ r = Throw e.
Proof.
  destruct (stops_translateModuleLocale W C turns mod_name enFile jobDir target st)
    as (r & st' & new & E & Hev & S).
  exists r, st', new. split; [exact E|]. split; [exact Hev|].
  now apply ends_at_rejection_last.
Qed.

(** X25: the bucket is cleaned only after the output file is written.
    Whatever happens to a pair, a request of the cleanup step (to delete
    the uploaded input, to list or to delete the objects under the output
    prefix) comes after an accepted request to write the output file of
    the pair: a pair that fails before its file is written (a rejected
    translation, a failed validation, a rejected write) deletes nothing,
    and leaves its uploaded input in the bucket. *)
Theorem bucket_is_cleaned_only_after_the_write
        (W : env) (C : config) (turns : nat)
        (mod_name enFile jobDir : string) (target : locale) (st : state) :
  exists r st' new,
    translateModuleLocale W C turns mod_name enFile jobDir target st =
      Some (r, st') /\
    events st' = events st ++ new /\
    forall l1 c rej l2,
      new = l1 ++ Called c rej :: l2 -> cleanup_call c = true ->
      exists data,
        In (Called (call_writeJsonPretty
                      (_localOut W jobDir mod_name (folderCode target)) data) None) l1.
Proof.
  destruct (cleaned_translateModuleLocale W C turns mod_name enFile jobDir target st)
    as (r & st' & new & E & Hev & S).
  exists r, st', new. split; [exact E|]. split; [exact Hev|].
  intros l1 c rej l2 Hnew Hc.
  destruct S as [Hno | (k1 & data & k2 & Hk & Hk1 & Hk2)].
  - rewrite (Hno c rej) in Hc; [discriminate|].
    rewrite Hnew. apply in_or_app. right. now left.
  - exists data. rewrite Hnew in Hk.
    assert (forall x, In x k1 -> x <> Called c rej) as Hne.
    { intros x Hx ->. rewrite Forall_forall in Hk1. specialize (Hk1 _ Hx).
      destruct c; simpl in Hk1, Hc; discriminate. }
    clear Hnew. revert l1 Hk Hne. clear Hk1.
    induction k1 as [|x k1 IH]; intros l1 Hk Hne.
    + destruct l1 as [|y l1].
      * injection Hk as Hk _. rewrite Hk in Hc. discriminate.
      * injection Hk as -> _. now left.
    + destruct l1 as [|y l1].
      * injection Hk as Hk _. elim (Hne x (or_introl eq_refl)). now symmetry.
      * injection Hk as _ Hk. right. apply IH; [exact Hk|].
        intros z Hz. apply Hne. now right.
Qed.
